(** * The download registry of jellyfin-expo: [src/stores/DownloadStore.ts]

    A shallow embedding of the persisted download store: the insertion
    ordered [Map] the store keeps its records in, the zustand actions
    ([add], [delete], [update], [reset], ...) over a heap of [Map]
    instances, and the storage adapter ([storage.setItem], [deserialize])
    together with the JSON text it reads and writes. *)

From Stdlib Require Import ZArith NArith List Bool String Ascii Lia.
From Stdlib Require Import DecimalN DecimalFacts.
From stdpp Require Import base option list.

Local Open Scope N_scope.

(** ** JavaScript strings

    A JavaScript string is a sequence of UTF-16 code units; equality of
    strings ([===], the key comparison of [Map]) is equality of the
    sequences. *)

Definition jsstring := list N.

(** The code units of an ASCII literal. *)
Definition js (s : string) : jsstring :=
  map N_of_ascii (list_ascii_of_string s).

Fixpoint str_eqb (a b : jsstring) : bool :=
  match a, b with
  | [], [] => true
  | x :: a', y :: b' => (x =? y) && str_eqb a' b'
  | _, _ => false
  end.

(** [!s] on a string: only the empty string is falsy. *)
Definition truthy_string (s : jsstring) : bool :=
  match s with [] => false | _ :: _ => true end.

(** ** [Map<string, V>]

    An ECMAScript [Map] iterates in insertion order and holds a key once.
    [set] on a key that is present replaces the value where it stands;
    [delete] reports whether it removed something. *)

Module JSMap.
Section Ops.
Context {V : Type}.

Definition t := list (jsstring * V).

Definition empty : t := [].

Fixpoint has (k : jsstring) (m : t) : bool :=
  match m with
  | [] => false
  | (k', _) :: m' => if str_eqb k' k then true else has k m'
  end.

Fixpoint get (k : jsstring) (m : t) : option V :=
  match m with
  | [] => None
  | (k', v) :: m' => if str_eqb k' k then Some v else get k m'
  end.

Fixpoint set (k : jsstring) (v : V) (m : t) : t :=
  match m with
  | [] => [(k, v)]
  | (k', v') :: m' =>
      if str_eqb k' k then (k', v) :: m' else (k', v') :: set k v m'
  end.

Fixpoint delete (k : jsstring) (m : t) : bool * t :=
  match m with
  | [] => (false, [])
  | (k', v') :: m' =>
      if str_eqb k' k then (true, m')
      else let (b, r) := delete k m' in (b, (k', v') :: r)
  end.

Definition entries (m : t) : list (jsstring * V) := m.
Definition keys (m : t) : list jsstring := map fst m.
Definition values (m : t) : list V := map snd m.
Definition size (m : t) : nat := length m.

(** [new Map(iterable)]: every pair of the iterable is [set] in turn. *)
Definition of_entries (es : list (jsstring * V)) : t :=
  fold_left (fun m e => set (fst e) (snd e) m) es empty.

(** How many records the collection holds under [k]. *)
Definition count (k : jsstring) (m : t) : nat :=
  length (List.filter (fun e => str_eqb (fst e) k) m).

(** The invariant of a [Map]: no key twice. *)
Definition wf (m : t) : Prop := NoDup (keys m).
End Ops.
Arguments t : clear implicits.
End JSMap.

(** ** Download records *)

(** Modelled from the spec: the enum of
    [features/downloads/constants/DownloadStatus] is not part of the
    sources at hand; the spec lists its members as Queued, Downloading,
    Complete and Failed. *)
Inductive DownloadStatus := Queued | Downloading | Complete | Failed.

Definition DownloadStatus_eqb (a b : DownloadStatus) : bool :=
  match a, b with
  | Queued, Queued | Downloading, Downloading
  | Complete, Complete | Failed, Failed => true
  | _, _ => false
  end.

(** Modelled from the spec: the enum is string-valued, a member's value
    being its name (the spec's scenario B persists
    [status: "Downloading"]). *)
Definition DownloadStatus_value (s : DownloadStatus) : jsstring :=
  match s with
  | Queued => js "Queued"
  | Downloading => js "Downloading"
  | Complete => js "Complete"
  | Failed => js "Failed"
  end.

(** Modelled from the spec: [DownloadItem] of [models/DownloadModel], the
    minimal remote-item descriptor (id, owning server id, display name). *)
Record DownloadItem := {
  Id : jsstring;
  ServerId : jsstring;
  Name : option jsstring
}.

(** Modelled from the spec: the class [DownloadModel] of
    [models/DownloadModel], with the fields the spec's data model and
    [deserialize] name. *)
Record DownloadModel := {
  item : DownloadItem;
  serverUrl : jsstring;
  apiKey : jsstring;
  filename : jsstring;
  downloadUrl : jsstring;
  status : DownloadStatus;
  canPlay : bool;
  extension : option jsstring;
  isNew : bool
}.

(** Modelled from the spec: [new DownloadModel(item, serverUrl, apiKey,
    filename, downloadUrl)]; a record starts its life [Queued], new and
    playable. *)
Definition new_DownloadModel
    (item : DownloadItem) (serverUrl apiKey filename downloadUrl : jsstring)
    : DownloadModel :=
  {| item := item; serverUrl := serverUrl; apiKey := apiKey;
     filename := filename; downloadUrl := downloadUrl;
     status := Queued; canPlay := true; extension := None; isNew := true |}.

(** Modelled from the spec: the getter [key] of [DownloadModel], a
    deterministic function of [(serverId, itemId)]; the spec does not fix
    the separator and nothing below depends on it. *)
Definition key (d : DownloadModel) : jsstring :=
  ServerId (item d) ++ js "_" ++ Id (item d).

Definition set_status (s : DownloadStatus) (d : DownloadModel) : DownloadModel :=
  {| item := item d; serverUrl := serverUrl d; apiKey := apiKey d;
     filename := filename d; downloadUrl := downloadUrl d;
     status := s; canPlay := canPlay d; extension := extension d;
     isNew := isNew d |}.

Definition set_canPlay (b : bool) (d : DownloadModel) : DownloadModel :=
  {| item := item d; serverUrl := serverUrl d; apiKey := apiKey d;
     filename := filename d; downloadUrl := downloadUrl d;
     status := status d; canPlay := b; extension := extension d;
     isNew := isNew d |}.

Definition set_extension (e : option jsstring) (d : DownloadModel) : DownloadModel :=
  {| item := item d; serverUrl := serverUrl d; apiKey := apiKey d;
     filename := filename d; downloadUrl := downloadUrl d;
     status := status d; canPlay := canPlay d; extension := e;
     isNew := isNew d |}.

Definition set_isNew (b : bool) (d : DownloadModel) : DownloadModel :=
  {| item := item d; serverUrl := serverUrl d; apiKey := apiKey d;
     filename := filename d; downloadUrl := downloadUrl d;
     status := status d; canPlay := canPlay d; extension := extension d;
     isNew := b |}.

(** ** The store: zustand state over a heap of [Map] instances

    [State.downloads] is a reference to a [Map] object.  The heap grows by
    allocation only; a location is an index into it.  The records a map
    holds are never written to by the store's actions, so they are kept
    as values. *)

Module Store.

Definition loc := nat.

(** [type State = { downloads: Map<string, DownloadModel> }] *)
Record State := { downloads : loc }.

(** [Partial<State>] *)
Record PartialState := { p_downloads : option loc }.

(** What a JavaScript call evaluates to, for the actions below. *)
Inductive jsret := Undefined | Boolean (b : bool).

(** One call of zustand's [_set]: the merged state is installed, the
    subscribers are notified and the persist middleware flushes it
    through [storage.setItem]. *)
Inductive Event := Commit (next : State).

Record World := {
  heap : list (JSMap.t DownloadModel);
  state : State;
  trace : list Event
}.

(** A computation on the world; [None] stands for the dereference of a
    location that was never allocated. *)
Definition M (A : Type) := World -> option (A * World).

Definition ret {A} (a : A) : M A := fun w => Some (a, w).

Definition bind {A B} (m : M A) (k : A -> M B) : M B :=
  fun w => match m w with
           | Some (a, w') => k a w'
           | None => None
           end.

Notation "'do' x <- m ; k" := (bind m (fun x => k))
  (at level 10, x name, m at level 100, k at level 200).

Definition _get : M State := fun w => Some (state w, w).

(** [Object.assign({}, state, partial)] *)
Definition merge (s : State) (p : PartialState) : State :=
  match p_downloads p with
  | Some l => {| downloads := l |}
  | None => s
  end.

(** [_set(partial)] with an object, or with an updater function. *)
Definition _set_with (f : State -> PartialState) : M unit :=
  fun w =>
    let next := merge (state w) (f (state w)) in
    Some (tt, {| heap := heap w; state := next;
                 trace := trace w ++ [Commit next] |}).

Definition _set (p : PartialState) : M unit := _set_with (fun _ => p).

Definition deref (l : loc) : M (JSMap.t DownloadModel) :=
  fun w => match heap w !! l with
           | Some m => Some (m, w)
           | None => None
           end.

Definition alloc (m : JSMap.t DownloadModel) : M loc :=
  fun w => Some (length (heap w),
                 {| heap := heap w ++ [m]; state := state w;
                    trace := trace w |}).

Definition store (l : loc) (m : JSMap.t DownloadModel) : M unit :=
  fun w => match heap w !! l with
           | Some _ => Some (tt, {| heap := <[l := m]> (heap w);
                                    state := state w; trace := trace w |})
           | None => None
           end.

(** [new Map()] *)
Definition Map_new : M loc := alloc JSMap.empty.

(** [new Map(other)] *)
Definition Map_copy (l : loc) : M loc :=
  do m <- deref l; alloc (JSMap.of_entries (JSMap.entries m)).

(** [map.has(k)] *)
Definition Map_has (l : loc) (k : jsstring) : M bool :=
  do m <- deref l; ret (JSMap.has k m).

(** [map.set(k, v)], which mutates [map] and evaluates to it. *)
Definition Map_set (l : loc) (k : jsstring) (v : DownloadModel) : M loc :=
  do m <- deref l; do _ <- store l (JSMap.set k v m); ret l.

(** [map.delete(k)], which mutates [map]. *)
Definition Map_delete (l : loc) (k : jsstring) : M bool :=
  do m <- deref l;
  let (b, m') := JSMap.delete k m in
  do _ <- store l m'; ret b.

(** [Array.from(map.values())] *)
Definition Map_values (l : loc) : M (list DownloadModel) :=
  do m <- deref l; ret (JSMap.values m).

(** *** The actions (lines 146-174) *)

Definition set (value : PartialState) : M jsret :=
  do _ <- _set_with (fun prev =>
            {| p_downloads :=
                 match p_downloads value with
                 | Some l => Some l
                 | None => Some (downloads prev)
                 end |});
  ret Undefined.

Definition getNewDownloadCount : M nat :=
  do st <- _get;
  do vs <- Map_values (downloads st);
  ret (length (List.filter (fun d => isNew d) vs)).

Definition add (download : DownloadModel) : M jsret :=
  do st <- _get;
  let downloads := downloads st in
  do present <- Map_has downloads (key download);
  if negb present then
    do fresh <- Map_copy downloads;
    do fresh <- Map_set fresh (key download) download;
    do _ <- _set {| p_downloads := Some fresh |};
    ret Undefined
  else ret Undefined.

Definition delete (download : DownloadModel) : M jsret :=
  do st <- _get;
  do downloads <- Map_copy (downloads st);
  do isDeleted <- Map_delete downloads (key download);
  do _ <- (if isDeleted then _set {| p_downloads := Some downloads |}
           else ret tt);
  ret (Boolean isDeleted).

Definition update (download : DownloadModel) : M jsret :=
  do st <- _get;
  do fresh <- Map_copy (downloads st);
  do downloads <- Map_set fresh (key download) download;
  do _ <- _set {| p_downloads := Some downloads |};
  ret Undefined.

Definition reset : M jsret :=
  do fresh <- Map_new;
  do _ <- _set {| p_downloads := Some fresh |};
  ret Undefined.

(** A sequence of [add] calls. *)
Fixpoint add_all (ds : list DownloadModel) : M unit :=
  match ds with
  | [] => ret tt
  | d :: ds' => do _ <- add d; add_all ds'
  end.

(** The collection the state refers to. *)
Definition current (w : World) : option (JSMap.t DownloadModel) :=
  heap w !! downloads (state w).

(** A registry state: the state refers to an allocated [Map]. *)
Definition registry (w : World) (m : JSMap.t DownloadModel) : Prop :=
  current w = Some m /\ JSMap.wf m.

(** The store as [create] leaves it: [initialState.downloads] is the one
    [Map] allocated at module load. *)
Definition initial : World :=
  {| heap := [JSMap.empty]; state := {| downloads := 0%nat |}; trace := [] |}.

(** One call of a mutating action, and a sequence of such calls. *)
Inductive Action :=
| Add (download : DownloadModel)
| Update (download : DownloadModel)
| Delete (download : DownloadModel)
| Reset.

Definition perform (a : Action) : M jsret :=
  match a with
  | Add d => add d
  | Update d => update d
  | Delete d => delete d
  | Reset => reset
  end.

Fixpoint perform_all (acts : list Action) : M unit :=
  match acts with
  | [] => ret tt
  | a :: acts' => do _ <- perform a; perform_all acts'
  end.

(** *** What the persist middleware keeps (lines 139, 178-180) *)

(** A property of the store object: the reference to the [Map], or one of
    the action functions. *)
Inductive property := MapRef (l : loc) | Function.

(** [initialState] as an object. *)
Definition initialState_object : list (jsstring * property) :=
  [(js "downloads", MapRef 0%nat)].

(** The object [create] builds (lines 144-175): the spread of
    [initialState], then the actions, in the order they are written. *)
Definition store_object (st : State) : list (jsstring * property) :=
  [(js "downloads", MapRef (downloads st));
   (js "set", Function);
   (js "getNewDownloadCount", Function);
   (js "add", Function);
   (js "delete", Function);
   (js "update", Function);
   (js "reset", Function)].

(** [Object.keys(initialState)] *)
Definition persistKeys : list jsstring := map fst initialState_object.

(** [keys.includes(key)] *)
Definition includes (keys : list jsstring) (k : jsstring) : bool :=
  existsb (fun k' => str_eqb k' k) keys.

(** [Object.fromEntries(Object.entries(state).filter(([ key ]) =>
    persistKeys.includes(key)))]; an object is the list of its entries,
    which is the order of [Object.entries] for names that are no array
    indices. *)
Definition partialize (state : list (jsstring * property))
    : list (jsstring * property) :=
  JSMap.of_entries
    (List.filter (fun e => includes persistKeys (fst e)) (JSMap.entries state)).

End Store.

(** ** JSON texts: [JSON.stringify] and [JSON.parse]

    The two built-ins the adapter calls, over code units.  A number is
    kept as the decimal it is written as, [m * 10^e]; binary64 rounding is
    not modelled (the store persists no number but zustand's integer
    [version]). *)

Module JSON.

#[local] Set Warnings "-register-all".

Inductive value :=
| JNull
| JBool (b : bool)
| JNum (m e : Z)
| JStr (s : jsstring)
| JArr (vs : list value)
| JObj (ms : list (jsstring * value)).

(** *** Writing *)

Definition hex_digit (n : N) : N := if n <? 10 then 48 + n else 87 + n.

Definition hex4 (c : N) : list N :=
  [hex_digit (c / 4096 mod 16); hex_digit (c / 256 mod 16);
   hex_digit (c / 16 mod 16); hex_digit (c mod 16)].

(** [\uXXXX] *)
Definition unicode_escape (c : N) : list N := 92 :: 117 :: hex4 c.

Definition is_lead (c : N) : bool := (55296 <=? c) && (c <=? 56319).
Definition is_trail (c : N) : bool := (56320 <=? c) && (c <=? 57343).

(** QuoteJSONString on one code unit that is no surrogate. *)
Definition quote_unit (c : N) : list N :=
  if c =? 8 then [92; 98]
  else if c =? 9 then [92; 116]
  else if c =? 10 then [92; 110]
  else if c =? 12 then [92; 102]
  else if c =? 13 then [92; 114]
  else if c =? 34 then [92; 34]
  else if c =? 92 then [92; 92]
  else if c <? 32 then unicode_escape c
  else [c].

(** A surrogate pair is written as it is, a lone surrogate escaped. *)
Fixpoint quote_units (s : jsstring) : list N :=
  match s with
  | [] => []
  | c :: s' =>
      if is_lead c then
        match s' with
        | d :: s'' =>
            if is_trail d then c :: d :: quote_units s''
            else unicode_escape c ++ quote_units s'
        | [] => unicode_escape c
        end
      else if is_trail c then unicode_escape c ++ quote_units s'
      else quote_unit c ++ quote_units s'
  end.

Definition quote (s : jsstring) : list N := 34 :: quote_units s ++ [34].

Definition digit_unit (d : N) : N := 48 + d.

Fixpoint uint_units (u : Decimal.uint) : list N :=
  match u with
  | Decimal.Nil => []
  | Decimal.D0 u' => 48 :: uint_units u'
  | Decimal.D1 u' => 49 :: uint_units u'
  | Decimal.D2 u' => 50 :: uint_units u'
  | Decimal.D3 u' => 51 :: uint_units u'
  | Decimal.D4 u' => 52 :: uint_units u'
  | Decimal.D5 u' => 53 :: uint_units u'
  | Decimal.D6 u' => 54 :: uint_units u'
  | Decimal.D7 u' => 55 :: uint_units u'
  | Decimal.D8 u' => 56 :: uint_units u'
  | Decimal.D9 u' => 57 :: uint_units u'
  end.

Definition int_units (z : Z) : list N :=
  (if (z <? 0)%Z then [45] else []) ++ uint_units (N.to_uint (Z.abs_N z)).

Definition number_units (m e : Z) : list N :=
  int_units m ++ (if (e =? 0)%Z then [] else 101 :: int_units e).

(** Parts joined by commas. *)
Fixpoint join (parts : list (list N)) : list N :=
  match parts with
  | [] => []
  | p :: ps => p ++ match ps with [] => [] | _ :: _ => 44 :: join ps end
  end.

Fixpoint stringify (v : value) : list N :=
  match v with
  | JNull => js "null"
  | JBool true => js "true"
  | JBool false => js "false"
  | JNum m e => number_units m e
  | JStr s => quote s
  | JArr vs => 91 :: join (map stringify vs) ++ [93]
  | JObj ms =>
      123 :: join (map (fun kv => quote (fst kv) ++ 58 :: stringify (snd kv)) ms)
          ++ [125]
  end.

(** *** Reading *)

Definition is_ws (c : N) : bool :=
  (c =? 32) || (c =? 9) || (c =? 10) || (c =? 13).

Fixpoint skip_ws (s : list N) : list N :=
  match s with
  | c :: s' => if is_ws c then skip_ws s' else s
  | [] => []
  end.

Definition hex_value (c : N) : option N :=
  if (48 <=? c) && (c <=? 57) then Some (c - 48)
  else if (65 <=? c) && (c <=? 70) then Some (c - 55)
  else if (97 <=? c) && (c <=? 102) then Some (c - 87)
  else None.

Definition hex4_value (a b c d : N) : option N :=
  match hex_value a, hex_value b, hex_value c, hex_value d with
  | Some x, Some y, Some z, Some w => Some (4096 * x + 256 * y + 16 * z + w)
  | _, _, _, _ => None
  end.

Definition unescape (c : N) : option N :=
  if c =? 34 then Some 34
  else if c =? 92 then Some 92
  else if c =? 47 then Some 47
  else if c =? 98 then Some 8
  else if c =? 102 then Some 12
  else if c =? 110 then Some 10
  else if c =? 114 then Some 13
  else if c =? 116 then Some 9
  else None.

Definition prepend {A B} (a : A) (r : option (list A * B)) : option (list A * B) :=
  match r with
  | Some (l, b) => Some (a :: l, b)
  | None => None
  end.

(** The code units of a string literal, read after its opening quote up
    to and including the closing one. *)
Fixpoint parse_units (s : list N) : option (jsstring * list N) :=
  match s with
  | [] => None
  | c :: r =>
      if c =? 34 then Some ([], r)
      else if c =? 92 then
        match r with
        | e :: r' =>
            if e =? 117 then
              match r' with
              | h1 :: h2 :: h3 :: h4 :: r'' =>
                  match hex4_value h1 h2 h3 h4 with
                  | Some u => prepend u (parse_units r'')
                  | None => None
                  end
              | _ => None
              end
            else
              match unescape e with
              | Some u => prepend u (parse_units r')
              | None => None
              end
        | [] => None
        end
      else if c <? 32 then None
      else prepend c (parse_units r)
  end.

Definition is_digit (c : N) : bool := (48 <=? c) && (c <=? 57).

Definition digit_cons (c : N) (u : Decimal.uint) : Decimal.uint :=
  if c =? 48 then Decimal.D0 u
  else if c =? 49 then Decimal.D1 u
  else if c =? 50 then Decimal.D2 u
  else if c =? 51 then Decimal.D3 u
  else if c =? 52 then Decimal.D4 u
  else if c =? 53 then Decimal.D5 u
  else if c =? 54 then Decimal.D6 u
  else if c =? 55 then Decimal.D7 u
  else if c =? 56 then Decimal.D8 u
  else Decimal.D9 u.

(** The longest run of digits at the head of the text. *)
Fixpoint read_digits (s : list N) : Decimal.uint * list N :=
  match s with
  | c :: r =>
      if is_digit c then
        let (u, r') := read_digits r in (digit_cons c u, r')
      else (Decimal.Nil, s)
  | [] => (Decimal.Nil, [])
  end.

(** The integer part of a number: ["0"], or digits with no leading zero. *)
Definition int_part_ok (u : Decimal.uint) : bool :=
  match u with
  | Decimal.Nil => false
  | Decimal.D0 Decimal.Nil => true
  | Decimal.D0 _ => false
  | _ => true
  end.

Definition nonempty (u : Decimal.uint) : bool :=
  match u with Decimal.Nil => false | _ => true end.

(** [. digits], when there is one. *)
Definition read_fraction (s : list N) : option (Decimal.uint * list N) :=
  match s with
  | c :: r =>
      if c =? 46 then
        let (u, r') := read_digits r in
        if nonempty u then Some (u, r') else None
      else Some (Decimal.Nil, s)
  | [] => Some (Decimal.Nil, [])
  end.

Definition read_exp_digits (neg : bool) (s : list N) : option (Z * list N) :=
  let (u, r) := read_digits s in
  if nonempty u then
    Some (if neg then (- Z.of_N (N.of_uint u))%Z else Z.of_N (N.of_uint u), r)
  else None.

(** [e], [e+] or [e-] and digits, when there is one. *)
Definition read_exponent (s : list N) : option (Z * list N) :=
  match s with
  | c :: r =>
      if (c =? 101) || (c =? 69) then
        match r with
        | d :: r' =>
            if d =? 45 then read_exp_digits true r'
            else if d =? 43 then read_exp_digits false r'
            else read_exp_digits false r
        | [] => None
        end
      else Some (0%Z, s)
  | [] => Some (0%Z, [])
  end.

Definition parse_number (s : list N) : option (value * list N) :=
  let (neg, s1) :=
    match s with
    | c :: r => if c =? 45 then (true, r) else (false, s)
    | [] => (false, [])
    end in
  let (i, s2) := read_digits s1 in
  if int_part_ok i then
    match read_fraction s2 with
    | Some (f, s3) =>
        match read_exponent s3 with
        | Some (x, s4) =>
            let n := Z.of_N (N.of_uint (Decimal.app i f)) in
            Some (JNum (if neg then - n else n)%Z
                       (x - Z.of_nat (Decimal.nb_digits f))%Z, s4)
        | None => None
        end
    | None => None
    end
  else None.

(** The text starts with the given word. *)
Fixpoint expect (w s : list N) : option (list N) :=
  match w, s with
  | [], _ => Some s
  | a :: w', b :: s' => if a =? b then expect w' s' else None
  | _ :: _, [] => None
  end.

Definition literal (w : list N) (v : value) (s : list N) : option (value * list N) :=
  match expect w s with
  | Some r => Some (v, r)
  | None => None
  end.

(** Recursive descent; every call that reads a value spends one unit of
    fuel and reads at least one code unit. *)
Fixpoint parse_value (fuel : nat) (s : list N) : option (value * list N) :=
  match fuel with
  | O => None
  | S fuel' =>
      match skip_ws s with
      | [] => None
      | c :: r =>
          if c =? 123 then
            match skip_ws r with
            | d :: r' =>
                if d =? 125 then Some (JObj [], r')
                else
                  match parse_members fuel' r with
                  | Some (ms, r'') => Some (JObj ms, r'')
                  | None => None
                  end
            | [] => None
            end
          else if c =? 91 then
            match skip_ws r with
            | d :: r' =>
                if d =? 93 then Some (JArr [], r')
                else
                  match parse_elements fuel' r with
                  | Some (vs, r'') => Some (JArr vs, r'')
                  | None => None
                  end
            | [] => None
            end
          else if c =? 34 then
            match parse_units r with
            | Some (str, r') => Some (JStr str, r')
            | None => None
            end
          else if c =? 116 then literal (js "rue") (JBool true) r
          else if c =? 102 then literal (js "alse") (JBool false) r
          else if c =? 110 then literal (js "ull") JNull r
          else parse_number (c :: r)
      end
  end
with parse_elements (fuel : nat) (s : list N) : option (list value * list N) :=
  match fuel with
  | O => None
  | S fuel' =>
      match parse_value fuel' s with
      | Some (v, r) =>
          match skip_ws r with
          | c :: r' =>
              if c =? 44 then prepend v (parse_elements fuel' r')
              else if c =? 93 then Some ([v], r')
              else None
          | [] => None
          end
      | None => None
      end
  end
with parse_members (fuel : nat) (s : list N)
    : option (list (jsstring * value) * list N) :=
  match fuel with
  | O => None
  | S fuel' =>
      match skip_ws s with
      | c :: r =>
          if c =? 34 then
            match parse_units r with
            | Some (k, r1) =>
                match skip_ws r1 with
                | c2 :: r2 =>
                    if c2 =? 58 then
                      match parse_value fuel' r2 with
                      | Some (v, r3) =>
                          match skip_ws r3 with
                          | c3 :: r4 =>
                              if c3 =? 44 then
                                prepend (k, v) (parse_members fuel' r4)
                              else if c3 =? 125 then Some ([(k, v)], r4)
                              else None
                          | [] => None
                          end
                      | None => None
                      end
                    else None
                | [] => None
                end
            | None => None
            end
          else None
      | [] => None
      end
  end.

(** [JSON.parse]: one value, white space around it, nothing else.
    [None] is the [SyntaxError]. *)
Definition parse (s : list N) : option value :=
  match parse_value (S (length s)) s with
  | Some (v, r) => match skip_ws r with [] => Some v | _ :: _ => None end
  | None => None
  end.

(** What may follow a value in a text [stringify] writes: the end, a
    comma, or a closing bracket or brace. *)
Definition closes (r : list N) : Prop :=
  r = [] \/ exists c t, r = c :: t /\ (c = 44 \/ c = 93 \/ c = 125).

End JSON.

(** ** The storage adapter (lines 33-137) *)

(** [interface SerializedDownload] *)
Module SerializedDownload.
Record t := {
  item : option DownloadItem;
  itemId : option jsstring;
  serverId : option jsstring;
  serverUrl : jsstring;
  apiKey : jsstring;
  title : option jsstring;
  filename : jsstring;
  extension : option jsstring;
  downloadUrl : jsstring;
  isComplete : option bool;
  isNew : bool;
  canPlay : option bool;
  status : option DownloadStatus
}.
End SerializedDownload.

Module Storage.
Import JSON.

(** [State], with the [Map] it refers to read out. *)
Record State := { downloads : JSMap.t DownloadModel }.

(** zustand's [StorageValue<State>]: [{ state: State; version?: number }]. *)
Record StorageValue := {
  state : State;
  version : option (Z * Z)
}.

Definition initialState : State := {| downloads := JSMap.empty |}.

Inductive Error := SyntaxError | TypeError.

(** One [console.error] of [deserialize]: the key and the record of the
    entry skipped, as the parser read them. *)
Definition Diagnostic := (value * value)%type.

Inductive outcome :=
| Returns (value : StorageValue) (log : list Diagnostic)
| Throws (e : Error).

(** *** What [JSON.stringify] makes of the typed values *)

Definition optional (k : string) (o : option jsstring) : list (jsstring * value) :=
  match o with
  | Some s => [(js k, JStr s)]
  | None => []
  end.

Definition item_json (i : DownloadItem) : value :=
  JObj ([(js "Id", JStr (Id i)); (js "ServerId", JStr (ServerId i))]
        ++ optional "Name" (Name i)).

(** Modelled from the spec: the own enumerable properties of a
    [DownloadModel] instance, under the names [SerializedDownload] reads
    them by; a property that is [undefined] is left out. *)
Definition model_json (d : DownloadModel) : value :=
  JObj ([(js "item", item_json (item d));
         (js "serverUrl", JStr (serverUrl d));
         (js "apiKey", JStr (apiKey d));
         (js "filename", JStr (filename d));
         (js "downloadUrl", JStr (downloadUrl d));
         (js "status", JStr (DownloadStatus_value (status d)));
         (js "canPlay", JBool (canPlay d))]
        ++ optional "extension" (extension d)
        ++ [(js "isNew", JBool (isNew d))]).

Definition entry_json (e : jsstring * DownloadModel) : value :=
  JArr [JStr (fst e); model_json (snd e)].

Definition version_json (v : option (Z * Z)) : list (jsstring * value) :=
  match v with
  | Some (m, e) => [(js "version", JNum m e)]
  | None => []
  end.

(** [storage.setItem(name, value)]: the text handed to
    [AsyncStorage.setItem] under [name]. *)
Definition setItem (value : StorageValue) : jsstring :=
  let state := state value in
  stringify
    (JObj ((js "state",
            JObj [(js "downloads",
                   JArr (map entry_json (JSMap.entries (downloads state))))])
           :: version_json (version value))).

(** *** Reading the parsed text *)

(** The property [k] of an object read by [JSON.parse]; of two members
    under one name the later one stands. *)
Fixpoint prop (k : jsstring) (ms : list (jsstring * value)) : option value :=
  match ms with
  | [] => None
  | (k', v) :: ms' =>
      match prop k ms' with
      | Some v' => Some v'
      | None => if str_eqb k' k then Some v else None
      end
  end.

(** [target.k] for the two names the code reads off the untyped parse
    result, [state] and [downloads]: a [TypeError] on [undefined] and
    [null], [undefined] ([None]) on anything that is no object. *)
Definition get (target : option value) (k : jsstring) : Error + option value :=
  match target with
  | None | Some JNull => inl TypeError
  | Some (JObj ms) => inr (prop k ms)
  | Some _ => inr None
  end.

(** The types the code declares for what it reads: a value that is not
    of the declared type has no typed reading ([None]). *)

Definition string_prop (k : string) (ms : list (jsstring * value)) : option jsstring :=
  match prop (js k) ms with
  | Some (JStr s) => Some s
  | _ => None
  end.

Definition bool_prop (k : string) (ms : list (jsstring * value)) : option bool :=
  match prop (js k) ms with
  | Some (JBool b) => Some b
  | _ => None
  end.

Definition optional_string_prop (k : string) (ms : list (jsstring * value))
    : option (option jsstring) :=
  match prop (js k) ms with
  | None => Some None
  | Some (JStr s) => Some (Some s)
  | Some _ => None
  end.

Definition optional_bool_prop (k : string) (ms : list (jsstring * value))
    : option (option bool) :=
  match prop (js k) ms with
  | None => Some None
  | Some (JBool b) => Some (Some b)
  | Some _ => None
  end.

Definition DownloadStatus_of (s : jsstring) : option DownloadStatus :=
  if str_eqb s (DownloadStatus_value Queued) then Some Queued
  else if str_eqb s (DownloadStatus_value Downloading) then Some Downloading
  else if str_eqb s (DownloadStatus_value Complete) then Some Complete
  else if str_eqb s (DownloadStatus_value Failed) then Some Failed
  else None.

Definition optional_status_prop (ms : list (jsstring * value))
    : option (option DownloadStatus) :=
  match prop (js "status") ms with
  | None => Some None
  | Some (JStr s) =>
      match DownloadStatus_of s with
      | Some st => Some (Some st)
      | None => None
      end
  | Some _ => None
  end.

Definition as_item (v : value) : option DownloadItem :=
  match v with
  | JObj ms =>
      match string_prop "Id" ms, string_prop "ServerId" ms,
            optional_string_prop "Name" ms with
      | Some i, Some s, Some n => Some {| Id := i; ServerId := s; Name := n |}
      | _, _, _ => None
      end
  | _ => None
  end.

Definition optional_item_prop (ms : list (jsstring * value))
    : option (option DownloadItem) :=
  match prop (js "item") ms with
  | None => Some None
  | Some v =>
      match as_item v with
      | Some i => Some (Some i)
      | None => None
      end
  end.

Definition as_SerializedDownload (v : value) : option SerializedDownload.t :=
  match v with
  | JObj ms =>
      match optional_item_prop ms,
            optional_string_prop "itemId" ms,
            optional_string_prop "serverId" ms,
            string_prop "serverUrl" ms,
            string_prop "apiKey" ms,
            optional_string_prop "title" ms with
      | Some item, Some itemId, Some serverId, Some serverUrl, Some apiKey,
        Some title =>
          match string_prop "filename" ms,
                optional_string_prop "extension" ms,
                string_prop "downloadUrl" ms,
                optional_bool_prop "isComplete" ms,
                bool_prop "isNew" ms,
                optional_bool_prop "canPlay" ms,
                optional_status_prop ms with
          | Some filename, Some extension, Some downloadUrl, Some isComplete,
            Some isNew, Some canPlay, Some status =>
              Some {| SerializedDownload.item := item;
                      SerializedDownload.itemId := itemId;
                      SerializedDownload.serverId := serverId;
                      SerializedDownload.serverUrl := serverUrl;
                      SerializedDownload.apiKey := apiKey;
                      SerializedDownload.title := title;
                      SerializedDownload.filename := filename;
                      SerializedDownload.extension := extension;
                      SerializedDownload.downloadUrl := downloadUrl;
                      SerializedDownload.isComplete := isComplete;
                      SerializedDownload.isNew := isNew;
                      SerializedDownload.canPlay := canPlay;
                      SerializedDownload.status := status |}
          | _, _, _, _, _, _, _ => None
          end
      | _, _, _, _, _, _ => None
      end
  | _ => None
  end.

(** [[ key, obj ]: [ string, SerializedDownload ]]: the entry read at the
    type the callback declares for its parameter, [None] when it is not
    of that type.  This reading says what a file of the declared type
    holds ([contents]); it is no part of [deserialize], which runs
    [callback] on the entry as parsed, of whatever shape. *)
Definition as_entry (v : value) : option (jsstring * SerializedDownload.t) :=
  match v with
  | JArr [JStr key; o] =>
      match as_SerializedDownload o with
      | Some obj => Some (key, obj)
      | None => None
      end
  | _ => None
  end.

Fixpoint as_entries (vs : list value)
    : option (list (jsstring * SerializedDownload.t)) :=
  match vs with
  | [] => Some []
  | v :: vs' =>
      match as_entry v, as_entries vs' with
      | Some e, Some es => Some (e :: es)
      | _, _ => None
      end
  end.

Definition as_version (ms : list (jsstring * value)) : option (option (Z * Z)) :=
  match prop (js "version") ms with
  | None => Some None
  | Some (JNum m e) => Some (Some (m, e))
  | Some _ => None
  end.

(** *** [deserialize] (lines 52-113) *)

Definition truthy_optional_string (o : option jsstring) : bool :=
  match o with Some s => truthy_string s | None => false end.

Definition truthy_optional_bool (o : option bool) : bool :=
  match o with Some b => b | None => false end.

(** [obj.status] as a condition: a string enum member is truthy unless
    its value is empty. *)
Definition truthy_optional_status (o : option DownloadStatus) : bool :=
  match o with
  | Some st => truthy_string (DownloadStatus_value st)
  | None => false
  end.

(** The postfix [!]: the guard of line 63 has checked the value. *)
Definition non_null (o : option jsstring) : jsstring :=
  match o with Some s => s | None => [] end.

(** Line 63: [!obj.item && (!obj.itemId || !obj.serverId)]. *)
Definition invalid (obj : SerializedDownload.t) : bool :=
  negb (match SerializedDownload.item obj with Some _ => true | None => false end)
  && (negb (truthy_optional_string (SerializedDownload.itemId obj))
      || negb (truthy_optional_string (SerializedDownload.serverId obj))).

(** Lines 72-100: the record built from an entry that passed the guard. *)
Definition rehydrate (obj : SerializedDownload.t) : DownloadModel :=
  let item :=
    match SerializedDownload.item obj with
    | Some i => i
    | None => {| Id := non_null (SerializedDownload.itemId obj);
                 ServerId := non_null (SerializedDownload.serverId obj);
                 Name := SerializedDownload.title obj |}
    end in
  let model :=
    new_DownloadModel item
      (SerializedDownload.serverUrl obj) (SerializedDownload.apiKey obj)
      (SerializedDownload.filename obj) (SerializedDownload.downloadUrl obj) in
  let model :=
    if truthy_optional_status (SerializedDownload.status obj) then
      match SerializedDownload.status obj with
      | Some st =>
          if negb (DownloadStatus_eqb st Downloading)
          then set_status st model else model
      | None => model
      end
    else if truthy_optional_bool (SerializedDownload.isComplete obj) then
      set_status Complete model
    else model in
  let model :=
    set_canPlay
      (match SerializedDownload.canPlay obj with Some b => b | None => true end)
      model in
  let model := set_extension (SerializedDownload.extension obj) model in
  let model := set_isNew (SerializedDownload.isNew obj) model in
  model.

(** One turn of the [forEach] callback on an entry of the declared
    type. *)
Definition load_entry
    (acc : JSMap.t DownloadModel * list (jsstring * SerializedDownload.t))
    (e : jsstring * SerializedDownload.t)
    : JSMap.t DownloadModel * list (jsstring * SerializedDownload.t) :=
  let (downloads, log) := acc in
  let (key, obj) := e in
  if invalid obj then (downloads, log ++ [(key, obj)])
  else (JSMap.set key (rehydrate obj) downloads, log).

(** Lines 59-104 on an array of the declared type: the [Map] filled and
    the entries skipped. *)
Definition load_entries (es : list (jsstring * SerializedDownload.t))
    : JSMap.t DownloadModel * list (jsstring * SerializedDownload.t) :=
  fold_left load_entry es (JSMap.empty, []).

(** **** The loop on whatever the parser read

    [JSON.parse] returns [any]: the callback meets what the file holds,
    of the declared type or not.  Here the callback runs on the values as
    parsed, and the record it builds keeps them as they are. *)

(** The Number read from the decimal [m * 10^e] is a zero: the decimal
    is zero or is no further from it than half the least binary64
    magnitude, [2^-1075], from where rounding gives zero. *)
Definition reads_zero (m e : Z) : bool :=
  (m =? 0)%Z || ((e <? 0)%Z && (Z.abs m * 2 ^ 1075 <=? 10 ^ (- e))%Z).

(** A value as a condition; [None] is [undefined]. *)
Definition truthy (o : option value) : bool :=
  match o with
  | None | Some JNull | Some (JBool false) => false
  | Some (JBool true) => true
  | Some (JNum m e) => negb (reads_zero m e)
  | Some (JStr s) => truthy_string s
  | Some (JArr _) | Some (JObj _) => true
  end.

(** [obj.k] where [obj] is neither [undefined] nor [null], for the names
    [SerializedDownload] declares: [undefined] on anything that is no
    object. *)
Definition member (obj : value) (k : string) : option value :=
  match obj with
  | JObj ms => prop (js k) ms
  | _ => None
  end.

(** Line 63 on a record that is not [null]:
    [!obj.item && (!obj.itemId || !obj.serverId)]. *)
Definition lacks_identity (obj : value) : bool :=
  negb (truthy (member obj "item"))
  && (negb (truthy (member obj "itemId"))
      || negb (truthy (member obj "serverId"))).

(** [item]: what [obj.item] held, or the object built at lines 73-79. *)
Inductive RawItem :=
| Given (item : value)
| Built (Id ServerId Name : option value).

(** A [DownloadModel] whose fields hold what the file held. *)
Record RawModel := {
  raw_item : RawItem;
  raw_serverUrl : option value;
  raw_apiKey : option value;
  raw_filename : option value;
  raw_downloadUrl : option value;
  raw_status : value;
  raw_canPlay : bool;
  raw_extension : option value;
  raw_isNew : option value
}.

(** A member of the enum, as the string it is. *)
Definition status_value (st : DownloadStatus) : value :=
  JStr (DownloadStatus_value st).

(** [v === DownloadStatus.Downloading] *)
Definition is_Downloading (v : value) : bool :=
  match v with
  | JStr s => str_eqb s (DownloadStatus_value Downloading)
  | _ => false
  end.

(** Lines 72-100 on a record that passed the guard.  The constructor is
    the one of [new_DownloadModel]: it keeps its arguments and starts the
    record [Queued]. *)
Definition build (obj : value) : RawModel :=
  let built :=
    Built (member obj "itemId") (member obj "serverId") (member obj "title") in
  let item :=
    match member obj "item" with
    | Some i => if truthy (Some i) then Given i else built
    | None => built
    end in
  let status := status_value Queued in
  let legacy :=
    if truthy (member obj "isComplete") then status_value Complete
    else status in
  let status :=
    match member obj "status" with
    | Some st =>
        if truthy (Some st) then
          if negb (is_Downloading st) then st else status
        else legacy
    | None => legacy
    end in
  let canPlay :=
    match member obj "canPlay" with
    | Some (JBool b) => b
    | _ => true
    end in
  {| raw_item := item;
     raw_serverUrl := member obj "serverUrl";
     raw_apiKey := member obj "apiKey";
     raw_filename := member obj "filename";
     raw_downloadUrl := member obj "downloadUrl";
     raw_status := status;
     raw_canPlay := canPlay;
     raw_extension := member obj "extension";
     raw_isNew := member obj "isNew" |}.

(** Iterating a string yields its code points. *)
Fixpoint code_points (s : jsstring) : list jsstring :=
  match s with
  | [] => []
  | c :: s' =>
      if is_lead c then
        match s' with
        | d :: s'' =>
            if is_trail d then [c; d] :: code_points s''
            else [c] :: code_points s'
        | [] => [[c]]
        end
      else [c] :: code_points s'
  end.

(** The parameter [[ key, obj ]] bound to an element: its first two
    items when it is an array or a string, with [None] for an [obj] that
    is [undefined]; a [TypeError] when it cannot be iterated. *)
Definition destructure (entry : value) : Error + option (value * value) :=
  match entry with
  | JArr (key :: obj :: _) => inr (Some (key, obj))
  | JArr _ => inr None
  | JStr s =>
      match code_points s with
      | key :: obj :: _ => inr (Some (JStr key, JStr obj))
      | _ => inr None
      end
  | _ => inl TypeError
  end.

(** What one call of the callback does. *)
Inductive turn :=
| Throw (e : Error)
| Skip (d : Diagnostic)
| Load (key : jsstring) (model : RawModel).

(** Lines 62-102.  Reading [obj.item] throws when [obj] is [undefined]
    or [null].  [None]: the entry would be stored under a key that is no
    string, which a [Map<string, DownloadModel>] has no place for. *)
Definition callback (entry : value) : option turn :=
  match destructure entry with
  | inl e => Some (Throw e)
  | inr None => Some (Throw TypeError)
  | inr (Some (_, JNull)) => Some (Throw TypeError)
  | inr (Some (key, obj)) =>
      if lacks_identity obj then Some (Skip (key, obj))
      else
        match key with
        | JStr key => Some (Load key (build obj))
        | _ => None
        end
  end.

(** [array.forEach(callback)] on the [Map] being filled. *)
Fixpoint forEach (entries : list value)
    (downloads : JSMap.t RawModel) (log : list Diagnostic)
    : option (Error + JSMap.t RawModel * list Diagnostic) :=
  match entries with
  | [] => Some (inr (downloads, log))
  | entry :: rest =>
      match callback entry with
      | Some (Throw e) => Some (inl e)
      | Some (Skip d) => forEach rest downloads (log ++ [d])
      | Some (Load key model) =>
          forEach rest (JSMap.set key model downloads) log
      | None => None
      end
  end.

(** What a call of [deserialize] ends in, before any typing: the [Map],
    [value.version] and the diagnostics, or an exception. *)
Inductive result :=
| Loaded (downloads : JSMap.t RawModel) (version : option value)
         (log : list Diagnostic)
| Thrown (e : Error).

(** Lines 58-112 on the parsed value. *)
Definition deserialize_value (value : JSON.value) : option result :=
  match get (Some value) (js "state") with
  | inl e => Some (Thrown e)
  | inr value_state =>
      match get value_state (js "downloads") with
      | inl e => Some (Thrown e)
      | inr value_state_downloads =>
          let filled :=
            match value_state_downloads with
            | Some (JArr entries) => forEach entries JSMap.empty []
            | _ => Some (inr (JSMap.empty, []))
            end in
          match filled with
          | Some (inl e) => Some (Thrown e)
          | Some (inr (downloads, log)) =>
              Some (Loaded downloads (member value "version") log)
          | None => None
          end
      end
  end.

(** [deserialize] on any input. *)
Definition deserialize_raw (valueString : option jsstring) : option result :=
  match valueString with
  | None => Some (Loaded JSMap.empty None [])
  | Some s =>
      if negb (truthy_string s) then Some (Loaded JSMap.empty None [])
      else
        match parse s with
        | None => Some (Thrown SyntaxError)
        | Some value => deserialize_value value
        end
  end.

(** **** The result at the declared types *)

Definition as_string (o : option value) : option jsstring :=
  match o with
  | Some (JStr s) => Some s
  | _ => None
  end.

Definition as_optional_string (o : option value) : option (option jsstring) :=
  match o with
  | None => Some None
  | Some (JStr s) => Some (Some s)
  | Some _ => None
  end.

Definition typed_item (i : RawItem) : option DownloadItem :=
  match i with
  | Given v => as_item v
  | Built i s n =>
      match as_string i, as_string s, as_optional_string n with
      | Some i, Some s, Some n => Some {| Id := i; ServerId := s; Name := n |}
      | _, _, _ => None
      end
  end.

Definition typed_status (v : value) : option DownloadStatus :=
  match v with
  | JStr s => DownloadStatus_of s
  | _ => None
  end.

Definition typed_bool (o : option value) : option bool :=
  match o with
  | Some (JBool b) => Some b
  | _ => None
  end.

(** The record as a [DownloadModel], when its fields are of the types
    the class declares. *)
Definition typed_model (r : RawModel) : option DownloadModel :=
  match typed_item (raw_item r), as_string (raw_serverUrl r),
        as_string (raw_apiKey r), as_string (raw_filename r),
        as_string (raw_downloadUrl r) with
  | Some item, Some serverUrl, Some apiKey, Some filename, Some downloadUrl =>
      match typed_status (raw_status r),
            as_optional_string (raw_extension r),
            typed_bool (raw_isNew r) with
      | Some status, Some extension, Some isNew =>
          Some {| item := item; serverUrl := serverUrl; apiKey := apiKey;
                  filename := filename; downloadUrl := downloadUrl;
                  status := status; canPlay := raw_canPlay r;
                  extension := extension; isNew := isNew |}
      | _, _, _ => None
      end
  | _, _, _, _, _ => None
  end.

Fixpoint typed_map (m : JSMap.t RawModel) : option (JSMap.t DownloadModel) :=
  match m with
  | [] => Some []
  | (k, r) :: m' =>
      match typed_model r, typed_map m' with
      | Some d, Some t => Some ((k, d) :: t)
      | _, _ => None
      end
  end.

Definition typed_version (o : option value) : option (option (Z * Z)) :=
  match o with
  | None => Some None
  | Some (JNum m e) => Some (Some (m, e))
  | Some _ => None
  end.

(** The outcome as a [StorageValue<State>]; [None] when a record or the
    version is not of the declared type. *)
Definition typed (r : result) : option outcome :=
  match r with
  | Thrown e => Some (Throws e)
  | Loaded m version log =>
      match typed_map m, typed_version version with
      | Some downloads, Some v =>
          Some (Returns {| state := {| downloads := downloads |};
                           version := v |} log)
      | _, _ => None
      end
  end.

(** [deserialize], with what it returns read as the
    [StorageValue<State>] it is declared to be. *)
Definition deserialize (valueString : option jsstring) : option outcome :=
  match deserialize_raw valueString with
  | Some r => typed r
  | None => None
  end.

(** [storage.getItem(name)], given what [AsyncStorage.getItem] found. *)
Definition getItem (data : option jsstring) : option outcome :=
  deserialize data.

(** *** Stored texts, for the statements below *)

(** What a stored text holds when it is read with the declared types:
    the entries of [state.downloads] and the version. *)
Definition contents (s : jsstring)
    : option (list (jsstring * SerializedDownload.t) * option (Z * Z)) :=
  if negb (truthy_string s) then None
  else
    match parse s with
    | Some (JObj ms) =>
        match prop (js "state") ms with
        | Some (JObj st) =>
            match prop (js "downloads") st with
            | Some (JArr vs) =>
                match as_entries vs, as_version ms with
                | Some es, Some v => Some (es, v)
                | _, _ => None
                end
            | _ => None
            end
        | _ => None
        end
    | _ => None
    end.

(** What a stored text holds before any typing: the elements of the array
    [state.downloads] and [value.version]. *)
Definition stored (s : jsstring) : option (list value * option value) :=
  if negb (truthy_string s) then None
  else
    match parse s with
    | Some value =>
        match get (Some value) (js "state") with
        | inr value_state =>
            match get value_state (js "downloads") with
            | inr (Some (JArr entries)) =>
                Some (entries, member value "version")
            | _ => None
            end
        | inl _ => None
        end
    | None => None
    end.

(** The entry is a pair whose record is not [null]; where the record
    passes the guard of line 63, the key is a string. *)
Definition decodes (entry : value) : Prop :=
  exists key obj,
    destructure entry = inr (Some (key, obj)) /\ obj <> JNull /\
    (lacks_identity obj = false -> exists k, key = JStr k).

(** The key and record of an entry whose record fails the guard of
    line 63. *)
Definition lacking (entry : value) : list Diagnostic :=
  match destructure entry with
  | inr (Some (key, obj)) => if lacks_identity obj then [(key, obj)] else []
  | _ => []
  end.

(** The keys and records of the entries the callback loads, in order. *)
Fixpoint loaded (entries : list value) : list (jsstring * RawModel) :=
  match entries with
  | [] => []
  | entry :: rest =>
      match callback entry with
      | Some (Load key model) => (key, model) :: loaded rest
      | _ => loaded rest
      end
  end.

(** The entry [setItem] writes for a record, as it is read back. *)
Definition written (d : DownloadModel) : SerializedDownload.t :=
  {| SerializedDownload.item := Some (item d);
     SerializedDownload.itemId := None;
     SerializedDownload.serverId := None;
     SerializedDownload.serverUrl := serverUrl d;
     SerializedDownload.apiKey := apiKey d;
     SerializedDownload.title := None;
     SerializedDownload.filename := filename d;
     SerializedDownload.extension := extension d;
     SerializedDownload.downloadUrl := downloadUrl d;
     SerializedDownload.isComplete := None;
     SerializedDownload.isNew := isNew d;
     SerializedDownload.canPlay := Some (canPlay d);
     SerializedDownload.status := Some (status d) |}.

(** A record after a restart: a transfer that was in flight is queued
    again. *)
Definition reloaded (d : DownloadModel) : DownloadModel :=
  if DownloadStatus_eqb (status d) Downloading then set_status Queued d
  else d.

End Storage.

(** ** Sample data *)

Module Sample.

Definition movie : DownloadItem :=
  {| Id := js "item1"; ServerId := js "srv"; Name := Some (js "Movie") |}.

Definition song : DownloadItem :=
  {| Id := js "item2"; ServerId := js "srv"; Name := None |}.

Definition d1 : DownloadModel :=
  new_DownloadModel movie (js "https://srv") (js "token") (js "movie.mp4")
    (js "https://srv/Items/item1/Download").

(** The same key as [d1], other content. *)
Definition d1' : DownloadModel := set_status Complete d1.

Definition d2 : DownloadModel :=
  set_extension (Some (js "mp3"))
    (new_DownloadModel song (js "https://srv") (js "token") (js "song")
       (js "https://srv/Items/item2/Download")).

(** A transfer in flight. *)
Definition d3 : DownloadModel := set_status Downloading d2.

(** A store holding [d1]. *)
Definition w1 : Store.World :=
  {| Store.heap := [[(key d1, d1)]];
     Store.state := {| Store.downloads := 0%nat |};
     Store.trace := [] |}.


(** A store holding [d1], then [d2]. *)
Definition w2 : Store.World :=
  {| Store.heap := [[(key d1, d1); (key d2, d2)]];
     Store.state := {| Store.downloads := 0%nat |};
     Store.trace := [] |}.

(** A store state with a finished record and a transfer in flight. *)
Definition in_flight : Storage.StorageValue :=
  {| Storage.state :=
       {| Storage.downloads := [(key d1', d1'); (key d3, d3)] |};
     Storage.version := Some (0, 0)%Z |}.

(** The same with nothing in flight. *)
Definition at_rest : Storage.StorageValue :=
  {| Storage.state :=
       {| Storage.downloads := [(key d1', d1'); (key d2, d2)] |};
     Storage.version := Some (0, 0)%Z |}.

(** A file of the older layout: an entry persisted while downloading, an
    entry with neither [item] nor [itemId]/[serverId], and a completed
    entry of the time before [status] that is flagged unplayable. *)
Definition legacy_entries : list (jsstring * SerializedDownload.t) :=
  [ (js "srv_item1",
     {| SerializedDownload.item := None;
        SerializedDownload.itemId := Some (js "item1");
        SerializedDownload.serverId := Some (js "srv");
        SerializedDownload.serverUrl := js "https://srv";
        SerializedDownload.apiKey := js "token";
        SerializedDownload.title := Some (js "Movie");
        SerializedDownload.filename := js "movie.mp4";
        SerializedDownload.extension := None;
        SerializedDownload.downloadUrl := js "https://srv/Items/item1/Download";
        SerializedDownload.isComplete := None;
        SerializedDownload.isNew := true;
        SerializedDownload.canPlay := None;
        SerializedDownload.status := Some Downloading |});
    (js "broken",
     {| SerializedDownload.item := None;
        SerializedDownload.itemId := None;
        SerializedDownload.serverId := Some (js "srv");
        SerializedDownload.serverUrl := js "https://srv";
        SerializedDownload.apiKey := js "token";
        SerializedDownload.title := None;
        SerializedDownload.filename := js "lost";
        SerializedDownload.extension := None;
        SerializedDownload.downloadUrl := js "https://srv/Items/lost/Download";
        SerializedDownload.isComplete := None;
        SerializedDownload.isNew := false;
        SerializedDownload.canPlay := None;
        SerializedDownload.status := None |});
    (js "srv_item2",
     {| SerializedDownload.item := None;
        SerializedDownload.itemId := Some (js "item2");
        SerializedDownload.serverId := Some (js "srv");
        SerializedDownload.serverUrl := js "https://srv";
        SerializedDownload.apiKey := js "token";
        SerializedDownload.title := None;
        SerializedDownload.filename := js "song";
        SerializedDownload.extension := Some (js "mp3");
        SerializedDownload.downloadUrl := js "https://srv/Items/item2/Download";
        SerializedDownload.isComplete := Some true;
        SerializedDownload.isNew := false;
        SerializedDownload.canPlay := Some false;
        SerializedDownload.status := None |}) ].

Definition legacy_json : JSON.value :=
  JSON.JObj
    [ (js "state",
       JSON.JObj
         [ (js "downloads",
            JSON.JArr
              [ JSON.JArr
                  [ JSON.JStr (js "srv_item1");
                    JSON.JObj
                      [ (js "itemId", JSON.JStr (js "item1"));
                        (js "serverId", JSON.JStr (js "srv"));
                        (js "serverUrl", JSON.JStr (js "https://srv"));
                        (js "apiKey", JSON.JStr (js "token"));
                        (js "title", JSON.JStr (js "Movie"));
                        (js "filename", JSON.JStr (js "movie.mp4"));
                        (js "downloadUrl",
                         JSON.JStr (js "https://srv/Items/item1/Download"));
                        (js "isNew", JSON.JBool true);
                        (js "status", JSON.JStr (js "Downloading")) ] ];
                JSON.JArr
                  [ JSON.JStr (js "broken");
                    JSON.JObj
                      [ (js "serverId", JSON.JStr (js "srv"));
                        (js "serverUrl", JSON.JStr (js "https://srv"));
                        (js "apiKey", JSON.JStr (js "token"));
                        (js "filename", JSON.JStr (js "lost"));
                        (js "downloadUrl",
                         JSON.JStr (js "https://srv/Items/lost/Download"));
                        (js "isNew", JSON.JBool false) ] ];
                JSON.JArr
                  [ JSON.JStr (js "srv_item2");
                    JSON.JObj
                      [ (js "itemId", JSON.JStr (js "item2"));
                        (js "serverId", JSON.JStr (js "srv"));
                        (js "serverUrl", JSON.JStr (js "https://srv"));
                        (js "apiKey", JSON.JStr (js "token"));
                        (js "filename", JSON.JStr (js "song"));
                        (js "extension", JSON.JStr (js "mp3"));
                        (js "downloadUrl",
                         JSON.JStr (js "https://srv/Items/item2/Download"));
                        (js "isComplete", JSON.JBool true);
                        (js "isNew", JSON.JBool false);
                        (js "canPlay", JSON.JBool false) ] ] ]) ]);
      (js "version", JSON.JNum 0 0) ].

(** The text of that file. *)
Definition legacy_file : jsstring := JSON.stringify legacy_json.



(** A file written by [setItem] in which the record of one entry is
    [null]. *)
Definition null_record_entries : list JSON.value :=
  [ Storage.entry_json (key d1, d1);
    JSON.JArr [ JSON.JStr (js "broken"); JSON.JNull ];
    Storage.entry_json (key d2, d2) ].

Definition null_record_file : jsstring :=
  JSON.stringify
    (JSON.JObj
       [ (js "state",
          JSON.JObj [ (js "downloads", JSON.JArr null_record_entries) ]);
         (js "version", JSON.JNum 0 0) ]).

(** A file in which [downloads] is an object, as [JSON.stringify] writes a
    [Map] that was not flattened first. *)
Definition unflattened_file : jsstring :=
  JSON.stringify
    (JSON.JObj
       [ (js "state", JSON.JObj [ (js "downloads", JSON.JObj []) ]);
         (js "version", JSON.JNum 0 0) ]).

End Sample.

(** * Properties *)

(** ** Strings and maps *)

Lemma str_eqb_eq (a b : jsstring) : str_eqb a b = true <-> a = b.
Proof.
  revert b; induction a as [|x a IH]; intros [|y b]; simpl; split;
    try congruence; try reflexivity.
  - intros H. apply andb_true_iff in H as [Hx Hab].
    apply N.eqb_eq in Hx. apply IH in Hab. congruence.
  - intros H. injection H as -> ->. rewrite N.eqb_refl. simpl. now apply IH.
Qed.

Lemma str_eqb_refl (a : jsstring) : str_eqb a a = true.
Proof. now apply str_eqb_eq. Qed.

Lemma str_eqb_neq (a b : jsstring) : str_eqb a b = false <-> a <> b.
Proof.
  rewrite <- str_eqb_eq. destruct (str_eqb a b); split; congruence.
Qed.

Module JSMapFacts.
Section Facts.
Context {V : Type}.
Implicit Types (m : JSMap.t V) (k : jsstring) (v : V).

Lemma has_In k m : JSMap.has k m = true <-> In k (JSMap.keys m).
Proof.
  induction m as [|[k' v'] m IH]; simpl.
  - split; [discriminate | tauto].
  - destruct (str_eqb k' k) eqn:E.
    + apply str_eqb_eq in E. tauto.
    + apply str_eqb_neq in E. rewrite IH. tauto.
Qed.

Lemma has_false_In k m : JSMap.has k m = false <-> ~ In k (JSMap.keys m).
Proof.
  rewrite <- has_In. destruct (JSMap.has k m); split; congruence.
Qed.

Lemma has_get k m : JSMap.has k m = true <-> exists v, JSMap.get k m = Some v.
Proof.
  induction m as [|[k' v'] m IH]; simpl.
  - split; [discriminate | intros [? ?]; discriminate].
  - destruct (str_eqb k' k); [|exact IH]. split; eauto.
Qed.

Lemma set_absent k v m : JSMap.has k m = false -> JSMap.set k v m = m ++ [(k, v)].
Proof.
  induction m as [|[k' v'] m IH]; simpl; [reflexivity|].
  destruct (str_eqb k' k); [discriminate|]. intros H. now rewrite IH.
Qed.

Lemma keys_set_present k v m :
  JSMap.has k m = true -> JSMap.keys (JSMap.set k v m) = JSMap.keys m.
Proof.
  induction m as [|[k' v'] m IH]; simpl; [discriminate|].
  destruct (str_eqb k' k); simpl; [reflexivity|]. intros H. now rewrite IH.
Qed.

Lemma has_app k m1 m2 :
  JSMap.has k (m1 ++ m2) = JSMap.has k m1 || JSMap.has k m2.
Proof.
  induction m1 as [|[k' v'] m1 IH]; simpl; [reflexivity|].
  now destruct (str_eqb k' k).
Qed.

Lemma get_set_same k v m : JSMap.get k (JSMap.set k v m) = Some v.
Proof.
  induction m as [|[k' v'] m IH]; simpl.
  - now rewrite str_eqb_refl.
  - destruct (str_eqb k' k) eqn:E; simpl; now rewrite E.
Qed.

Lemma get_set_other k k' v m :
  k' <> k -> JSMap.get k' (JSMap.set k v m) = JSMap.get k' m.
Proof.
  intros Hne. induction m as [|[k0 v0] m IH]; simpl.
  - assert (str_eqb k k' = false) as -> by (apply str_eqb_neq; congruence).
    reflexivity.
  - destruct (str_eqb k0 k) eqn:E; simpl.
    + apply str_eqb_eq in E. subst k0.
      assert (str_eqb k k' = false) as -> by (apply str_eqb_neq; congruence).
      reflexivity.
    + now rewrite IH.
Qed.

Lemma has_set k k' v m :
  JSMap.has k' (JSMap.set k v m) = str_eqb k k' || JSMap.has k' m.
Proof.
  induction m as [|[k0 v0] m IH]; simpl.
  - now destruct (str_eqb k k').
  - destruct (str_eqb k0 k) eqn:E; simpl.
    + apply str_eqb_eq in E. subst k0. now destruct (str_eqb k k').
    + rewrite IH. destruct (str_eqb k0 k'), (str_eqb k k'); reflexivity.
Qed.

Lemma wf_set k v m : JSMap.wf m -> JSMap.wf (JSMap.set k v m).
Proof.
  unfold JSMap.wf. intros Hwf. destruct (JSMap.has k m) eqn:E.
  - now rewrite keys_set_present.
  - rewrite set_absent by assumption. unfold JSMap.keys.
    rewrite map_app. simpl. apply NoDup_app. repeat split.
    + exact Hwf.
    + intros x Hx Hin. apply list_elem_of_In in Hin. simpl in Hin.
      destruct Hin as [<-|[]]. apply has_false_In in E. apply E.
      now apply list_elem_of_In.
    + apply NoDup_singleton.
Qed.

Lemma wf_empty : JSMap.wf (@JSMap.empty V).
Proof. apply NoDup_nil_2. Qed.

Lemma fold_set_wf (es : list (jsstring * V)) m :
  JSMap.wf m ->
  JSMap.wf (fold_left (fun m e => JSMap.set (fst e) (snd e) m) es m).
Proof.
  revert m; induction es as [|[k v] es IH]; intros m Hm; simpl; [exact Hm|].
  apply IH. now apply wf_set.
Qed.

Lemma wf_of_entries (es : list (jsstring * V)) : JSMap.wf (JSMap.of_entries es).
Proof. apply fold_set_wf, wf_empty. Qed.

Lemma fold_set_append (es : list (jsstring * V)) m :
  JSMap.wf (m ++ es) ->
  fold_left (fun m e => JSMap.set (fst e) (snd e) m) es m = m ++ es.
Proof.
  revert m; induction es as [|[k v] es IH]; intros m Hwf; simpl.
  - now rewrite app_nil_r.
  - assert (JSMap.has k m = false) as Habs.
    { apply has_false_In. intros Hin. unfold JSMap.wf, JSMap.keys in Hwf.
      rewrite map_app in Hwf. apply NoDup_app in Hwf as (_ & Hdisj & _).
      apply (Hdisj k); [now apply list_elem_of_In|]. simpl. left. }
    rewrite set_absent by exact Habs.
    rewrite IH; rewrite <- app_assoc; simpl; [reflexivity | exact Hwf].
Qed.

(** Copying a [Map] gives an equal [Map]. *)
Lemma of_entries_entries m :
  JSMap.wf m -> JSMap.of_entries (JSMap.entries m) = m.
Proof.
  intros Hwf. unfold JSMap.of_entries, JSMap.entries.
  now rewrite fold_set_append.
Qed.

Lemma delete_absent k m :
  JSMap.has k m = false -> JSMap.delete k m = (false, m).
Proof.
  induction m as [|[k' v'] m IH]; simpl; [reflexivity|].
  destruct (str_eqb k' k); [discriminate|]. intros H. now rewrite IH.
Qed.

Lemma delete_present k m :
  JSMap.has k m = true -> fst (JSMap.delete k m) = true.
Proof.
  induction m as [|[k' v'] m IH]; simpl; [discriminate|].
  destruct (str_eqb k' k); [reflexivity|]. intros H.
  specialize (IH H). now destruct (JSMap.delete k m).
Qed.

Lemma In_keys_delete k k' m :
  In k' (JSMap.keys (snd (JSMap.delete k m))) -> In k' (JSMap.keys m).
Proof.
  induction m as [|[k0 v0] m IH]; simpl; [tauto|].
  destruct (str_eqb k0 k).
  - simpl. tauto.
  - destruct (JSMap.delete k m) as [b r]. simpl in *. tauto.
Qed.

Lemma wf_delete k m : JSMap.wf m -> JSMap.wf (snd (JSMap.delete k m)).
Proof.
  unfold JSMap.wf. induction m as [|[k0 v0] m IH]; simpl; [trivial|].
  intros Hwf. apply NoDup_cons in Hwf as [Hni Hwf].
  destruct (str_eqb k0 k); simpl; [exact Hwf|].
  specialize (IH Hwf). pose proof (In_keys_delete k k0 m) as Hin.
  destruct (JSMap.delete k m) as [b r]. simpl in *.
  apply NoDup_cons. split; [|exact IH].
  intros Hk. apply Hni. apply list_elem_of_In. apply Hin.
  now apply list_elem_of_In.
Qed.

Lemma has_delete k m :
  JSMap.wf m -> JSMap.has k (snd (JSMap.delete k m)) = false.
Proof.
  unfold JSMap.wf. induction m as [|[k0 v0] m IH]; simpl; [reflexivity|].
  intros Hwf. apply NoDup_cons in Hwf as [Hni Hwf].
  destruct (str_eqb k0 k) eqn:E; simpl.
  - apply str_eqb_eq in E. subst k0. apply has_false_In.
    intros Hin. apply Hni. now apply list_elem_of_In.
  - specialize (IH Hwf). destruct (JSMap.delete k m) as [b r].
    simpl in *. now rewrite E.
Qed.

Lemma count_le_1 k m : JSMap.wf m -> (JSMap.count k m <= 1)%nat.
Proof.
  unfold JSMap.wf, JSMap.count.
  induction m as [|[k0 v0] m IH]; simpl; [lia|].
  intros Hwf. apply NoDup_cons in Hwf as [Hni Hwf]. specialize (IH Hwf).
  destruct (str_eqb k0 k) eqn:E; [|exact IH].
  apply str_eqb_eq in E. subst k0. simpl.
  assert (JSMap.has k m = false) as Habs.
  { apply has_false_In. intros Hin. apply Hni. now apply list_elem_of_In. }
  clear - Habs. induction m as [|[k1 v1] m IH]; simpl in *; [lia|].
  destruct (str_eqb k1 k); [discriminate|]. now apply IH.
Qed.
End Facts.
End JSMapFacts.

(** ** The store's actions, run *)

Module StoreFacts.
Import Store.

Implicit Types (h : list (JSMap.t DownloadModel)) (m : JSMap.t DownloadModel).

Lemma lookup_alloc h m : (h ++ [m]) !! length h = Some m.
Proof. rewrite lookup_app_r by lia. now rewrite Nat.sub_diag. Qed.

Lemma insert_alloc h m m' : <[length h := m']> (h ++ [m]) = h ++ [m'].
Proof.
  rewrite insert_app_r_alt by lia. now rewrite Nat.sub_diag.
Qed.

Lemma lookup_old h m (l : loc) x : h !! l = Some x -> (h ++ [m]) !! l = Some x.
Proof. intros H. now apply lookup_app_l_Some. Qed.

Ltac run :=
  unfold add, delete, update, reset, Map_copy, Map_new, Map_has, Map_set,
    Map_delete, _set, _set_with, _get, bind, ret, deref, alloc, store, merge;
  simpl.

Lemma add_present w d m :
  current w = Some m -> JSMap.has (key d) m = true ->
  add d w = Some (Undefined, w).
Proof.
  unfold current. intros Hcur Hhas. run. rewrite Hcur. simpl.
  now rewrite Hhas.
Qed.

Lemma add_absent w d m :
  current w = Some m -> JSMap.has (key d) m = false ->
  add d w =
  Some (Undefined,
        {| heap := heap w ++
                   [JSMap.set (key d) d (JSMap.of_entries (JSMap.entries m))];
           state := {| downloads := length (heap w) |};
           trace := trace w ++ [Commit {| downloads := length (heap w) |}] |}).
Proof.
  unfold current. intros Hcur Hhas. run. rewrite Hcur. simpl.
  rewrite Hhas. simpl. rewrite Hcur. simpl.
  rewrite lookup_alloc. simpl. rewrite lookup_alloc. simpl.
  now rewrite insert_alloc.
Qed.

Lemma delete_run w d m :
  current w = Some m ->
  let r := JSMap.delete (key d) (JSMap.of_entries (JSMap.entries m)) in
  delete d w =
  Some (Boolean (fst r),
        {| heap := heap w ++ [snd r];
           state := if fst r then {| downloads := length (heap w) |}
                    else state w;
           trace := if fst r
                    then trace w ++ [Commit {| downloads := length (heap w) |}]
                    else trace w |}).
Proof.
  intros Hcur. unfold current in Hcur. cbv zeta. run. rewrite Hcur. simpl.
  rewrite lookup_alloc.
  destruct (JSMap.delete (key d) (JSMap.of_entries (JSMap.entries m)))
    as [b m'] eqn:E.
  simpl. rewrite lookup_alloc. simpl. rewrite insert_alloc.
  now destruct b.
Qed.

Lemma update_run w d m :
  current w = Some m ->
  update d w =
  Some (Undefined,
        {| heap := heap w ++
                   [JSMap.set (key d) d (JSMap.of_entries (JSMap.entries m))];
           state := {| downloads := length (heap w) |};
           trace := trace w ++ [Commit {| downloads := length (heap w) |}] |}).
Proof.
  unfold current. intros Hcur. run. rewrite Hcur. simpl.
  rewrite lookup_alloc. simpl. rewrite lookup_alloc. simpl.
  now rewrite insert_alloc.
Qed.

Lemma reset_run w :
  reset w =
  Some (Undefined,
        {| heap := heap w ++ [JSMap.empty];
           state := {| downloads := length (heap w) |};
           trace := trace w ++ [Commit {| downloads := length (heap w) |}] |}).
Proof. reflexivity. Qed.

Lemma registry_add w d m :
  registry w m ->
  exists w' m', add d w = Some (Undefined, w') /\ registry w' m'.
Proof.
  intros [Hcur Hwf]. destruct (JSMap.has (key d) m) eqn:E.
  - exists w, m. split; [now apply (add_present w d m)|now split].
  - eexists _, _. split; [now apply (add_absent w d m)|].
    split; [unfold current; simpl; apply lookup_alloc|].
    apply JSMapFacts.wf_set, JSMapFacts.wf_of_entries.
Qed.

Lemma registry_add_all ds : forall w m,
  registry w m ->
  exists w' m', add_all ds w = Some (tt, w') /\ registry w' m'.
Proof.
  induction ds as [|d ds IH]; intros w m Hreg; simpl.
  - now exists w, m.
  - destruct (registry_add w d m Hreg) as (w1 & m1 & Hadd & Hreg1).
    destruct (IH w1 m1 Hreg1) as (w2 & m2 & Hall & Hreg2).
    exists w2, m2. split; [|exact Hreg2].
    unfold bind. now rewrite Hadd.
Qed.

Lemma registry_w1 : registry Sample.w1 [(key Sample.d1, Sample.d1)].
Proof.
  split; [reflexivity|]. unfold JSMap.wf. simpl.
  apply NoDup_singleton.
Qed.

Lemma registry_initial : registry initial JSMap.empty.
Proof. split; [reflexivity|]. apply JSMapFacts.wf_empty. Qed.
End StoreFacts.

(** ** The registry's operations *)

(** C1. Key uniqueness: from any registry state, after any sequence of
    [add] calls the collection holds at most one record per key; and an
    [add] whose key is present changes nothing: the world it returns is
    the world it was given, so the collection, its size and the record
    under the key are what they were. *)
Theorem add_key_unique (w : Store.World) (m : JSMap.t DownloadModel) :
  Store.registry w m ->
  (forall ds, exists w' m',
      Store.add_all ds w = Some (tt, w') /\ Store.registry w' m' /\
      forall k, (JSMap.count k m' <= 1)%nat) /\
  (forall d, JSMap.has (key d) m = true ->
      exists w', Store.add d w = Some (Store.Undefined, w') /\
                 Store.current w' = Some m /\ w' = w).
Proof.
  intros Hreg. split.
  - intros ds.
    destruct (StoreFacts.registry_add_all ds w m Hreg) as (w' & m' & Hrun & Hreg').
    exists w', m'. repeat split; try assumption; try apply Hreg'.
    intros k. apply JSMapFacts.count_le_1, Hreg'.
  - intros d Hhas. exists w. destruct Hreg as [Hcur Hwf].
    split; [now apply (StoreFacts.add_present w d m)|now split].
Qed.

Lemma add_key_unique_witness :
  Store.registry Sample.w1 [(key Sample.d1, Sample.d1)] /\
  ((forall ds, exists w' m',
      Store.add_all ds Sample.w1 = Some (tt, w') /\ Store.registry w' m' /\
      forall k, (JSMap.count k m' <= 1)%nat) /\
   (forall d, JSMap.has (key d) [(key Sample.d1, Sample.d1)] = true ->
      exists w', Store.add d Sample.w1 = Some (Store.Undefined, w') /\
                 Store.current w' = Some [(key Sample.d1, Sample.d1)] /\
                 w' = Sample.w1)).
Proof.
  split; [exact StoreFacts.registry_w1|].
  exact (add_key_unique Sample.w1 _ StoreFacts.registry_w1).
Defined.

(** C5, as the code has it: [add] is declared [=> void] and evaluates to
    [undefined] whether or not it inserted; it inserts the record at the
    end of the collection when the key is absent and changes nothing when
    the key is present. *)
Theorem add_returns_undefined (w : Store.World) (m : JSMap.t DownloadModel)
    (d : DownloadModel) :
  Store.registry w m ->
  exists w', Store.add d w = Some (Store.Undefined, w') /\
    (JSMap.has (key d) m = true -> w' = w) /\
    (JSMap.has (key d) m = false ->
       Store.current w' = Some (m ++ [(key d, d)])).
Proof.
  intros [Hcur Hwf]. destruct (JSMap.has (key d) m) eqn:E.
  - exists w. split; [now apply (StoreFacts.add_present w d m)|].
    split; [reflexivity|discriminate].
  - eexists. split; [now apply (StoreFacts.add_absent w d m)|].
    split; [discriminate|]. intros _. unfold Store.current. simpl.
    rewrite StoreFacts.lookup_alloc, JSMapFacts.of_entries_entries by exact Hwf.
    now rewrite JSMapFacts.set_absent.
Qed.

Lemma add_returns_undefined_witness :
  Store.registry Store.initial JSMap.empty /\
  exists w', Store.add Sample.d1 Store.initial = Some (Store.Undefined, w') /\
    (JSMap.has (key Sample.d1) (@JSMap.empty DownloadModel) = true -> w' = Store.initial) /\
    (JSMap.has (key Sample.d1) (@JSMap.empty DownloadModel) = false ->
       Store.current w' = Some (JSMap.empty ++ [(key Sample.d1, Sample.d1)])).
Proof.
  split; [exact StoreFacts.registry_initial|].
  exact (add_returns_undefined Store.initial JSMap.empty Sample.d1
           StoreFacts.registry_initial).
Defined.

(** C5 as stated fails: on the empty store, where the key is absent and
    the record is inserted, [add] does not evaluate to [true]; on a store
    holding the key it does not evaluate to [false]. *)
Lemma add_signals_insertion_counterexample :
  (JSMap.has (key Sample.d1) (@JSMap.empty DownloadModel) = false /\
   Store.current Store.initial = Some JSMap.empty /\
   ~ exists w', Store.add Sample.d1 Store.initial
                = Some (Store.Boolean true, w')) /\
  (JSMap.has (key Sample.d1') [(key Sample.d1, Sample.d1)] = true /\
   Store.current Sample.w1 = Some [(key Sample.d1, Sample.d1)] /\
   ~ exists w', Store.add Sample.d1' Sample.w1
                = Some (Store.Boolean false, w')).
Proof.
  repeat split; try reflexivity; intros [w' H]; vm_compute in H; discriminate.
Qed.

(** C6. Idempotent delete: when the key is present the first [delete]
    evaluates to [true] and installs the collection without the record,
    and a second [delete] of the same key right after evaluates to
    [false]; a [delete] of a key that is absent evaluates to [false] and
    leaves state and collection as they were. *)
Theorem delete_idempotent (w : Store.World) (m : JSMap.t DownloadModel)
    (d : DownloadModel) :
  Store.registry w m ->
  (JSMap.has (key d) m = true ->
     exists w1 w2,
       Store.delete d w = Some (Store.Boolean true, w1) /\
       Store.registry w1 (snd (JSMap.delete (key d) m)) /\
       JSMap.has (key d) (snd (JSMap.delete (key d) m)) = false /\
       Store.delete d w1 = Some (Store.Boolean false, w2) /\
       Store.state w2 = Store.state w1 /\
       Store.current w2 = Store.current w1) /\
  (JSMap.has (key d) m = false ->
     exists w', Store.delete d w = Some (Store.Boolean false, w') /\
       Store.state w' = Store.state w /\
       Store.current w' = Some m).
Proof.
  intros [Hcur Hwf]. split; intros Hhas.
  - pose proof (StoreFacts.delete_run w d m Hcur) as Hrun. cbv zeta in Hrun.
    rewrite JSMapFacts.of_entries_entries in Hrun by exact Hwf.
    rewrite (JSMapFacts.delete_present _ _ Hhas) in Hrun.
    set (m1 := snd (JSMap.delete (key d) m)) in *.
    assert (JSMap.wf m1) as Hwf1 by now apply JSMapFacts.wf_delete.
    assert (JSMap.has (key d) m1 = false) as Hgone
      by now apply JSMapFacts.has_delete.
    eexists. eexists. split; [exact Hrun|].
    assert (Store.current
              {| Store.heap := Store.heap w ++ [m1];
                 Store.state := {| Store.downloads := length (Store.heap w) |};
                 Store.trace := Store.trace w ++
                   [Store.Commit {| Store.downloads := length (Store.heap w) |}] |}
            = Some m1) as Hcur1
      by (unfold Store.current; simpl; apply StoreFacts.lookup_alloc).
    split; [now split|]. split; [exact Hgone|].
    pose proof (StoreFacts.delete_run _ d m1 Hcur1) as Hrun1. cbv zeta in Hrun1.
    rewrite JSMapFacts.of_entries_entries in Hrun1 by exact Hwf1.
    rewrite (JSMapFacts.delete_absent _ _ Hgone) in Hrun1. simpl in Hrun1.
    split; [exact Hrun1|]. split; [reflexivity|].
    unfold Store.current. simpl.
    rewrite StoreFacts.lookup_alloc.
    apply StoreFacts.lookup_old, StoreFacts.lookup_alloc.
  - pose proof (StoreFacts.delete_run w d m Hcur) as Hrun. cbv zeta in Hrun.
    rewrite JSMapFacts.of_entries_entries in Hrun by exact Hwf.
    rewrite (JSMapFacts.delete_absent _ _ Hhas) in Hrun. simpl in Hrun.
    eexists. split; [exact Hrun|]. split; [reflexivity|].
    unfold Store.current. simpl. now apply StoreFacts.lookup_old.
Qed.

Lemma delete_idempotent_witness :
  Store.registry Sample.w1 [(key Sample.d1, Sample.d1)] /\
  JSMap.has (key Sample.d1) [(key Sample.d1, Sample.d1)] = true /\
  JSMap.has (key Sample.d2) [(key Sample.d1, Sample.d1)] = false /\
  (exists w1 w2,
     Store.delete Sample.d1 Sample.w1 = Some (Store.Boolean true, w1) /\
     Store.delete Sample.d1 w1 = Some (Store.Boolean false, w2)) /\
  (exists w', Store.delete Sample.d2 Sample.w1 = Some (Store.Boolean false, w') /\
     Store.current w' = Some [(key Sample.d1, Sample.d1)]).
Proof.
  split; [exact StoreFacts.registry_w1|].
  split; [reflexivity|]. split; [reflexivity|]. split.
  - destruct (delete_idempotent Sample.w1 _ Sample.d1 StoreFacts.registry_w1)
      as [Hfirst _].
    destruct (Hfirst eq_refl) as (w1 & w2 & H1 & _ & _ & H2 & _).
    now exists w1, w2.
  - destruct (delete_idempotent Sample.w1 _ Sample.d2 StoreFacts.registry_w1)
      as [_ Habsent].
    destruct (Habsent eq_refl) as (w' & H1 & _ & H2).
    now exists w'.
Defined.

(** C9. No-op mutations set no state: an [add] whose key is present and a
    [delete] whose key is absent make no [_set] call: the trace of commits
    (each one a notification of the subscribers and a flush by the persist
    middleware) is what it was, and so are the state and the collection it
    refers to. *)
Theorem noop_sets_no_state (w : Store.World) (m : JSMap.t DownloadModel)
    (d : DownloadModel) :
  Store.registry w m ->
  (JSMap.has (key d) m = true ->
     exists r w', Store.add d w = Some (r, w') /\
       Store.trace w' = Store.trace w /\
       Store.state w' = Store.state w /\
       Store.current w' = Store.current w) /\
  (JSMap.has (key d) m = false ->
     exists r w', Store.delete d w = Some (r, w') /\
       Store.trace w' = Store.trace w /\
       Store.state w' = Store.state w /\
       Store.current w' = Store.current w).
Proof.
  intros [Hcur Hwf]. split; intros Hhas.
  - exists Store.Undefined, w.
    split; [now apply (StoreFacts.add_present w d m)|]. now repeat split.
  - pose proof (StoreFacts.delete_run w d m Hcur) as Hrun. cbv zeta in Hrun.
    rewrite JSMapFacts.of_entries_entries in Hrun by exact Hwf.
    rewrite (JSMapFacts.delete_absent _ _ Hhas) in Hrun. simpl in Hrun.
    eexists. eexists. split; [exact Hrun|]. simpl.
    split; [reflexivity|]. split; [reflexivity|].
    unfold Store.current in *. simpl. rewrite Hcur.
    now apply StoreFacts.lookup_old.
Qed.

Lemma noop_sets_no_state_witness :
  Store.registry Sample.w1 [(key Sample.d1, Sample.d1)] /\
  JSMap.has (key Sample.d1') [(key Sample.d1, Sample.d1)] = true /\
  JSMap.has (key Sample.d2) [(key Sample.d1, Sample.d1)] = false /\
  (exists r w', Store.add Sample.d1' Sample.w1 = Some (r, w') /\
     Store.trace w' = Store.trace Sample.w1) /\
  (exists r w', Store.delete Sample.d2 Sample.w1 = Some (r, w') /\
     Store.trace w' = Store.trace Sample.w1).
Proof.
  split; [exact StoreFacts.registry_w1|].
  split; [reflexivity|]. split; [reflexivity|]. split.
  - destruct (noop_sets_no_state Sample.w1 _ Sample.d1' StoreFacts.registry_w1)
      as [Hadd _].
    destruct (Hadd eq_refl) as (r & w' & H1 & H2 & _).
    now exists r, w'.
  - destruct (noop_sets_no_state Sample.w1 _ Sample.d2 StoreFacts.registry_w1)
      as [_ Hdel].
    destruct (Hdel eq_refl) as (r & w' & H1 & H2 & _).
    now exists r, w'.
Defined.

(** C10. Copy-on-write: each of [add], [update], [delete] and [reset] runs
    to completion and leaves every [Map] instance that existed before it
    as it was, the one the previous state holds included; when it commits
    a state, the [Map] that state refers to was allocated by the call. *)
Theorem copy_on_write (w : Store.World) (m : JSMap.t DownloadModel)
    (d : DownloadModel) (op : Store.M Store.jsret) :
  Store.current w = Some m ->
  In op [Store.add d; Store.update d; Store.delete d; Store.reset] ->
  exists r w', op w = Some (r, w') /\
    (forall l x, Store.heap w !! l = Some x -> Store.heap w' !! l = Some x) /\
    Store.heap w' !! Store.downloads (Store.state w) = Some m /\
    ((Store.state w' = Store.state w /\ Store.trace w' = Store.trace w) \/
     (Store.heap w !! Store.downloads (Store.state w') = None /\
      is_Some (Store.heap w' !! Store.downloads (Store.state w')) /\
      Store.trace w' = Store.trace w ++ [Store.Commit (Store.state w')])).
Proof.
  intros Hcur Hop.
  assert (forall h : list (JSMap.t DownloadModel), h !! length h = None) as Hnew
    by (intros h; apply lookup_ge_None; lia).
  simpl in Hop. destruct Hop as [<-|[<-|[<-|[<-|[]]]]].
  - destruct (JSMap.has (key d) m) eqn:E.
    + exists Store.Undefined, w.
      split; [now apply (StoreFacts.add_present w d m)|].
      repeat split; auto.
    + eexists. eexists. split; [now apply (StoreFacts.add_absent w d m)|].
      simpl. split; [intros l x; apply StoreFacts.lookup_old|].
      split; [now apply StoreFacts.lookup_old|].
      right. split; [apply Hnew|]. split; [|reflexivity].
      rewrite StoreFacts.lookup_alloc. eauto.
  - eexists. eexists. split; [now apply (StoreFacts.update_run w d m)|].
    simpl. split; [intros l x; apply StoreFacts.lookup_old|].
    split; [now apply StoreFacts.lookup_old|].
    right. split; [apply Hnew|]. split; [|reflexivity].
    rewrite StoreFacts.lookup_alloc. eauto.
  - pose proof (StoreFacts.delete_run w d m Hcur) as Hrun. cbv zeta in Hrun.
    eexists. eexists. split; [exact Hrun|].
    simpl. split; [intros l x; apply StoreFacts.lookup_old|].
    split; [now apply StoreFacts.lookup_old|].
    destruct (fst (JSMap.delete (key d) (JSMap.of_entries (JSMap.entries m)))).
    * right. simpl. split; [apply Hnew|]. split; [|reflexivity].
      rewrite StoreFacts.lookup_alloc. eauto.
    * left. now split.
  - eexists. eexists. split; [apply StoreFacts.reset_run|].
    simpl. split; [intros l x; apply StoreFacts.lookup_old|].
    split; [now apply StoreFacts.lookup_old|].
    right. split; [apply Hnew|]. split; [|reflexivity].
    rewrite StoreFacts.lookup_alloc. eauto.
Qed.

Lemma copy_on_write_witness :
  Store.current Sample.w1 = Some [(key Sample.d1, Sample.d1)] /\
  In (Store.update Sample.d1')
     [Store.add Sample.d1'; Store.update Sample.d1'; Store.delete Sample.d1';
      Store.reset] /\
  exists r w', Store.update Sample.d1' Sample.w1 = Some (r, w') /\
    Store.heap w' !! Store.downloads (Store.state Sample.w1)
    = Some [(key Sample.d1, Sample.d1)].
Proof.
  split; [reflexivity|]. split; [simpl; tauto|].
  destruct (copy_on_write Sample.w1 [(key Sample.d1, Sample.d1)] Sample.d1'
              (Store.update Sample.d1') eq_refl)
    as (r & w' & Hrun & _ & Hold & _).
  - simpl. tauto.
  - now exists r, w'.
Defined.

(** ** [JSON.parse] reads back what [JSON.stringify] wrote *)

Module JSONFacts.
Import JSON.

Lemma hex_value_digit n : n < 16 -> hex_value (hex_digit n) = Some n.
Proof.
  intros Hn. unfold hex_digit, hex_value.
  destruct (N.ltb_spec n 10).
  - assert ((48 <=? (48 + n)) && ((48 + n) <=? 57) = true) as ->.
    { apply andb_true_iff. split; apply N.leb_le; lia. }
    f_equal. lia.
  - assert ((48 <=? (87 + n)) && ((87 + n) <=? 57) = false) as ->.
    { apply andb_false_iff. right. apply N.leb_gt. lia. }
    assert ((65 <=? (87 + n)) && ((87 + n) <=? 70) = false) as ->.
    { apply andb_false_iff. right. apply N.leb_gt. lia. }
    assert ((97 <=? (87 + n)) && ((87 + n) <=? 102) = true) as ->.
    { apply andb_true_iff. split; apply N.leb_le; lia. }
    f_equal. lia.
Qed.

Lemma hex4_value_hex4 c :
  c < 65536 ->
  hex4_value (hex_digit (c / 4096 mod 16)) (hex_digit (c / 256 mod 16))
             (hex_digit (c / 16 mod 16)) (hex_digit (c mod 16)) = Some c.
Proof.
  intros Hc. unfold hex4_value.
  rewrite !hex_value_digit by (apply N.mod_lt; discriminate).
  f_equal.
  pose proof (N.div_mod c 16 ltac:(discriminate)).
  pose proof (N.div_mod (c / 16) 16 ltac:(discriminate)).
  pose proof (N.div_mod (c / 16 / 16) 16 ltac:(discriminate)).
  assert (c / 256 = c / 16 / 16) as E1
    by (rewrite N.Div0.div_div; reflexivity).
  assert (c / 4096 = c / 16 / 16 / 16) as E2
    by (rewrite !N.Div0.div_div; reflexivity).
  assert (c / 16 / 16 / 16 < 16) as Hhi.
  { rewrite <- E2. apply N.Div0.div_lt_upper_bound. exact Hc. }
  rewrite E1, E2. rewrite (N.mod_small (c / 16 / 16 / 16)) by exact Hhi.
  lia.
Qed.

Lemma parse_unicode_escape c r :
  c < 65536 ->
  parse_units (unicode_escape c ++ r) = prepend c (parse_units r).
Proof.
  intros Hc. unfold unicode_escape, hex4. simpl.
  now rewrite hex4_value_hex4.
Qed.

Lemma parse_plain c r :
  32 <= c -> c <> 34 -> c <> 92 ->
  parse_units (c :: r) = prepend c (parse_units r).
Proof.
  intros H32 H34 H92. simpl.
  apply N.eqb_neq in H34, H92. rewrite H34, H92.
  assert ((c <? 32) = false) as -> by (apply N.ltb_ge; exact H32).
  reflexivity.
Qed.

Lemma parse_quote_unit c r :
  parse_units (quote_unit c ++ r) = prepend c (parse_units r).
Proof.
  unfold quote_unit.
  destruct (N.eqb_spec c 8) as [->|]; [reflexivity|].
  destruct (N.eqb_spec c 9) as [->|]; [reflexivity|].
  destruct (N.eqb_spec c 10) as [->|]; [reflexivity|].
  destruct (N.eqb_spec c 12) as [->|]; [reflexivity|].
  destruct (N.eqb_spec c 13) as [->|]; [reflexivity|].
  destruct (N.eqb_spec c 34) as [->|]; [reflexivity|].
  destruct (N.eqb_spec c 92) as [->|]; [reflexivity|].
  destruct (N.ltb_spec c 32).
  - apply parse_unicode_escape. lia.
  - now apply parse_plain.
Qed.

Lemma parse_quote_units_aux (s : jsstring) :
  (forall r, parse_units (quote_units s ++ 34 :: r) = Some (s, r)) /\
  (forall c r, parse_units (quote_units (c :: s) ++ 34 :: r) = Some (c :: s, r)).
Proof.
  induction s as [|d s [IH1 IH2]].
  - split; [reflexivity|]. intros c r.
    change (quote_units [c]) with
      (if is_lead c then unicode_escape c
       else if is_trail c then unicode_escape c ++ []
       else quote_unit c ++ []).
    destruct (is_lead c) eqn:Hl.
    + unfold is_lead in Hl. apply andb_true_iff in Hl as [H1 H2].
      apply N.leb_le in H1, H2.
      rewrite parse_unicode_escape by lia. reflexivity.
    + destruct (is_trail c) eqn:Ht.
      * unfold is_trail in Ht. apply andb_true_iff in Ht as [H1 H2].
        apply N.leb_le in H1, H2.
        rewrite app_nil_r, parse_unicode_escape by lia. reflexivity.
      * rewrite app_nil_r, parse_quote_unit. reflexivity.
  - split; [exact (IH2 d)|]. intros c r.
    change (quote_units (c :: d :: s)) with
      (if is_lead c then
         if is_trail d then c :: d :: quote_units s
         else unicode_escape c ++ quote_units (d :: s)
       else if is_trail c then unicode_escape c ++ quote_units (d :: s)
       else quote_unit c ++ quote_units (d :: s)).
    destruct (is_lead c) eqn:Hl.
    + unfold is_lead in Hl. apply andb_true_iff in Hl as [H1 H2].
      apply N.leb_le in H1, H2.
      destruct (is_trail d) eqn:Ht.
      * unfold is_trail in Ht. apply andb_true_iff in Ht as [H3 H4].
        apply N.leb_le in H3, H4.
        rewrite <- !app_comm_cons.
        rewrite parse_plain by lia. rewrite parse_plain by lia.
        now rewrite IH1.
      * rewrite <- app_assoc, parse_unicode_escape by lia.
        now rewrite IH2.
    + destruct (is_trail c) eqn:Ht.
      * unfold is_trail in Ht. apply andb_true_iff in Ht as [H1 H2].
        apply N.leb_le in H1, H2.
        rewrite <- app_assoc, parse_unicode_escape by lia. now rewrite IH2.
      * rewrite <- app_assoc, parse_quote_unit. now rewrite IH2.
Qed.

Lemma parse_quote_units s r :
  parse_units (quote_units s ++ 34 :: r) = Some (s, r).
Proof. apply parse_quote_units_aux. Qed.

Lemma closes_cases r :
  closes r ->
  match r with
  | [] => True
  | c :: _ => is_digit c = false /\ is_ws c = false /\ c <> 46 /\
              c <> 101 /\ c <> 69
  end.
Proof.
  intros [-> | (c & t & -> & Hc)]; [exact I|].
  destruct Hc as [-> | [-> | ->]]; repeat split; discriminate.
Qed.

Lemma read_digits_units u r :
  match r with [] => True | c :: _ => is_digit c = false end ->
  read_digits (uint_units u ++ r) = (u, r).
Proof.
  intros Hr. induction u; simpl; try (rewrite IHu; reflexivity).
  destruct r as [|c t]; simpl; [reflexivity|]. now rewrite Hr.
Qed.

Lemma int_part_ok_unorm u : int_part_ok (Decimal.unorm u) = true.
Proof. induction u; simpl; auto. Qed.

Lemma to_uint_unorm n : N.to_uint n = Decimal.unorm (N.to_uint n).
Proof.
  rewrite <- DecimalN.Unsigned.to_of. now rewrite DecimalN.Unsigned.of_to.
Qed.

Lemma int_part_ok_to_uint n : int_part_ok (N.to_uint n) = true.
Proof. rewrite to_uint_unorm. apply int_part_ok_unorm. Qed.

Lemma nonempty_to_uint n : nonempty (N.to_uint n) = true.
Proof.
  pose proof (int_part_ok_to_uint n) as H.
  destruct (N.to_uint n); simpl in *; congruence.
Qed.

Lemma uint_units_head u :
  nonempty u = true ->
  exists c t, uint_units u = c :: t /\ is_digit c = true.
Proof. destruct u; simpl; intros H; try discriminate; eauto. Qed.

Lemma digit_not c :
  is_digit c = true ->
  c <> 45 /\ c <> 43 /\ c <> 123 /\ c <> 91 /\ c <> 34 /\ c <> 116 /\
  c <> 102 /\ c <> 110 /\ is_ws c = false.
Proof.
  unfold is_digit, is_ws. intros H. apply andb_true_iff in H as [H1 H2].
  apply N.leb_le in H1, H2.
  repeat split; try lia.
  repeat (apply orb_false_iff; split); apply N.eqb_neq; lia.
Qed.

Lemma int_units_head z :
  exists c t, int_units z = c :: t /\ (c = 45 \/ is_digit c = true).
Proof.
  unfold int_units. destruct (z <? 0)%Z; simpl; [eauto|].
  destruct (uint_units_head _ (nonempty_to_uint (Z.abs_N z)))
    as (c & t & -> & Hc).
  eauto.
Qed.

(** A sign and digits, read back as the integer they spell. *)
Lemma read_int_units z r :
  match r with [] => True | c :: _ => is_digit c = false end ->
  (let (neg, s1) :=
     match int_units z ++ r with
     | c :: t => if c =? 45 then (true, t) else (false, int_units z ++ r)
     | [] => (false, [])
     end in
   let (i, s2) := read_digits s1 in
   (neg, i, s2)) = ((z <? 0)%Z, N.to_uint (Z.abs_N z), r).
Proof.
  intros Hr. unfold int_units. destruct (z <? 0)%Z; simpl.
  - now rewrite read_digits_units.
  - destruct (uint_units_head _ (nonempty_to_uint (Z.abs_N z)))
      as (c & t & E & Hc).
    destruct (digit_not c Hc) as (H45 & _).
    rewrite E. simpl. apply N.eqb_neq in H45. rewrite H45.
    rewrite app_comm_cons, <- E. now rewrite read_digits_units.
Qed.

Lemma signed_abs z :
  (if (z <? 0)%Z then (- Z.of_N (Z.abs_N z))%Z else Z.of_N (Z.abs_N z)) = z.
Proof. destruct (Z.ltb_spec z 0); lia. Qed.

Lemma read_exponent_none r :
  match r with [] => True | c :: _ => c <> 101 /\ c <> 69 end ->
  read_exponent r = Some (0%Z, r).
Proof.
  destruct r as [|c t]; simpl; [reflexivity|]. intros [H1 H2].
  apply N.eqb_neq in H1, H2. now rewrite H1, H2.
Qed.

Lemma read_exp_digits_units neg n r :
  match r with [] => True | c :: _ => is_digit c = false end ->
  read_exp_digits neg (uint_units (N.to_uint n) ++ r) =
  Some (if neg then (- Z.of_N n)%Z else Z.of_N n, r).
Proof.
  intros Hr. unfold read_exp_digits. rewrite read_digits_units by exact Hr.
  now rewrite nonempty_to_uint, DecimalN.Unsigned.of_to.
Qed.

Lemma read_exponent_units e r :
  e <> 0%Z ->
  match r with [] => True | c :: _ => is_digit c = false end ->
  read_exponent (101 :: int_units e ++ r) = Some (e, r).
Proof.
  intros He Hr. unfold int_units. simpl.
  destruct (Z.ltb_spec e 0); simpl.
  - rewrite read_exp_digits_units by exact Hr. f_equal. f_equal. lia.
  - destruct (uint_units_head _ (nonempty_to_uint (Z.abs_N e)))
      as (c & t & E & Hc).
    destruct (digit_not c Hc) as (H45 & H43 & _).
    rewrite E. simpl. apply N.eqb_neq in H45, H43. rewrite H45, H43.
    rewrite app_comm_cons, <- E.
    rewrite read_exp_digits_units by exact Hr. f_equal. f_equal. lia.
Qed.

Lemma parse_number_units m e r :
  closes r ->
  parse_number (number_units m e ++ r) = Some (JNum m e, r).
Proof.
  intros Hr. apply closes_cases in Hr.
  unfold number_units, parse_number.
  destruct (Z.eqb_spec e 0) as [->|He].
  - rewrite app_nil_r.
    pose proof (read_int_units m r) as Hint. cbv zeta in Hint.
    destruct (match int_units m ++ r with
              | [] => (false, [])
              | c :: t => if c =? 45 then (true, t) else (false, int_units m ++ r)
              end) as [neg s1].
    destruct (read_digits s1) as [i s2].
    assert (match r with [] => True | c :: _ => is_digit c = false end) as Hd
      by (destruct r; tauto).
    specialize (Hint Hd). injection Hint as -> -> ->.
    rewrite int_part_ok_to_uint.
    assert (read_fraction r = Some (Decimal.Nil, r)) as ->.
    { destruct r as [|c t]; simpl; [reflexivity|].
      destruct Hr as (_ & _ & H46 & _). apply N.eqb_neq in H46.
      now rewrite H46. }
    rewrite read_exponent_none by (destruct r; tauto).
    rewrite DecimalFacts.app_nil_r, DecimalN.Unsigned.of_to. simpl.
    rewrite signed_abs. now rewrite Z.sub_0_r.
  - rewrite <- app_assoc. rewrite <- app_comm_cons.
    pose proof (read_int_units m (101 :: int_units e ++ r)) as Hint.
    cbv zeta in Hint.
    destruct (match int_units m ++ 101 :: int_units e ++ r with
              | [] => (false, [])
              | c :: t =>
                  if c =? 45 then (true, t)
                  else (false, int_units m ++ 101 :: int_units e ++ r)
              end) as [neg s1].
    destruct (read_digits s1) as [i s2].
    specialize (Hint eq_refl). injection Hint as -> -> ->.
    rewrite int_part_ok_to_uint.
    change (read_fraction (101 :: int_units e ++ r))
      with (Some (Decimal.Nil, 101 :: int_units e ++ r)).
    cbv iota beta.
    rewrite read_exponent_units by (try assumption; destruct r; tauto).
    rewrite DecimalFacts.app_nil_r, DecimalN.Unsigned.of_to. simpl.
    rewrite signed_abs. now rewrite Z.sub_0_r.
Qed.

(** *** Values *)

Lemma parse_elements_S f s :
  parse_elements (S f) s =
  match parse_value f s with
  | Some (v, r) =>
      match skip_ws r with
      | c :: r' =>
          if c =? 44 then prepend v (parse_elements f r')
          else if c =? 93 then Some ([v], r')
          else None
      | [] => None
      end
  | None => None
  end.
Proof. reflexivity. Qed.

Lemma parse_members_quote f k r v r3 :
  parse_value f r = Some (v, r3) ->
  parse_members (S f) (quote k ++ 58 :: r) =
  match skip_ws r3 with
  | c3 :: r4 =>
      if c3 =? 44 then prepend (k, v) (parse_members f r4)
      else if c3 =? 125 then Some ([(k, v)], r4)
      else None
  | [] => None
  end.
Proof.
  intros Hv. unfold quote. simpl.
  rewrite <- app_assoc. simpl. rewrite parse_quote_units. simpl.
  now rewrite Hv.
Qed.

Lemma parse_value_number f c t :
  c = 45 \/ is_digit c = true ->
  parse_value (S f) (c :: t) = parse_number (c :: t).
Proof.
  intros [-> | Hc]; [reflexivity|].
  destruct (digit_not c Hc) as (_ & _ & H1 & H2 & H3 & H4 & H5 & H6 & Hws).
  apply N.eqb_neq in H1, H2, H3, H4, H5, H6.
  simpl. now rewrite Hws, H1, H2, H3, H4, H5, H6.
Qed.

Lemma parse_value_array f c t :
  is_ws c = false -> c <> 93 ->
  parse_value (S f) (91 :: c :: t) =
  match parse_elements f (c :: t) with
  | Some (vs, r) => Some (JArr vs, r)
  | None => None
  end.
Proof.
  intros Hws Hc. apply N.eqb_neq in Hc. simpl. now rewrite Hws, Hc.
Qed.

Lemma parse_value_object f c t :
  is_ws c = false -> c <> 125 ->
  parse_value (S f) (123 :: c :: t) =
  match parse_members f (c :: t) with
  | Some (ms, r) => Some (JObj ms, r)
  | None => None
  end.
Proof.
  intros Hws Hc. apply N.eqb_neq in Hc. simpl. now rewrite Hws, Hc.
Qed.

Lemma stringify_head v :
  exists c t, stringify v = c :: t /\ is_ws c = false /\ c <> 93.
Proof.
  destruct v as [|[|]|m e|s|vs|ms]; simpl;
    try (eexists; eexists; split; [reflexivity|];
         split; [reflexivity|discriminate]).
  unfold number_units.
  destruct (int_units_head m) as (c & t & -> & Hc). simpl.
  eexists; eexists; split; [reflexivity|].
  destruct Hc as [-> | Hc]; [split; [reflexivity|discriminate]|].
  destruct (digit_not c Hc) as (_ & _ & _ & _ & _ & _ & _ & _ & Hws).
  split; [exact Hws|]. intros ->. discriminate.
Qed.

Lemma stringify_nonempty v : (1 <= length (stringify v))%nat.
Proof.
  destruct (stringify_head v) as (c & t & -> & _). simpl. lia.
Qed.

Lemma skip_ws_comma r : skip_ws (44 :: r) = 44 :: r.
Proof. reflexivity. Qed.

Lemma join_map_cons {A} (f : A -> list N) x y l :
  join (map f (x :: y :: l)) = f x ++ 44 :: join (map f (y :: l)).
Proof. reflexivity. Qed.

Lemma join_map_one {A} (f : A -> list N) x : join (map f [x]) = f x.
Proof. simpl. apply app_nil_r. Qed.

Lemma parse_stringify_fuel fuel :
  (forall v r, (length (stringify v) <= fuel)%nat -> closes r ->
     parse_value fuel (stringify v ++ r) = Some (v, r)) /\
  (forall v vs r,
     (length (join (map stringify (v :: vs))) < fuel)%nat ->
     parse_elements fuel (join (map stringify (v :: vs)) ++ 93 :: r)
     = Some (v :: vs, r)) /\
  (forall kv ms r,
     (length (join (map (fun kv => quote (fst kv) ++ 58%N :: stringify (snd kv))
                        (kv :: ms))) < fuel)%nat ->
     parse_members fuel
       (join (map (fun kv => quote (fst kv) ++ 58 :: stringify (snd kv))
                  (kv :: ms)) ++ 125 :: r)
     = Some (kv :: ms, r)).
Proof.
  induction fuel as [|f (IHv & IHe & IHm)].
  { split; [|split; intros; lia].
    intros v r H. pose proof (stringify_nonempty v). lia. }
  assert (forall r c, c = 44 \/ c = 93 \/ c = 125 -> closes (c :: r)) as Hcl
    by (intros r c Hc; right; eauto).
  split; [|split].
  - intros [|[|]|m e|s|[|v vs]|[|kv ms]] r Hlen Hr; try reflexivity.
    + destruct (stringify_head (JNum m e)) as (c & t & E & _).
      simpl in E. change (stringify (JNum m e)) with (number_units m e).
      assert (c = 45 \/ is_digit c = true) as Hc.
      { unfold number_units in E.
        destruct (int_units_head m) as (c' & t' & E' & Hc').
        rewrite E' in E. simpl in E. now injection E as <- _. }
      rewrite E, <- app_comm_cons, parse_value_number by exact Hc.
      rewrite app_comm_cons, <- E. now apply parse_number_units.
    + simpl. unfold quote. rewrite <- app_assoc. simpl.
      now rewrite parse_quote_units.
    + change (stringify (JArr (v :: vs)))
        with (91 :: join (map stringify (v :: vs)) ++ [93]) in *.
      cbn [length] in Hlen. rewrite length_app in Hlen. cbn [length] in Hlen.
      rewrite <- app_comm_cons, <- app_assoc. simpl ([93] ++ r).
      destruct (stringify_head v) as (c & t & E & Hws & Hc).
      assert (exists t', join (map stringify (v :: vs)) ++ 93 :: r = c :: t')
        as [t' E'].
      { simpl. rewrite E. simpl. eauto. }
      rewrite E', parse_value_array, <- E' by assumption.
      rewrite IHe by lia. reflexivity.
    + change (stringify (JObj (kv :: ms)))
        with (123 :: join (map (fun kv => quote (fst kv) ++ 58 :: stringify (snd kv))
                               (kv :: ms)) ++ [125]) in *.
      cbn [length] in Hlen. rewrite length_app in Hlen. cbn [length] in Hlen.
      rewrite <- app_comm_cons, <- app_assoc. simpl ([125] ++ r).
      assert (exists t', join (map (fun kv => quote (fst kv) ++ 58 :: stringify (snd kv))
                                   (kv :: ms)) ++ 125 :: r = 34 :: t')
        as [t' E'].
      { simpl. eauto. }
      rewrite E', parse_value_object, <- E' by (reflexivity || discriminate).
      rewrite IHm by lia. reflexivity.
  - intros v vs r Hlen. rewrite parse_elements_S.
    destruct vs as [|v' vs].
    + rewrite join_map_one in Hlen |- *.
      rewrite IHv by (try lia; apply Hcl; tauto). reflexivity.
    + rewrite join_map_cons in Hlen |- *.
      rewrite length_app in Hlen. cbn [length] in Hlen.
      rewrite <- app_assoc, <- app_comm_cons.
      rewrite IHv by (try lia; apply Hcl; tauto).
      rewrite skip_ws_comma. change (44 =? 44) with true. cbv iota.
      rewrite IHe by lia. reflexivity.
  - intros [k v] ms r Hlen.
    destruct ms as [|kv' ms].
    + rewrite join_map_one in Hlen |- *. cbn [fst snd] in Hlen |- *.
      rewrite length_app in Hlen. cbn [length] in Hlen.
      rewrite <- app_assoc, <- app_comm_cons.
      rewrite (parse_members_quote f k _ v (125 :: r))
        by (apply IHv; [lia | apply Hcl; tauto]).
      reflexivity.
    + rewrite join_map_cons in Hlen |- *. cbn [fst snd] in Hlen |- *.
      rewrite !length_app in Hlen. cbn [length] in Hlen.
      rewrite <- !app_assoc, <- !app_comm_cons.
      rewrite (parse_members_quote f k _ v
                 (44 :: join (map (fun kv => quote (fst kv) ++ 58%N :: stringify (snd kv))
                                  (kv' :: ms)) ++ 125 :: r)).
      * rewrite skip_ws_comma. change (44 =? 44) with true. cbv iota.
        rewrite IHm by lia. reflexivity.
      * apply IHv; [lia | apply Hcl; tauto].
Qed.

(** [JSON.parse(JSON.stringify(v))] is [v]. *)
Lemma parse_stringify v : parse (stringify v) = Some v.
Proof.
  unfold parse.
  destruct (parse_stringify_fuel (S (length (stringify v)))) as (Hv & _).
  rewrite <- (app_nil_r (stringify v)) at 2.
  rewrite Hv; [reflexivity | lia | now left].
Qed.
(** *** Fuel *)

Lemma skip_ws_length s : (length (skip_ws s) <= length s)%nat.
Proof.
  induction s as [|c s IH]; simpl; [lia|]. destruct (is_ws c); simpl; lia.
Qed.

Lemma skip_ws_cons s c t : skip_ws s = c :: t -> (length t < length s)%nat.
Proof.
  intros E. pose proof (skip_ws_length s) as H. rewrite E in H. simpl in H. lia.
Qed.

Lemma prepend_Some {A B} (a : A) (o : option (list A * B)) l b :
  prepend a o = Some (l, b) -> exists l', o = Some (l', b) /\ l = a :: l'.
Proof.
  destruct o as [[l' b']|]; simpl; [|discriminate].
  intros H. injection H as <- <-. eauto.
Qed.

Lemma parse_units_length s x r :
  parse_units s = Some (x, r) -> (length r < length s)%nat.
Proof.
  assert (forall n s x r, (length s <= n)%nat ->
            parse_units s = Some (x, r) -> (length r < length s)%nat) as Hn;
    [|now apply (Hn (length s))].
  clear. induction n as [|n IH]; intros s x r Hlen H.
  { destruct s; [discriminate|simpl in Hlen; lia]. }
  destruct s as [|c s]; [discriminate|]. simpl in H, Hlen.
  destruct (c =? 34). { injection H as <- <-. simpl. lia. }
  destruct (c =? 92).
  - destruct s as [|e s]; [discriminate|].
    destruct (e =? 117).
    + destruct s as [|h1 [|h2 [|h3 [|h4 s]]]]; try discriminate.
      destruct (hex4_value h1 h2 h3 h4); [|discriminate].
      apply prepend_Some in H as (l' & H & _).
      apply IH in H; simpl in *; lia.
    + destruct (unescape e); [|discriminate].
      apply prepend_Some in H as (l' & H & _).
      apply IH in H; simpl in *; lia.
  - destruct (c <? 32); [discriminate|].
    apply prepend_Some in H as (l' & H & _).
    apply IH in H; simpl in *; lia.
Qed.

Lemma read_digits_length s : forall u r,
  read_digits s = (u, r) ->
  (length r <= length s)%nat /\ (nonempty u = true -> (length r < length s)%nat).
Proof.
  induction s as [|c s IH]; intros u r H; simpl in H.
  - injection H as <- <-. split; [lia|discriminate].
  - destruct (is_digit c).
    + destruct (read_digits s) as [u' r'] eqn:E. injection H as <- <-.
      destruct (IH _ _ eq_refl) as [Hle _]. simpl. split; lia.
    + injection H as <- <-. split; [lia|discriminate].
Qed.

Lemma int_part_nonempty u : int_part_ok u = true -> nonempty u = true.
Proof. destruct u; simpl; congruence. Qed.

Lemma read_fraction_length s u r :
  read_fraction s = Some (u, r) -> (length r <= length s)%nat.
Proof.
  destruct s as [|c s]; simpl.
  - intros H. injection H as <- <-; simpl; lia.
  - destruct (c =? 46).
    + destruct (read_digits s) as [u' r'] eqn:E.
      destruct (nonempty u'); [|discriminate].
      intros H. injection H as <- <-.
      apply read_digits_length in E as [E _]. simpl. lia.
    + intros H. injection H as <- <-; simpl; lia.
Qed.

Lemma read_exp_digits_length neg s x r :
  read_exp_digits neg s = Some (x, r) -> (length r <= length s)%nat.
Proof.
  unfold read_exp_digits. destruct (read_digits s) as [u r'] eqn:E.
  destruct (nonempty u); [|discriminate].
  intros H. injection H as <- <-. now apply read_digits_length in E as [E _].
Qed.

Lemma read_exponent_length s x r :
  read_exponent s = Some (x, r) -> (length r <= length s)%nat.
Proof.
  destruct s as [|c s]; simpl.
  - intros H. injection H as <- <-; simpl; lia.
  - destruct ((c =? 101) || (c =? 69)).
    + destruct s as [|d s]; [discriminate|].
      destruct (d =? 45); [|destruct (d =? 43)];
        intros H; apply read_exp_digits_length in H; simpl in *; lia.
    + intros H. injection H as <- <-; simpl; lia.
Qed.

Lemma parse_number_length s v r :
  parse_number s = Some (v, r) -> (length r < length s)%nat.
Proof.
  unfold parse_number.
  destruct (match s with
            | [] => (false, [])
            | c :: r0 => if c =? 45 then (true, r0) else (false, s)
            end) as [neg s1] eqn:E1.
  assert (length s1 <= length s)%nat as H1.
  { destruct s as [|c s]; [injection E1 as <- <-; lia|].
    destruct (c =? 45); injection E1 as <- <-; simpl; lia. }
  destruct (read_digits s1) as [i s2] eqn:E2.
  destruct (int_part_ok i) eqn:Hi; [|discriminate].
  apply read_digits_length in E2 as [_ E2].
  specialize (E2 (int_part_nonempty _ Hi)).
  destruct (read_fraction s2) as [[fr s3]|] eqn:E3; [|discriminate].
  apply read_fraction_length in E3.
  destruct (read_exponent s3) as [[x s4]|] eqn:E4; [|discriminate].
  apply read_exponent_length in E4.
  intros H. injection H as <- <-; simpl; lia.
Qed.

Lemma expect_length w : forall s r,
  expect w s = Some r -> (length r <= length s)%nat.
Proof.
  induction w as [|a w IH]; intros [|b s] r; simpl; try discriminate.
  - intros H. injection H as <-; simpl; lia.
  - intros H. injection H as <-; simpl; lia.
  - destruct (a =? b); [|discriminate]. intros H. apply IH in H. lia.
Qed.

Lemma literal_length w v0 s v r :
  literal w v0 s = Some (v, r) -> (length r <= length s)%nat.
Proof.
  unfold literal. destruct (expect w s) eqn:E; [|discriminate].
  intros H. injection H as <- <-. now apply expect_length in E.
Qed.

(** Fuel is no limit: a value read with some fuel is read with any fuel
    that covers the code units it spans. *)
Lemma parse_fuel f :
  (forall s v r, parse_value f s = Some (v, r) ->
     (length r < length s)%nat /\
     forall f', (length s - length r <= f')%nat ->
                parse_value f' s = Some (v, r)) /\
  (forall s vs r, parse_elements f s = Some (vs, r) ->
     (length r < length s)%nat /\
     forall f', (length s - length r <= f')%nat ->
                parse_elements f' s = Some (vs, r)) /\
  (forall s ms r, parse_members f s = Some (ms, r) ->
     (length r < length s)%nat /\
     forall f', (length s - length r <= f')%nat ->
                parse_members f' s = Some (ms, r)).
Proof.
  induction f as [|f (IHv & IHe & IHm)]; [repeat split; discriminate|].
  split; [|split].
  - intros s v r H. simpl in H.
    destruct (skip_ws s) as [|c t] eqn:Ews; [discriminate|].
    pose proof (skip_ws_cons _ _ _ Ews) as Hs.
    destruct (c =? 123) eqn:E1.
    { destruct (skip_ws t) as [|d t'] eqn:Ews2; [discriminate|].
      pose proof (skip_ws_cons _ _ _ Ews2) as Ht.
      destruct (d =? 125) eqn:E2.
      - injection H as <- <-. split; [lia|].
        intros [|f'] Hf; [lia|]. simpl. now rewrite Ews, E1, Ews2, E2.
      - destruct (parse_members f t) as [[ms r']|] eqn:Em; [|discriminate].
        injection H as <- <-. destruct (IHm _ _ _ Em) as [Hl Hf].
        split; [lia|]. intros [|f'] Hf'; [lia|]. simpl.
        rewrite Ews, E1, Ews2, E2, (Hf f') by lia. reflexivity. }
    destruct (c =? 91) eqn:E3.
    { destruct (skip_ws t) as [|d t'] eqn:Ews2; [discriminate|].
      pose proof (skip_ws_cons _ _ _ Ews2) as Ht.
      destruct (d =? 93) eqn:E2.
      - injection H as <- <-. split; [lia|].
        intros [|f'] Hf; [lia|]. simpl. now rewrite Ews, E1, E3, Ews2, E2.
      - destruct (parse_elements f t) as [[vs r']|] eqn:Em; [|discriminate].
        injection H as <- <-. destruct (IHe _ _ _ Em) as [Hl Hf].
        split; [lia|]. intros [|f'] Hf'; [lia|]. simpl.
        rewrite Ews, E1, E3, Ews2, E2, (Hf f') by lia. reflexivity. }
    destruct (c =? 34) eqn:E4.
    { destruct (parse_units t) as [[str r']|] eqn:Eu; [|discriminate].
      injection H as <- <-. apply parse_units_length in Eu as Hl.
      split; [lia|]. intros [|f'] Hf'; [lia|]. simpl.
      now rewrite Ews, E1, E3, E4, Eu. }
    destruct (c =? 116) eqn:E5.
    { apply literal_length in H as Hl. split; [lia|].
      intros [|f'] Hf'; [lia|]. simpl. now rewrite Ews, E1, E3, E4, E5. }
    destruct (c =? 102) eqn:E6.
    { apply literal_length in H as Hl. split; [lia|].
      intros [|f'] Hf'; [lia|]. simpl. now rewrite Ews, E1, E3, E4, E5, E6. }
    destruct (c =? 110) eqn:E7.
    { apply literal_length in H as Hl. split; [lia|].
      intros [|f'] Hf'; [lia|]. simpl.
      now rewrite Ews, E1, E3, E4, E5, E6, E7. }
    apply parse_number_length in H as Hl. simpl in Hl. split; [lia|].
    intros [|f'] Hf'; [lia|]. simpl.
    now rewrite Ews, E1, E3, E4, E5, E6, E7.
  - intros s vs r H. simpl in H.
    destruct (parse_value f s) as [[v r1]|] eqn:Ev; [|discriminate].
    destruct (IHv _ _ _ Ev) as [Hl1 Hf1].
    destruct (skip_ws r1) as [|c t] eqn:Ews; [discriminate|].
    pose proof (skip_ws_cons _ _ _ Ews) as Hs.
    destruct (c =? 44) eqn:E1.
    + apply prepend_Some in H as (vs' & He & ->).
      destruct (IHe _ _ _ He) as [Hl2 Hf2].
      split; [lia|]. intros [|f'] Hf'; [lia|]. simpl.
      rewrite (Hf1 f') by lia. rewrite Ews, E1, (Hf2 f') by lia. reflexivity.
    + destruct (c =? 93) eqn:E2; [|discriminate].
      injection H as <- <-. split; [lia|].
      intros [|f'] Hf'; [lia|]. simpl.
      rewrite (Hf1 f') by lia. now rewrite Ews, E1, E2.
  - intros s ms r H. simpl in H.
    destruct (skip_ws s) as [|c t] eqn:Ews; [discriminate|].
    pose proof (skip_ws_cons _ _ _ Ews) as Hs.
    destruct (c =? 34) eqn:E1; [|discriminate].
    destruct (parse_units t) as [[k r1]|] eqn:Eu; [|discriminate].
    apply parse_units_length in Eu as Hlu.
    destruct (skip_ws r1) as [|c2 r2] eqn:Ews2; [discriminate|].
    pose proof (skip_ws_cons _ _ _ Ews2) as Hs2.
    destruct (c2 =? 58) eqn:E2; [|discriminate].
    destruct (parse_value f r2) as [[v r3]|] eqn:Ev; [|discriminate].
    destruct (IHv _ _ _ Ev) as [Hl1 Hf1].
    destruct (skip_ws r3) as [|c3 r4] eqn:Ews3; [discriminate|].
    pose proof (skip_ws_cons _ _ _ Ews3) as Hs3.
    destruct (c3 =? 44) eqn:E3.
    + apply prepend_Some in H as (ms' & He & ->).
      destruct (IHm _ _ _ He) as [Hl2 Hf2].
      split; [lia|]. intros [|f'] Hf'; [lia|]. simpl.
      rewrite Ews, E1, Eu, Ews2, E2, (Hf1 f') by lia.
      rewrite Ews3, E3, (Hf2 f') by lia. reflexivity.
    + destruct (c3 =? 125) eqn:E4; [|discriminate].
      injection H as <- <-. split; [lia|].
      intros [|f'] Hf'; [lia|]. simpl.
      rewrite Ews, E1, Eu, Ews2, E2, (Hf1 f') by lia.
      now rewrite Ews3, E3, E4.
Qed.

(** [parse] fails only where no amount of fuel reads the text as one
    value followed by white space. *)
Lemma parse_None s :
  parse s = None ->
  forall f v r, parse_value f s = Some (v, r) -> skip_ws r <> [].
Proof.
  unfold parse. intros Hp f v r Hv Hr.
  destruct (parse_fuel f) as (Hf & _).
  destruct (Hf _ _ _ Hv) as [_ Hfuel].
  rewrite (Hfuel (S (length s))) in Hp by lia.
  now rewrite Hr in Hp.
Qed.
End JSONFacts.

(** ** The adapter *)

Module StorageFacts.
Import JSON Storage.

(** *** Reading *)

Lemma load_fold es :
  forall (m : JSMap.t DownloadModel) (log : list (jsstring * SerializedDownload.t)),
  fold_left load_entry es (m, log) =
  (fold_left (fun m e => JSMap.set (fst e) (snd e) m)
     (map (fun e => (fst e, rehydrate (snd e)))
          (List.filter (fun e => negb (invalid (snd e))) es)) m,
   log ++ List.filter (fun e => invalid (snd e)) es).
Proof.
  induction es as [|[k obj] es IH]; intros m log; simpl.
  - now rewrite app_nil_r.
  - destruct (invalid obj); simpl; rewrite IH.
    + now rewrite <- app_assoc.
    + reflexivity.
Qed.

(** The loop loads the valid entries and logs the others, in order. *)
Lemma load_entries_split es :
  load_entries es =
  (JSMap.of_entries
     (map (fun e => (fst e, rehydrate (snd e)))
          (List.filter (fun e => negb (invalid (snd e))) es)),
   List.filter (fun e => invalid (snd e)) es).
Proof. unfold load_entries. now rewrite load_fold. Qed.

Lemma load_keeps k es : forall acc,
  ~ In k (map fst es) ->
  JSMap.get k (fst (fold_left load_entry es acc)) = JSMap.get k (fst acc).
Proof.
  induction es as [|[k' obj] es IH]; intros [m log] Hk; simpl; [reflexivity|].
  simpl in Hk. rewrite IH by tauto.
  destruct (invalid obj); simpl; [reflexivity|].
  apply JSMapFacts.get_set_other. intros ->. tauto.
Qed.

Lemma load_has_mono k es : forall acc,
  JSMap.has k (fst acc) = true ->
  JSMap.has k (fst (fold_left load_entry es acc)) = true.
Proof.
  induction es as [|[k' obj] es IH]; intros [m log] Hk; simpl; [exact Hk|].
  apply IH. destruct (invalid obj); simpl; [exact Hk|].
  rewrite JSMapFacts.has_set. simpl in Hk. rewrite Hk. apply orb_true_r.
Qed.

(** The record of the last entry under a key is the one the map holds. *)
Lemma load_last es1 k obj es2 :
  invalid obj = false -> ~ In k (map fst es2) ->
  JSMap.get k (fst (load_entries (es1 ++ (k, obj) :: es2)))
  = Some (rehydrate obj).
Proof.
  intros Hv Hk. unfold load_entries. rewrite fold_left_app. simpl.
  rewrite load_keeps by exact Hk.
  destruct (fold_left load_entry es1 (JSMap.empty, [])) as [m log].
  simpl. rewrite Hv. simpl. apply JSMapFacts.get_set_same.
Qed.

(** Every valid entry leaves a record under its key. *)
Lemma load_has es k obj :
  In (k, obj) es -> invalid obj = false ->
  JSMap.has k (fst (load_entries es)) = true.
Proof.
  intros Hin Hv. apply in_split in Hin as (es1 & es2 & ->).
  unfold load_entries. rewrite fold_left_app. simpl.
  apply load_has_mono.
  destruct (fold_left load_entry es1 (JSMap.empty, [])) as [m log].
  simpl. rewrite Hv. simpl. rewrite JSMapFacts.has_set.
  now rewrite str_eqb_refl.
Qed.

(** *** The loop at the declared types *)

(** What a typed reading of a record says of its properties. *)
Lemma typed_reading ms t :
  as_SerializedDownload (JObj ms) = Some t ->
  optional_item_prop ms = Some (SerializedDownload.item t) /\
  optional_string_prop "itemId" ms = Some (SerializedDownload.itemId t) /\
  optional_string_prop "serverId" ms = Some (SerializedDownload.serverId t) /\
  string_prop "serverUrl" ms = Some (SerializedDownload.serverUrl t) /\
  string_prop "apiKey" ms = Some (SerializedDownload.apiKey t) /\
  optional_string_prop "title" ms = Some (SerializedDownload.title t) /\
  string_prop "filename" ms = Some (SerializedDownload.filename t) /\
  optional_string_prop "extension" ms = Some (SerializedDownload.extension t) /\
  string_prop "downloadUrl" ms = Some (SerializedDownload.downloadUrl t) /\
  optional_bool_prop "isComplete" ms = Some (SerializedDownload.isComplete t) /\
  bool_prop "isNew" ms = Some (SerializedDownload.isNew t) /\
  optional_bool_prop "canPlay" ms = Some (SerializedDownload.canPlay t) /\
  optional_status_prop ms = Some (SerializedDownload.status t).
Proof.
  unfold as_SerializedDownload. intros H.
  destruct (optional_item_prop ms); [|discriminate].
  destruct (optional_string_prop "itemId" ms); [|discriminate].
  destruct (optional_string_prop "serverId" ms); [|discriminate].
  destruct (string_prop "serverUrl" ms); [|discriminate].
  destruct (string_prop "apiKey" ms); [|discriminate].
  destruct (optional_string_prop "title" ms); [|discriminate].
  destruct (string_prop "filename" ms); [|discriminate].
  destruct (optional_string_prop "extension" ms); [|discriminate].
  destruct (string_prop "downloadUrl" ms); [|discriminate].
  destruct (optional_bool_prop "isComplete" ms); [|discriminate].
  destruct (bool_prop "isNew" ms); [|discriminate].
  destruct (optional_bool_prop "canPlay" ms); [|discriminate].
  destruct (optional_status_prop ms); [|discriminate].
  injection H as <-. simpl. now repeat split.
Qed.

Lemma typed_is_object o t :
  as_SerializedDownload o = Some t -> exists ms, o = JObj ms.
Proof. destruct o; try discriminate. eauto. Qed.

Lemma optional_string_truthy k ms o :
  optional_string_prop k ms = Some o ->
  truthy (prop (js k) ms) = truthy_optional_string o /\
  as_optional_string (prop (js k) ms) = Some o.
Proof.
  unfold optional_string_prop.
  destruct (prop (js k) ms) as [[]|]; try discriminate;
    intros H; injection H as <-; now split.
Qed.

Lemma optional_item_truthy ms o :
  optional_item_prop ms = Some o ->
  match o with
  | Some i => exists v, prop (js "item") ms = Some v /\ truthy (Some v) = true /\
                        as_item v = Some i
  | None => prop (js "item") ms = None
  end.
Proof.
  unfold optional_item_prop.
  destruct (prop (js "item") ms) as [v|].
  - destruct (as_item v) as [i|] eqn:E; [|discriminate].
    intros H. injection H as <-. exists v. repeat split; [|exact E].
    destruct v; try discriminate. reflexivity.
  - intros H. now injection H as <-.
Qed.

(** On a record of the declared type the guard is the typed one. *)
Lemma lacks_identity_typed ms t :
  as_SerializedDownload (JObj ms) = Some t ->
  lacks_identity (JObj ms) = invalid t.
Proof.
  intros H. apply typed_reading in H as (Hi & Hid & Hsid & _).
  apply optional_item_truthy in Hi.
  apply optional_string_truthy in Hid as [Hid _].
  apply optional_string_truthy in Hsid as [Hsid _].
  unfold lacks_identity, invalid, member. rewrite Hid, Hsid.
  destruct (SerializedDownload.item t).
  - destruct Hi as (v & -> & -> & _). reflexivity.
  - rewrite Hi. reflexivity.
Qed.

Lemma status_of_inv s st : DownloadStatus_of s = Some st -> s = DownloadStatus_value st.
Proof.
  unfold DownloadStatus_of.
  destruct (str_eqb s (DownloadStatus_value Queued)) eqn:E1;
    [apply str_eqb_eq in E1; congruence|].
  destruct (str_eqb s (DownloadStatus_value Downloading)) eqn:E2;
    [apply str_eqb_eq in E2; congruence|].
  destruct (str_eqb s (DownloadStatus_value Complete)) eqn:E3;
    [apply str_eqb_eq in E3; congruence|].
  destruct (str_eqb s (DownloadStatus_value Failed)) eqn:E4;
    [apply str_eqb_eq in E4; congruence|discriminate].
Qed.

Lemma build_item ms t :
  as_SerializedDownload (JObj ms) = Some t -> invalid t = false ->
  typed_item (raw_item (build (JObj ms))) = Some (item (rehydrate t)).
Proof.
  intros H Hv.
  assert (item (rehydrate t) =
          match SerializedDownload.item t with
          | Some i => i
          | None => {| Id := non_null (SerializedDownload.itemId t);
                       ServerId := non_null (SerializedDownload.serverId t);
                       Name := SerializedDownload.title t |}
          end) as ->.
  { unfold rehydrate.
    destruct (SerializedDownload.status t) as [[]|];
      destruct (SerializedDownload.isComplete t) as [[]|]; reflexivity. }
  apply typed_reading in H as (Hi & Hid & Hsid & _ & _ & Hti & _).
  apply optional_item_truthy in Hi.
  unfold build, member. cbn [raw_item]. unfold invalid in Hv.
  destruct (SerializedDownload.item t) as [i|].
  - destruct Hi as (v & -> & -> & Hv'). exact Hv'.
  - rewrite Hi. cbn [negb andb] in Hv.
    apply optional_string_truthy in Hti as [_ Hti].
    unfold optional_string_prop in Hid, Hsid. simpl. rewrite Hti.
    destruct (prop (js "itemId") ms) as [[]|]; try discriminate;
      injection Hid as Hid; rewrite <- Hid in Hv; [|discriminate Hv].
    destruct (prop (js "serverId") ms) as [[]|]; try discriminate;
      injection Hsid as Hsid; rewrite <- Hsid in Hv.
    + rewrite <- Hid, <- Hsid. reflexivity.
    + cbn [truthy_optional_string negb] in Hv.
      now rewrite orb_true_r in Hv.
Qed.

Lemma build_status ms t :
  as_SerializedDownload (JObj ms) = Some t ->
  typed_status (raw_status (build (JObj ms))) = Some (status (rehydrate t)).
Proof.
  intros H.
  apply typed_reading in H
    as (_ & _ & _ & _ & _ & _ & _ & _ & _ & Hic & _ & _ & Hst).
  unfold build, member. cbn [raw_status].
  unfold optional_status_prop in Hst. unfold optional_bool_prop in Hic.
  assert (typed_status
            (if truthy (prop (js "isComplete") ms) then status_value Complete
             else status_value Queued)
          = Some (if truthy_optional_bool (SerializedDownload.isComplete t)
                  then Complete else Queued)) as Hlegacy.
  { destruct (prop (js "isComplete") ms) as [[| [] | | | |]|]; try discriminate;
      injection Hic as <-; reflexivity. }
  unfold rehydrate.
  destruct (prop (js "status") ms) as [[| | |s| |]|]; try discriminate.
  - destruct (DownloadStatus_of s) as [st|] eqn:E; [|discriminate].
    injection Hst as <-. apply status_of_inv in E. subst s.
    destruct st; reflexivity.
  - injection Hst as <-. rewrite Hlegacy. simpl.
    now destruct (truthy_optional_bool (SerializedDownload.isComplete t)).
Qed.

Lemma build_canPlay ms t :
  as_SerializedDownload (JObj ms) = Some t ->
  raw_canPlay (build (JObj ms)) = canPlay (rehydrate t).
Proof.
  intros H.
  apply typed_reading in H
    as (_ & _ & _ & _ & _ & _ & _ & _ & _ & _ & _ & Hcp & _).
  unfold build, member. cbn [raw_canPlay]. unfold optional_bool_prop in Hcp.
  unfold rehydrate.
  destruct (prop (js "canPlay") ms) as [[| b | | | |]|]; try discriminate;
    injection Hcp as <-;
    destruct (SerializedDownload.status t) as [[]|];
    destruct (SerializedDownload.isComplete t) as [[]|]; reflexivity.
Qed.

Lemma rehydrate_eta t :
  rehydrate t =
  {| item := item (rehydrate t);
     serverUrl := SerializedDownload.serverUrl t;
     apiKey := SerializedDownload.apiKey t;
     filename := SerializedDownload.filename t;
     downloadUrl := SerializedDownload.downloadUrl t;
     status := status (rehydrate t);
     canPlay := canPlay (rehydrate t);
     extension := SerializedDownload.extension t;
     isNew := SerializedDownload.isNew t |}.
Proof.
  unfold rehydrate.
  destruct (SerializedDownload.status t) as [[]|];
    destruct (SerializedDownload.isComplete t) as [[]|]; reflexivity.
Qed.

(** On a valid record of the declared type, the record built is the
    typed one. *)
Lemma build_typed ms t :
  as_SerializedDownload (JObj ms) = Some t -> invalid t = false ->
  typed_model (build (JObj ms)) = Some (rehydrate t).
Proof.
  intros H Hv. unfold typed_model.
  rewrite (build_item ms t H Hv), (build_status ms t H), (build_canPlay ms t H).
  apply typed_reading in H
    as (_ & _ & _ & Hsu & Hak & _ & Hfn & Hex & Hdu & _ & Hnw & _ & _).
  apply optional_string_truthy in Hex as [_ Hex].
  unfold build, member.
  cbn [raw_serverUrl raw_apiKey raw_filename raw_downloadUrl raw_extension
       raw_isNew].
  change (as_string (prop (js "serverUrl") ms)) with (string_prop "serverUrl" ms).
  change (as_string (prop (js "apiKey") ms)) with (string_prop "apiKey" ms).
  change (as_string (prop (js "filename") ms)) with (string_prop "filename" ms).
  change (as_string (prop (js "downloadUrl") ms))
    with (string_prop "downloadUrl" ms).
  change (typed_bool (prop (js "isNew") ms)) with (bool_prop "isNew" ms).
  rewrite Hsu, Hak, Hfn, Hdu, Hex, Hnw. now rewrite <- rehydrate_eta.
Qed.

Lemma callback_typed k o t :
  as_SerializedDownload o = Some t ->
  callback (JArr [JStr k; o]) =
  Some (if invalid t then Skip (JStr k, o) else Load k (build o)).
Proof.
  intros H. destruct (typed_is_object o t H) as [ms ->].
  unfold callback. cbn [destructure].
  rewrite (lacks_identity_typed ms t H). now destruct (invalid t).
Qed.

Lemma as_entry_inv v k t :
  as_entry v = Some (k, t) ->
  exists o, v = JArr [JStr k; o] /\ as_SerializedDownload o = Some t.
Proof.
  unfold as_entry.
  destruct v as [| | | |[|[| | |key| |] [|o [|]]]|]; try discriminate.
  destruct (as_SerializedDownload o) as [t'|] eqn:E; [|discriminate].
  intros H. injection H as -> ->. eauto.
Qed.

Lemma typed_map_set k r d : forall mr mt,
  typed_map mr = Some mt -> typed_model r = Some d ->
  typed_map (JSMap.set k r mr) = Some (JSMap.set k d mt).
Proof.
  induction mr as [|[k0 r0] mr IH]; intros mt Hm Hr; simpl in *.
  - injection Hm as <-. now rewrite Hr.
  - destruct (typed_model r0) as [d0|] eqn:E0; [|discriminate].
    destruct (typed_map mr) as [mt0|] eqn:Em; [|discriminate].
    injection Hm as <-. simpl. destruct (str_eqb k0 k); simpl.
    + now rewrite Hr, Em.
    + now rewrite E0, (IH mt0 eq_refl Hr).
Qed.

(** On an array of the declared type the loop is the typed one. *)
Lemma forEach_typed vs : forall es mr mt log,
  as_entries vs = Some es -> typed_map mr = Some mt ->
  exists mr' log',
    forEach vs mr log = Some (inr (mr', log')) /\
    typed_map mr' =
      Some (fold_left (fun m e => JSMap.set (fst e) (snd e) m)
              (map (fun e => (fst e, rehydrate (snd e)))
                   (List.filter (fun e => negb (invalid (snd e))) es)) mt) /\
    length log'
    = (length log + length (List.filter (fun e => invalid (snd e)) es))%nat.
Proof.
  induction vs as [|v vs IH]; intros es mr mt log Hes Hm.
  - injection Hes as <-. exists mr, log. simpl. repeat split; [exact Hm|lia].
  - simpl in Hes. destruct (as_entry v) as [[k t]|] eqn:Ev; [|discriminate].
    destruct (as_entries vs) as [es'|] eqn:Ees; [|discriminate].
    injection Hes as <-. apply as_entry_inv in Ev as (o & -> & Ho).
    cbn [forEach]. rewrite (callback_typed k o t Ho).
    cbn [List.filter map snd fst].
    destruct (invalid t) eqn:Hv; cbn [negb].
    + destruct (IH es' mr mt (log ++ [(JStr k, o)]) eq_refl Hm)
        as (mr' & log' & Hrun & Hmap & Hlen).
      exists mr', log'. split; [exact Hrun|]. split; [exact Hmap|].
      rewrite Hlen, length_app. simpl. lia.
    + destruct (typed_is_object o t Ho) as [ms ->].
      pose proof (typed_map_set k _ _ mr mt Hm (build_typed ms t Ho Hv)) as Hset.
      destruct (IH es' _ _ log eq_refl Hset) as (mr' & log' & Hrun & Hmap & Hlen).
      exists mr', log'. split; [exact Hrun|]. split; [exact Hmap|exact Hlen].
Qed.

(** *** The loop on entries of any shape *)

Lemma callback_decodes entry key obj :
  destructure entry = inr (Some (key, obj)) -> obj <> JNull ->
  callback entry =
  if lacks_identity obj then Some (Skip (key, obj))
  else match key with
       | JStr key => Some (Load key (build obj))
       | _ => None
       end.
Proof.
  intros Hd Hn. unfold callback. rewrite Hd. now destruct obj.
Qed.










(** [deserialize] on a text that has typed contents. *)
Lemma deserialize_contents s es v :
  contents s = Some (es, v) ->
  exists log,
    deserialize (Some s) =
    Some (Returns {| state := {| downloads := fst (load_entries es) |};
                     version := v |} log) /\
    length log = length (snd (load_entries es)).
Proof.
  unfold contents, deserialize, deserialize_raw.
  destruct (negb (truthy_string s)); [discriminate|].
  destruct (parse s) as [[| | | | |ms]|]; try discriminate.
  unfold deserialize_value. cbn [get member].
  destruct (prop (js "state") ms) as [[| | | | |st]|]; try discriminate.
  cbn [get].
  destruct (prop (js "downloads") st) as [[| | | |vs|]|]; try discriminate.
  destruct (as_entries vs) as [es'|] eqn:Ees; [|discriminate].
  destruct (as_version ms) as [v'|] eqn:Ev; [|discriminate].
  intros H. injection H as -> ->.
  destruct (forEach_typed vs es JSMap.empty JSMap.empty [] Ees eq_refl)
    as (mr' & log' & Hrun & Hmap & Hlen).
  exists log'. rewrite Hrun. cbn [typed]. rewrite Hmap.
  change (typed_version (prop (js "version") ms)) with (as_version ms).
  rewrite Ev, load_entries_split. split; [reflexivity|].
  simpl in Hlen |- *. exact Hlen.
Qed.

Lemma legacy_file_contents :
  contents Sample.legacy_file = Some (Sample.legacy_entries, Some (0, 0)%Z).
Proof. vm_compute. reflexivity. Qed.

(** *** Writing, then reading *)

Lemma setItem_truthy value : truthy_string (setItem value) = true.
Proof. reflexivity. Qed.

Lemma as_item_json i : as_item (item_json i) = Some i.
Proof. destruct i as [i s [n|]]; reflexivity. Qed.

Lemma status_of_value st : DownloadStatus_of (DownloadStatus_value st) = Some st.
Proof. destruct st; reflexivity. Qed.

Lemma as_written d : as_SerializedDownload (model_json d) = Some (written d).
Proof.
  destruct d as [[i s [n|]] su ak fn du st cp [ex|] nw];
    destruct st; reflexivity.
Qed.

Lemma as_entries_written (m : JSMap.t DownloadModel) :
  as_entries (map entry_json m) =
  Some (map (fun e => (fst e, written (snd e))) m).
Proof.
  induction m as [|[k d] m IH]; [reflexivity|].
  simpl map. unfold as_entries; fold as_entries. rewrite IH.
  unfold entry_json at 1, as_entry. simpl fst. simpl snd.
  now rewrite as_written.
Qed.

Lemma written_valid d : invalid (written d) = false.
Proof. reflexivity. Qed.

Lemma rehydrate_written d : rehydrate (written d) = reloaded d.
Proof. destruct d as [i su ak fn du [] cp ex nw]; reflexivity. Qed.

Lemma reloaded_at_rest d : status d <> Downloading -> reloaded d = d.
Proof.
  unfold reloaded. destruct (status d); simpl; congruence.
Qed.

Lemma load_written (m : JSMap.t DownloadModel) :
  JSMap.wf m ->
  load_entries (map (fun e => (fst e, written (snd e))) m) =
  (map (fun e => (fst e, reloaded (snd e))) m, []).
Proof.
  intros Hwf. rewrite load_entries_split. f_equal.
  - assert (forall l : JSMap.t DownloadModel,
              map (fun e => (fst e, rehydrate (snd e)))
                (List.filter (fun e => negb (invalid (snd e)))
                   (map (fun e => (fst e, written (snd e))) l))
              = map (fun e => (fst e, reloaded (snd e))) l) as ->.
    { induction l as [|[k d] l IH]; [reflexivity|].
      simpl. now rewrite IH, rehydrate_written. }
    apply (JSMapFacts.of_entries_entries
             (map (fun e => (fst e, reloaded (snd e))) m)).
    unfold JSMap.wf, JSMap.keys in *. rewrite map_map. simpl. exact Hwf.
  - induction m as [|[k d] l IH]; [reflexivity|]. simpl.
    apply IH. unfold JSMap.wf in *. simpl in Hwf.
    now apply NoDup_cons in Hwf as [_ Hwf].
Qed.

Lemma contents_setItem value :
  contents (setItem value) =
  Some (map (fun e => (fst e, written (snd e))) (downloads (state value)),
        version value).
Proof.
  unfold contents. rewrite setItem_truthy. simpl negb. cbv iota.
  unfold setItem. rewrite JSONFacts.parse_stringify.
  destruct value as [[m] [[vm ve]|]]; simpl;
    unfold JSMap.entries; now rewrite as_entries_written.
Qed.

(** What [deserialize] makes of what [setItem] wrote. *)
Lemma deserialize_setItem value :
  JSMap.wf (downloads (state value)) ->
  deserialize (Some (setItem value)) =
  Some (Returns
          {| state :=
               {| downloads :=
                    map (fun e => (fst e, reloaded (snd e)))
                        (downloads (state value)) |};
             version := version value |} []).
Proof.
  intros Hwf.
  destruct (deserialize_contents _ _ _ (contents_setItem value))
    as (log & -> & Hlen).
  rewrite load_written in Hlen |- * by exact Hwf.
  destruct log; [reflexivity|discriminate Hlen].
Qed.

Lemma deserialize_loads s es v :
  contents s = Some (es, v) ->
  exists value log,
    deserialize (Some s) = Some (Returns value log) /\
    downloads (state value) = fst (load_entries es) /\
    length log = length (snd (load_entries es)).
Proof.
  intros H. destruct (deserialize_contents s es v H) as (log & Hd & Hlen).
  eexists. exists log. split; [exact Hd|]. now split.
Qed.

Lemma at_rest_wf : JSMap.wf (downloads (state Sample.at_rest)).
Proof.
  unfold JSMap.wf. simpl.
  apply NoDup_cons. split; [|apply NoDup_singleton].
  intros H. apply list_elem_of_In in H. simpl in H.
  destruct H as [H|[]]. vm_compute in H. discriminate.
Qed.

Lemma in_flight_wf : JSMap.wf (downloads (state Sample.in_flight)).
Proof.
  unfold JSMap.wf. simpl.
  apply NoDup_cons. split; [|apply NoDup_singleton].
  intros H. apply list_elem_of_In in H. simpl in H.
  destruct H as [H|[]]. vm_compute in H. discriminate.
Qed.
End StorageFacts.

(** ** The adapter's properties *)

(** C2, as the code has it: what [deserialize] reads from the text
    [setItem] wrote is the collection that was written, pair for pair and
    in the same order, nothing skipped and nothing logged, except that a
    record written while [Downloading] comes back [Queued]; a collection
    with no record in that state comes back equal. *)
Theorem round_trip_requeues (value : Storage.StorageValue) :
  JSMap.wf (Storage.downloads (Storage.state value)) ->
  Storage.deserialize (Some (Storage.setItem value)) =
    Some (Storage.Returns
            {| Storage.state :=
                 {| Storage.downloads :=
                      map (fun e => (fst e, Storage.reloaded (snd e)))
                          (Storage.downloads (Storage.state value)) |};
               Storage.version := Storage.version value |} []) /\
  ((forall e, In e (Storage.downloads (Storage.state value)) ->
              status (snd e) <> Downloading) ->
   Storage.deserialize (Some (Storage.setItem value)) =
     Some (Storage.Returns value [])).
Proof.
  intros Hwf. split; [now apply StorageFacts.deserialize_setItem|].
  intros Hrest. rewrite StorageFacts.deserialize_setItem by exact Hwf.
  assert (map (fun e => (fst e, Storage.reloaded (snd e)))
              (Storage.downloads (Storage.state value))
          = Storage.downloads (Storage.state value)) as ->.
  { clear Hwf.
    induction (Storage.downloads (Storage.state value)) as [|[k d] m IH];
      [reflexivity|].
    simpl. rewrite StorageFacts.reloaded_at_rest
      by (apply (Hrest (k, d)); now left).
    f_equal. apply IH. intros e He. apply Hrest. now right. }
  now destruct value as [[m] v].
Qed.

Lemma round_trip_requeues_witness :
  JSMap.wf (Storage.downloads (Storage.state Sample.at_rest)) /\
  (forall e, In e (Storage.downloads (Storage.state Sample.at_rest)) ->
             status (snd e) <> Downloading) /\
  Storage.deserialize (Some (Storage.setItem Sample.at_rest)) =
    Some (Storage.Returns Sample.at_rest []).
Proof.
  split; [exact StorageFacts.at_rest_wf|].
  assert (forall e, In e (Storage.downloads (Storage.state Sample.at_rest)) ->
                    status (snd e) <> Downloading) as Hrest.
  { simpl. intros e [<-|[<-|[]]]; discriminate. }
  split; [exact Hrest|].
  exact (proj2 (round_trip_requeues Sample.at_rest StorageFacts.at_rest_wf) Hrest).
Defined.

(** C2 as stated fails: a store holding a record in state [Downloading]
    is written and read back, and the record read back is [Queued]; the
    collection is not the one that was written. *)
Lemma round_trip_counterexample :
  JSMap.wf (Storage.downloads (Storage.state Sample.in_flight)) /\
  JSMap.get (key Sample.d3) (Storage.downloads (Storage.state Sample.in_flight))
    = Some Sample.d3 /\
  status Sample.d3 = Downloading /\
  exists value log,
    Storage.deserialize (Some (Storage.setItem Sample.in_flight))
      = Some (Storage.Returns value log) /\
    JSMap.get (key Sample.d3) (Storage.downloads (Storage.state value))
      = Some (set_status Queued Sample.d3) /\
    Storage.downloads (Storage.state value)
      <> Storage.downloads (Storage.state Sample.in_flight).
Proof.
  split; [exact StorageFacts.in_flight_wf|].
  split; [reflexivity|]. split; [reflexivity|].
  eexists. eexists. split; [vm_compute; reflexivity|].
  split; [reflexivity|]. intros H. vm_compute in H. discriminate.
Qed.

(** C3. Rehydration downgrade: [deserialize] returns, and the record it
    holds for a valid entry (the last one under its key) has status
    [Queued] when the entry's status is [Downloading], [Complete] when the
    entry has no status and [isComplete] is [true], and the entry's status
    when that is any other. *)
Theorem rehydration_downgrade (s : jsstring)
    (es : list (jsstring * SerializedDownload.t)) (v : option (Z * Z)) :
  Storage.contents s = Some (es, v) ->
  exists value log,
    Storage.deserialize (Some s) = Some (Storage.Returns value log) /\
    forall es1 k obj es2,
      es = es1 ++ (k, obj) :: es2 ->
      Storage.invalid obj = false ->
      ~ In k (map fst es2) ->
      exists d,
        JSMap.get k (Storage.downloads (Storage.state value)) = Some d /\
        (SerializedDownload.status obj = Some Downloading -> status d = Queued) /\
        (SerializedDownload.status obj = None ->
         SerializedDownload.isComplete obj = Some true -> status d = Complete) /\
        (forall st, SerializedDownload.status obj = Some st ->
                    st <> Downloading -> status d = st).
Proof.
  intros Hs.
  destruct (StorageFacts.deserialize_loads s es v Hs) as (value & log & Hd & Hm & _).
  exists value, log. split; [exact Hd|].
  intros es1 k obj es2 -> Hv Hlast. exists (Storage.rehydrate obj).
  split; [rewrite Hm; now apply StorageFacts.load_last|].
  unfold Storage.rehydrate. repeat split.
  - intros ->. reflexivity.
  - intros -> ->. reflexivity.
  - intros st -> Hst. destruct st; try reflexivity. congruence.
Qed.

Lemma rehydration_downgrade_witness :
  Storage.contents Sample.legacy_file
    = Some (Sample.legacy_entries, Some (0, 0)%Z) /\
  exists value log,
    Storage.deserialize (Some Sample.legacy_file)
      = Some (Storage.Returns value log) /\
    (exists d, JSMap.get (js "srv_item1") (Storage.downloads (Storage.state value))
               = Some d /\ status d = Queued) /\
    (exists d, JSMap.get (js "srv_item2") (Storage.downloads (Storage.state value))
               = Some d /\ status d = Complete).
Proof.
  split; [exact StorageFacts.legacy_file_contents|].
  destruct (rehydration_downgrade _ _ _ StorageFacts.legacy_file_contents)
    as (value & log & Hd & Hrec).
  exists value, log. split; [exact Hd|]. split.
  - destruct (Hrec [] (js "srv_item1") _ (skipn 1 Sample.legacy_entries)
                eq_refl eq_refl) as (d & Hget & Hq & _).
    + simpl. intros [H|[H|[]]]; vm_compute in H; discriminate.
    + exists d. split; [exact Hget|]. now apply Hq.
  - destruct (Hrec (firstn 2 Sample.legacy_entries) (js "srv_item2") _ []
                eq_refl eq_refl) as (d & Hget & _ & Hc & _).
    + simpl. tauto.
    + exists d. split; [exact Hget|]. now apply Hc.
Defined.

(** C4, as the code has it: [deserialize] returns the empty initial state
    for [null] and for the empty string (which is no JSON text either);
    for any other string that is not parseable as JSON the [SyntaxError]
    of [JSON.parse] leaves [deserialize]. *)
Theorem unparseable_throws :
  Storage.deserialize None =
    Some (Storage.Returns {| Storage.state := Storage.initialState;
                             Storage.version := None |} []) /\
  (JSON.parse [] = None /\
   Storage.deserialize (Some []) =
     Some (Storage.Returns {| Storage.state := Storage.initialState;
                              Storage.version := None |} [])) /\
  (forall s, s <> [] -> JSON.parse s = None ->
     Storage.deserialize (Some s) = Some (Storage.Throws Storage.SyntaxError)).
Proof.
  split; [reflexivity|]. split; [split; reflexivity|].
  intros s Hs Hp. unfold Storage.deserialize.
  destruct s as [|c s]; [congruence|]. simpl. now rewrite Hp.
Qed.

Lemma unparseable_throws_witness :
  js "{" <> [] /\ JSON.parse (js "{") = None /\
  Storage.deserialize (Some (js "{"))
    = Some (Storage.Throws Storage.SyntaxError).
Proof.
  split; [discriminate|]. split; [reflexivity|].
  apply (proj2 (proj2 unparseable_throws)); [discriminate|reflexivity].
Defined.

(** C4 as stated fails: the text of a lone opening brace is not parseable
    as JSON, and [deserialize] does not return a state for it, it
    throws. *)
Lemma corrupt_file_counterexample :
  JSON.parse (js "{") = None /\
  Storage.deserialize (Some (js "{"))
    = Some (Storage.Throws Storage.SyntaxError) /\
  forall value log,
    Storage.deserialize (Some (js "{")) <> Some (Storage.Returns value log).
Proof.
  split; [reflexivity|]. split; [reflexivity|].
  intros value log H. vm_compute in H. discriminate.
Qed.




(** C8. canPlay default: [deserialize] returns, and the record it holds
    for a valid entry (the last one under its key) has the entry's
    [canPlay] when the entry has one, and [true] when it has none. *)
Theorem canPlay_default (s : jsstring)
    (es : list (jsstring * SerializedDownload.t)) (v : option (Z * Z)) :
  Storage.contents s = Some (es, v) ->
  exists value log,
    Storage.deserialize (Some s) = Some (Storage.Returns value log) /\
    forall es1 k obj es2,
      es = es1 ++ (k, obj) :: es2 ->
      Storage.invalid obj = false ->
      ~ In k (map fst es2) ->
      exists d,
        JSMap.get k (Storage.downloads (Storage.state value)) = Some d /\
        (forall b, SerializedDownload.canPlay obj = Some b -> canPlay d = b) /\
        (SerializedDownload.canPlay obj = None -> canPlay d = true).
Proof.
  intros Hs.
  destruct (StorageFacts.deserialize_loads s es v Hs) as (value & log & Hd & Hm & _).
  exists value, log. split; [exact Hd|].
  intros es1 k obj es2 -> Hv Hlast. exists (Storage.rehydrate obj).
  split; [rewrite Hm; now apply StorageFacts.load_last|].
  unfold Storage.rehydrate. simpl. split.
  - intros b ->. reflexivity.
  - intros ->. reflexivity.
Qed.

Lemma canPlay_default_witness :
  Storage.contents Sample.legacy_file
    = Some (Sample.legacy_entries, Some (0, 0)%Z) /\
  exists value log,
    Storage.deserialize (Some Sample.legacy_file)
      = Some (Storage.Returns value log) /\
    (exists d, JSMap.get (js "srv_item1") (Storage.downloads (Storage.state value))
               = Some d /\ canPlay d = true) /\
    (exists d, JSMap.get (js "srv_item2") (Storage.downloads (Storage.state value))
               = Some d /\ canPlay d = false).
Proof.
  split; [exact StorageFacts.legacy_file_contents|].
  destruct (canPlay_default _ _ _ StorageFacts.legacy_file_contents)
    as (value & log & Hd & Hrec).
  exists value, log. split; [exact Hd|]. split.
  - destruct (Hrec [] (js "srv_item1") _ (skipn 1 Sample.legacy_entries)
                eq_refl eq_refl) as (d & Hget & _ & Hnone).
    + simpl. intros [H|[H|[]]]; vm_compute in H; discriminate.
    + exists d. split; [exact Hget|]. now apply Hnone.
  - destruct (Hrec (firstn 2 Sample.legacy_entries) (js "srv_item2") _ []
                eq_refl eq_refl) as (d & Hget & Hsome & _).
    + simpl. tauto.
    + exists d. split; [exact Hget|]. now apply Hsome.
Defined.

(** * Further properties *)

(** ** More on maps *)

Module JSMapMore.
Section More.
Context {V : Type}.
Implicit Types (m : JSMap.t V) (k : jsstring) (v : V).

Lemma set_set k v v' m : JSMap.set k v' (JSMap.set k v m) = JSMap.set k v' m.
Proof.
  induction m as [|[k0 v0] m IH]; simpl.
  - now rewrite str_eqb_refl.
  - destruct (str_eqb k0 k) eqn:E; simpl; rewrite E; [reflexivity|].
    now rewrite IH.
Qed.

Lemma length_set_present k v m :
  JSMap.has k m = true -> length (JSMap.set k v m) = length m.
Proof.
  intros H. rewrite <- (length_map fst (JSMap.set k v m)), <- (length_map fst m).
  change (length (JSMap.keys (JSMap.set k v m)) = length (JSMap.keys m)).
  now rewrite JSMapFacts.keys_set_present.
Qed.

Lemma delete_appended k v m :
  JSMap.has k m = false -> JSMap.delete k (m ++ [(k, v)]) = (true, m).
Proof.
  induction m as [|[k0 v0] m IH]; simpl.
  - now rewrite str_eqb_refl.
  - destruct (str_eqb k0 k); [discriminate|]. intros H. now rewrite IH.
Qed.

(** On a map, [delete] takes out the one pair under the key. *)
Lemma delete_filter k m :
  JSMap.wf m ->
  snd (JSMap.delete k m) = List.filter (fun e => negb (str_eqb (fst e) k)) m.
Proof.
  unfold JSMap.wf. induction m as [|[k0 v0] m IH]; simpl; [reflexivity|].
  intros Hwf. apply NoDup_cons in Hwf as [Hni Hwf].
  destruct (str_eqb k0 k) eqn:E; simpl.
  - apply str_eqb_eq in E. subst k0.
    assert (JSMap.has k m = false) as Habs.
    { apply JSMapFacts.has_false_In. intros Hin. apply Hni.
      now apply list_elem_of_In. }
    clear - Habs. induction m as [|[k1 v1] m IH]; simpl in *; [reflexivity|].
    destruct (str_eqb k1 k); [discriminate|]. simpl. f_equal. now apply IH.
  - specialize (IH Hwf). destruct (JSMap.delete k m) as [b r]. simpl in *.
    now rewrite IH.
Qed.

Lemma length_delete_present k m :
  JSMap.has k m = true ->
  S (length (snd (JSMap.delete k m))) = length m.
Proof.
  induction m as [|[k0 v0] m IH]; simpl; [discriminate|].
  destruct (str_eqb k0 k); [reflexivity|]. intros H. specialize (IH H).
  destruct (JSMap.delete k m) as [b r]. simpl in *. now rewrite IH.
Qed.

Lemma get_delete_other k k' m :
  k' <> k -> JSMap.get k' (snd (JSMap.delete k m)) = JSMap.get k' m.
Proof.
  intros Hne. induction m as [|[k0 v0] m IH]; simpl; [reflexivity|].
  destruct (str_eqb k0 k) eqn:E.
  - apply str_eqb_eq in E. subst k0. simpl.
    assert (str_eqb k k' = false) as -> by (apply str_eqb_neq; congruence).
    reflexivity.
  - destruct (JSMap.delete k m) as [b r]. simpl in *. now rewrite IH.
Qed.

Lemma has_fold_set (es : list (jsstring * V)) k : forall m,
  JSMap.has k (fold_left (fun m e => JSMap.set (fst e) (snd e) m) es m)
  = JSMap.has k m || existsb (fun e => str_eqb (fst e) k) es.
Proof.
  induction es as [|[k0 v0] es IH]; intros m; simpl.
  - now rewrite orb_false_r.
  - rewrite IH, JSMapFacts.has_set. simpl.
    destruct (JSMap.has k m), (str_eqb k0 k); reflexivity.
Qed.

(** A key is in [new Map(entries)] exactly when an entry carries it. *)
Lemma has_of_entries (es : list (jsstring * V)) k :
  JSMap.has k (JSMap.of_entries es) = existsb (fun e => str_eqb (fst e) k) es.
Proof. unfold JSMap.of_entries. now rewrite has_fold_set. Qed.

Lemma length_fold_set (es : list (jsstring * V)) : forall m,
  (length (fold_left (fun m e => JSMap.set (fst e) (snd e) m) es m)
   <= length m + length es)%nat.
Proof.
  induction es as [|[k0 v0] es IH]; intros m; simpl; [lia|].
  specialize (IH (JSMap.set k0 v0 m)).
  assert (length (JSMap.set k0 v0 m) <= S (length m))%nat.
  { destruct (JSMap.has k0 m) eqn:E.
    - rewrite length_set_present by exact E. lia.
    - rewrite JSMapFacts.set_absent by exact E. rewrite length_app. simpl. lia. }
  lia.
Qed.

Lemma wf_filter (f : jsstring * V -> bool) m :
  JSMap.wf m -> JSMap.wf (List.filter f m).
Proof.
  unfold JSMap.wf, JSMap.keys.
  induction m as [|[k x] l IH]; simpl; [intros; apply NoDup_nil_2|].
  intros H. apply NoDup_cons in H as [Hni H].
  destruct (f (k, x)); [|now apply IH].
  simpl. apply NoDup_cons. split; [|now apply IH].
  intros Hin. apply Hni. apply list_elem_of_In in Hin. apply list_elem_of_In.
  apply in_map_iff in Hin as ([k' x'] & <- & Hin).
  apply List.filter_In in Hin as [Hin _]. apply in_map_iff. now exists (k', x').
Qed.

Lemma get_filter_key k m :
  JSMap.get k (List.filter (fun e => str_eqb k (fst e)) m) = JSMap.get k m.
Proof.
  induction m as [|[k0 x] m IH]; [reflexivity|]. cbn [List.filter fst].
  destruct (str_eqb k k0) eqn:E.
  - apply str_eqb_eq in E. subst k0. simpl. now rewrite str_eqb_refl.
  - simpl. assert (str_eqb k0 k = false) as ->; [|exact IH].
    apply str_eqb_neq. apply str_eqb_neq in E. congruence.
Qed.

Lemma has_filter_other k k' m :
  k' <> k ->
  JSMap.has k' (List.filter (fun e => str_eqb k (fst e)) m) = false.
Proof.
  intros Hk. apply JSMapFacts.has_false_In. intros Hin.
  apply in_map_iff in Hin as ([k0 x] & <- & Hin).
  apply List.filter_In in Hin as [_ Hin]. simpl in *.
  apply str_eqb_eq in Hin. congruence.
Qed.

Lemma head_not_key k k0 v0 v m1 m2 :
  JSMap.wf ((k0, v0) :: m1 ++ (k, v) :: m2) -> str_eqb k0 k = false.
Proof.
  unfold JSMap.wf, JSMap.keys. simpl. intros Hwf.
  apply NoDup_cons in Hwf as [Hni _]. apply str_eqb_neq. intros ->.
  apply Hni, list_elem_of_In. rewrite map_app. apply in_or_app. right. now left.
Qed.

Lemma wf_tail k0 v0 m : JSMap.wf ((k0, v0) :: m) -> JSMap.wf m.
Proof.
  unfold JSMap.wf, JSMap.keys. simpl. intros Hwf.
  now apply NoDup_cons in Hwf as [_ Hwf].
Qed.

(** On a map, [set] under a key that is there replaces the record where
    it stands. *)
Lemma set_at k v v0 m1 m2 :
  JSMap.wf (m1 ++ (k, v0) :: m2) ->
  JSMap.set k v (m1 ++ (k, v0) :: m2) = m1 ++ (k, v) :: m2.
Proof.
  induction m1 as [|[k1 v1] m1 IH]; intros Hwf; simpl.
  - now rewrite str_eqb_refl.
  - rewrite (head_not_key _ _ _ _ _ _ Hwf).
    now rewrite IH by exact (wf_tail _ _ _ Hwf).
Qed.

(** On a map, [delete] takes the pair out where it stands. *)
Lemma delete_at k v0 m1 m2 :
  JSMap.wf (m1 ++ (k, v0) :: m2) ->
  JSMap.delete k (m1 ++ (k, v0) :: m2) = (true, m1 ++ m2).
Proof.
  induction m1 as [|[k1 v1] m1 IH]; intros Hwf; simpl.
  - now rewrite str_eqb_refl.
  - rewrite (head_not_key _ _ _ _ _ _ Hwf).
    now rewrite IH by exact (wf_tail _ _ _ Hwf).
Qed.
End More.
End JSMapMore.

(** ** More on the actions *)

Module StoreMore.
Import Store.

Lemma add_absent_registry w d m :
  registry w m -> JSMap.has (key d) m = false ->
  exists w', add d w = Some (Undefined, w') /\
    registry w' (m ++ [(key d, d)]) /\
    trace w' = trace w ++ [Commit (state w')].
Proof.
  intros [Hcur Hwf] Habs.
  pose proof (StoreFacts.add_absent w d m Hcur Habs) as Hadd.
  rewrite JSMapFacts.of_entries_entries, JSMapFacts.set_absent in Hadd
    by assumption.
  eexists. split; [exact Hadd|]. simpl. split; [|reflexivity].
  split; [apply StoreFacts.lookup_alloc|].
  rewrite <- JSMapFacts.set_absent by exact Habs. now apply JSMapFacts.wf_set.
Qed.

Lemma update_registry w d m :
  registry w m ->
  exists w', update d w = Some (Undefined, w') /\
    registry w' (JSMap.set (key d) d m) /\
    heap w' = heap w ++ [JSMap.set (key d) d m] /\
    trace w' = trace w ++ [Commit (state w')].
Proof.
  intros [Hcur Hwf]. eexists. split; [now apply (StoreFacts.update_run w d m)|].
  rewrite JSMapFacts.of_entries_entries by exact Hwf. simpl.
  split; [|now split]. split; [apply StoreFacts.lookup_alloc|].
  now apply JSMapFacts.wf_set.
Qed.

Lemma delete_registry w d m :
  registry w m ->
  exists w', delete d w = Some (Boolean (JSMap.has (key d) m), w') /\
    registry w' (snd (JSMap.delete (key d) m)) /\
    heap w' = heap w ++ [snd (JSMap.delete (key d) m)] /\
    (length (trace w') <= S (length (trace w)))%nat.
Proof.
  intros [Hcur Hwf].
  pose proof (StoreFacts.delete_run w d m Hcur) as Hrun. cbv zeta in Hrun.
  rewrite JSMapFacts.of_entries_entries in Hrun by exact Hwf.
  destruct (JSMap.has (key d) m) eqn:E.
  - rewrite (JSMapFacts.delete_present _ _ E) in Hrun.
    eexists. split; [exact Hrun|]. simpl. split; [|split; [reflexivity|]].
    + split; [apply StoreFacts.lookup_alloc|now apply JSMapFacts.wf_delete].
    + rewrite length_app. simpl. lia.
  - rewrite (JSMapFacts.delete_absent _ _ E) in Hrun. simpl in Hrun.
    eexists. split; [exact Hrun|]. simpl.
    rewrite (JSMapFacts.delete_absent _ _ E). simpl.
    split; [|split; [reflexivity|lia]].
    split; [|exact Hwf]. unfold current in *. simpl.
    now apply StoreFacts.lookup_old.
Qed.

Lemma add_registry w d m :
  registry w m ->
  exists w' m' h, add d w = Some (Undefined, w') /\ registry w' m' /\
    heap w' = heap w ++ h /\
    (length (trace w') <= S (length (trace w)))%nat.
Proof.
  intros [Hcur Hwf]. destruct (JSMap.has (key d) m) eqn:E.
  - exists w, m, []. split; [now apply (StoreFacts.add_present w d m)|].
    split; [now split|]. rewrite app_nil_r. split; [reflexivity|lia].
  - eexists _, _, [_]. split; [now apply (StoreFacts.add_absent w d m)|].
    simpl. split; [|split; [reflexivity|]].
    + split; [apply StoreFacts.lookup_alloc|].
      apply JSMapFacts.wf_set, JSMapFacts.wf_of_entries.
    + rewrite length_app. simpl. lia.
Qed.

Lemma perform_registry a w m :
  registry w m ->
  exists r w' m' h, perform a w = Some (r, w') /\ registry w' m' /\
    heap w' = heap w ++ h /\
    (length (trace w') <= S (length (trace w)))%nat.
Proof.
  intros Hreg. destruct a as [d|d|d|]; simpl.
  - destruct (add_registry w d m Hreg) as (w' & m' & h & H1 & H2 & H3 & H4).
    now exists Undefined, w', m', h.
  - destruct (update_registry w d m Hreg) as (w' & H1 & H2 & H3 & H4).
    exists Undefined, w', (JSMap.set (key d) d m), [JSMap.set (key d) d m].
    repeat split; try assumption; try apply H2.
    rewrite H4, length_app. simpl. lia.
  - destruct (delete_registry w d m Hreg) as (w' & H1 & H2 & H3 & H4).
    eexists _, w', _, [_]. repeat split; try eassumption; apply H2.
  - eexists _, _, JSMap.empty, [_]. split; [apply StoreFacts.reset_run|].
    simpl. split; [|split; [reflexivity|]].
    + split; [apply StoreFacts.lookup_alloc|apply JSMapFacts.wf_empty].
    + rewrite length_app. simpl. lia.
Qed.

Lemma count_run w m :
  current w = Some m ->
  getNewDownloadCount w
  = Some (length (List.filter (fun d => isNew d) (JSMap.values m)), w).
Proof.
  unfold current, getNewDownloadCount, Map_values, deref, bind, ret, _get.
  simpl. intros ->. reflexivity.
Qed.

Lemma w1_has_d2 :
  JSMap.has (key Sample.d2) [(key Sample.d1, Sample.d1)] = false.
Proof. reflexivity. Qed.

Lemma registry_w2 :
  registry Sample.w2 [(key Sample.d1, Sample.d1); (key Sample.d2, Sample.d2)].
Proof.
  split; [reflexivity|]. unfold JSMap.wf. simpl.
  apply NoDup_cons. split; [|apply NoDup_singleton].
  intros H. apply list_elem_of_In in H. simpl in H.
  destruct H as [H|[]]. vm_compute in H. discriminate.
Qed.

(** What [update] leaves of the world. *)
Lemma update_world w d m :
  registry w m ->
  update d w =
  Some (Undefined,
        {| heap := heap w ++ [JSMap.set (key d) d m];
           state := {| downloads := length (heap w) |};
           trace := trace w ++ [Commit {| downloads := length (heap w) |}] |}).
Proof.
  intros [Hcur Hwf]. rewrite (StoreFacts.update_run w d m Hcur).
  now rewrite JSMapFacts.of_entries_entries by exact Hwf.
Qed.

(** What [delete] leaves of the world when the key is there. *)
Lemma delete_world w d m :
  registry w m -> JSMap.has (key d) m = true ->
  delete d w =
  Some (Boolean true,
        {| heap := heap w ++ [snd (JSMap.delete (key d) m)];
           state := {| downloads := length (heap w) |};
           trace := trace w ++ [Commit {| downloads := length (heap w) |}] |}).
Proof.
  intros [Hcur Hwf] Hhas.
  pose proof (StoreFacts.delete_run w d m Hcur) as Hrun. cbv zeta in Hrun.
  rewrite JSMapFacts.of_entries_entries in Hrun by exact Hwf.
  now rewrite (JSMapFacts.delete_present _ _ Hhas) in Hrun.
Qed.
End StoreMore.

(** X1. [update] is an upsert that keeps the place: it always commits,
    once, a state whose map it has allocated itself, at a location the
    heap did not have, and the map of the previous state stays as it was;
    in the new map the record under the key is the one given and every
    other key reads as before; a key that was present keeps its place
    (the record is replaced where it stands, so the keys and their order
    are unchanged), a key that was absent is appended. *)
Theorem update_upserts (w : Store.World) (m : JSMap.t DownloadModel)
    (d : DownloadModel) :
  Store.registry w m ->
  exists w' m',
    Store.update d w = Some (Store.Undefined, w') /\
    Store.registry w' m' /\
    Store.trace w' = Store.trace w ++ [Store.Commit (Store.state w')] /\
    Store.heap w' = Store.heap w ++ [m'] /\
    Store.downloads (Store.state w') = length (Store.heap w) /\
    Store.heap w !! Store.downloads (Store.state w') = None /\
    Store.heap w' !! Store.downloads (Store.state w) = Some m /\
    JSMap.get (key d) m' = Some d /\
    (forall k, k <> key d -> JSMap.get k m' = JSMap.get k m) /\
    (JSMap.has (key d) m = true -> JSMap.keys m' = JSMap.keys m) /\
    (forall m1 d0 m2, m = m1 ++ (key d, d0) :: m2 ->
       m' = m1 ++ (key d, d) :: m2) /\
    (JSMap.has (key d) m = false -> m' = m ++ [(key d, d)]).
Proof.
  intros Hreg. pose proof Hreg as [Hcur Hwf].
  eexists. exists (JSMap.set (key d) d m).
  split; [exact (StoreMore.update_world w d m Hreg)|]. cbn.
  split; [split; [apply StoreFacts.lookup_alloc|now apply JSMapFacts.wf_set]|].
  split; [reflexivity|]. split; [reflexivity|]. split; [reflexivity|].
  split; [apply lookup_ge_None; lia|].
  split; [now apply StoreFacts.lookup_old|].
  split; [apply JSMapFacts.get_set_same|].
  split; [intros k Hk; now apply JSMapFacts.get_set_other|].
  split; [apply JSMapFacts.keys_set_present|].
  split; [|apply JSMapFacts.set_absent].
  intros m1 d0 m2 ->. now apply JSMapMore.set_at.
Qed.

Lemma update_upserts_witness :
  Store.registry Sample.w2
    [(key Sample.d1, Sample.d1); (key Sample.d2, Sample.d2)] /\
  key Sample.d3 = key Sample.d2 /\ Sample.d3 <> Sample.d2 /\
  exists w' m',
    Store.update Sample.d3 Sample.w2 = Some (Store.Undefined, w') /\
    Store.registry w' m' /\
    m' = [(key Sample.d1, Sample.d1); (key Sample.d2, Sample.d3)] /\
    JSMap.get (key Sample.d1) m' = Some Sample.d1 /\
    Store.heap w' =
      [ [(key Sample.d1, Sample.d1); (key Sample.d2, Sample.d2)]; m' ] /\
    Store.state w' = {| Store.downloads := 1%nat |} /\
    Store.trace w' = [Store.Commit {| Store.downloads := 1%nat |}].
Proof.
  split; [exact StoreMore.registry_w2|]. split; [reflexivity|].
  split; [discriminate|].
  destruct (update_upserts Sample.w2 _ Sample.d3 StoreMore.registry_w2)
    as (w' & m' & Hrun & Hreg & Htr & Hheap & Hloc & _ & _ & _ & Hother & _
        & Hat & _).
  exists w', m'. split; [exact Hrun|]. split; [exact Hreg|].
  pose proof (Hat [(key Sample.d1, Sample.d1)] Sample.d2 [] eq_refl) as Hm.
  split; [exact Hm|].
  split; [rewrite Hother; [reflexivity|]; intros H; vm_compute in H;
          discriminate|].
  split; [exact Hheap|].
  assert (Store.state w' = {| Store.downloads := 1%nat |}) as Hst
    by (destruct (Store.state w'); simpl in Hloc; now rewrite Hloc).
  split; [exact Hst|]. now rewrite Htr, Hst.
Defined.

(** X2. Last write wins: two [update] calls in a row for the same key
    leave the collection the second call alone would have left. *)
Theorem update_last_write_wins (w : Store.World) (m : JSMap.t DownloadModel)
    (d d' : DownloadModel) :
  Store.registry w m -> key d = key d' ->
  exists w1 w2 w3,
    Store.update d w = Some (Store.Undefined, w1) /\
    Store.update d' w1 = Some (Store.Undefined, w2) /\
    Store.update d' w = Some (Store.Undefined, w3) /\
    Store.current w2 = Store.current w3.
Proof.
  intros Hreg Hk.
  destruct (StoreMore.update_registry w d m Hreg) as (w1 & H1 & Hreg1 & _).
  destruct (StoreMore.update_registry w1 d' _ Hreg1) as (w2 & H2 & [Hc2 _] & _).
  destruct (StoreMore.update_registry w d' m Hreg) as (w3 & H3 & [Hc3 _] & _).
  exists w1, w2, w3. repeat split; try assumption.
  rewrite Hc2, Hc3, Hk. now rewrite JSMapMore.set_set.
Qed.

Lemma update_last_write_wins_witness :
  Store.registry Sample.w1 [(key Sample.d1, Sample.d1)] /\
  key Sample.d1 = key Sample.d1' /\
  exists w1 w2 w3,
    Store.update Sample.d1 Sample.w1 = Some (Store.Undefined, w1) /\
    Store.update Sample.d1' w1 = Some (Store.Undefined, w2) /\
    Store.update Sample.d1' Sample.w1 = Some (Store.Undefined, w3) /\
    Store.current w2 = Store.current w3.
Proof.
  split; [exact StoreFacts.registry_w1|]. split; [reflexivity|].
  exact (update_last_write_wins Sample.w1 _ Sample.d1 Sample.d1'
           StoreFacts.registry_w1 eq_refl).
Defined.

(** X3. [add] then [delete]: after a record is added under a key that was
    absent, deleting it evaluates to [true] and the collection is the one
    before the [add]. *)
Theorem add_then_delete (w : Store.World) (m : JSMap.t DownloadModel)
    (d : DownloadModel) :
  Store.registry w m -> JSMap.has (key d) m = false ->
  exists w1 w2,
    Store.add d w = Some (Store.Undefined, w1) /\
    Store.delete d w1 = Some (Store.Boolean true, w2) /\
    Store.current w2 = Some m.
Proof.
  intros Hreg Habs.
  destruct (StoreMore.add_absent_registry w d m Hreg Habs) as (w1 & Hadd & Hreg1 & _).
  destruct (StoreMore.delete_registry w1 d _ Hreg1) as (w2 & Hdel & [Hcur2 _] & _).
  rewrite JSMapFacts.has_app in Hdel. simpl in Hdel.
  rewrite str_eqb_refl, orb_true_r in Hdel.
  rewrite JSMapMore.delete_appended in Hcur2 by exact Habs.
  now exists w1, w2.
Qed.

Lemma add_then_delete_witness :
  Store.registry Sample.w1 [(key Sample.d1, Sample.d1)] /\
  JSMap.has (key Sample.d2) [(key Sample.d1, Sample.d1)] = false /\
  exists w1 w2,
    Store.add Sample.d2 Sample.w1 = Some (Store.Undefined, w1) /\
    Store.delete Sample.d2 w1 = Some (Store.Boolean true, w2) /\
    Store.current w2 = Some [(key Sample.d1, Sample.d1)].
Proof.
  split; [exact StoreFacts.registry_w1|]. split; [reflexivity|].
  exact (add_then_delete Sample.w1 _ Sample.d2 StoreFacts.registry_w1 eq_refl).
Defined.

(** X4. [reset] clears whatever the store holds, from any state: it
    installs a new empty map and commits, also when the collection was
    empty already; right after it the count of new downloads is 0, and a
    [delete] of any record evaluates to [false] and commits nothing. *)
Theorem reset_clears (w : Store.World) :
  exists w',
    Store.reset w = Some (Store.Undefined, w') /\
    Store.current w' = Some JSMap.empty /\
    Store.heap w !! Store.downloads (Store.state w') = None /\
    Store.trace w' = Store.trace w ++ [Store.Commit (Store.state w')] /\
    Store.getNewDownloadCount w' = Some (0%nat, w') /\
    forall d, exists w'',
      Store.delete d w' = Some (Store.Boolean false, w'') /\
      Store.state w'' = Store.state w' /\ Store.trace w'' = Store.trace w'.
Proof.
  eexists. split; [apply StoreFacts.reset_run|].
  assert (Store.current
            {| Store.heap := Store.heap w ++ [JSMap.empty];
               Store.state := {| Store.downloads := length (Store.heap w) |};
               Store.trace := Store.trace w ++
                 [Store.Commit {| Store.downloads := length (Store.heap w) |}] |}
          = Some JSMap.empty) as Hcur
    by (unfold Store.current; simpl; apply StoreFacts.lookup_alloc).
  split; [exact Hcur|]. simpl.
  split; [apply lookup_ge_None; lia|]. split; [reflexivity|].
  split; [now rewrite (StoreMore.count_run _ _ Hcur)|].
  intros d. pose proof (StoreFacts.delete_run _ d _ Hcur) as Hdel.
  cbv zeta in Hdel. simpl in Hdel. eexists. split; [exact Hdel|]. now split.
Qed.

(** X5. [getNewDownloadCount] reads and changes nothing: it evaluates to
    the number of records whose [isNew] is set, which is at most the size
    of the collection, and leaves the world as it was; after an [add]
    under a key that was absent the count is one more when the record
    added is new and the same otherwise. *)
Theorem new_download_count (w : Store.World) (m : JSMap.t DownloadModel)
    (d : DownloadModel) :
  Store.registry w m ->
  let n := length (List.filter (fun r => isNew r) (JSMap.values m)) in
  Store.getNewDownloadCount w = Some (n, w) /\
  (n <= JSMap.size m)%nat /\
  (JSMap.has (key d) m = false ->
   exists w', Store.add d w = Some (Store.Undefined, w') /\
     Store.getNewDownloadCount w'
     = Some ((n + if isNew d then 1 else 0)%nat, w')).
Proof.
  intros Hreg n. subst n. split; [apply StoreMore.count_run, Hreg|]. split.
  - unfold JSMap.size, JSMap.values. rewrite <- (length_map snd m).
    apply List.filter_length_le.
  - intros Habs.
    destruct (StoreMore.add_absent_registry w d m Hreg Habs)
      as (w' & Hadd & [Hcur _] & _).
    exists w'. split; [exact Hadd|].
    rewrite (StoreMore.count_run _ _ Hcur). do 2 f_equal.
    unfold JSMap.values. rewrite map_app, List.filter_app, length_app. simpl.
    now destruct (isNew d).
Qed.

Lemma new_download_count_witness :
  Store.registry Sample.w1 [(key Sample.d1, Sample.d1)] /\
  JSMap.has (key Sample.d2) [(key Sample.d1, Sample.d1)] = false /\
  Store.getNewDownloadCount Sample.w1 = Some (1%nat, Sample.w1) /\
  exists w', Store.add Sample.d2 Sample.w1 = Some (Store.Undefined, w') /\
    Store.getNewDownloadCount w' = Some (2%nat, w').
Proof.
  split; [exact StoreFacts.registry_w1|]. split; [reflexivity|].
  destruct (new_download_count Sample.w1 _ Sample.d2 StoreFacts.registry_w1)
    as (Hn & _ & Hadd).
  split; [exact Hn|]. exact (Hadd eq_refl).
Defined.

(** X6. Any sequence of [add], [update], [delete] and [reset] calls runs
    to the end from a registry state and ends in one: the state refers to
    an allocated map whose keys are unique; the heap has only grown, so
    every map that existed before is as it was; and there are at most as
    many commits as calls. *)
Theorem actions_keep_registry (acts : list Store.Action) :
  forall (w : Store.World) (m : JSMap.t DownloadModel),
  Store.registry w m ->
  exists w' m' h,
    Store.perform_all acts w = Some (tt, w') /\
    Store.registry w' m' /\
    Store.heap w' = Store.heap w ++ h /\
    (forall k, (JSMap.count k m' <= 1)%nat) /\
    (length (Store.trace w') <= length (Store.trace w) + length acts)%nat.
Proof.
  induction acts as [|a acts IH]; intros w m Hreg.
  - exists w, m, []. simpl. rewrite app_nil_r.
    repeat split; try apply Hreg; try lia.
    intros k. apply JSMapFacts.count_le_1, Hreg.
  - destruct (StoreMore.perform_registry a w m Hreg)
      as (r & w1 & m1 & h1 & Hrun & Hreg1 & Hh1 & Ht1).
    destruct (IH w1 m1 Hreg1) as (w2 & m2 & h2 & Hall & Hreg2 & Hh2 & Hc & Ht2).
    exists w2, m2, (h1 ++ h2). simpl. unfold Store.bind. rewrite Hrun.
    split; [exact Hall|]. split; [exact Hreg2|].
    split; [now rewrite Hh2, Hh1, app_assoc|]. split; [exact Hc|]. lia.
Qed.

Lemma actions_keep_registry_witness :
  Store.registry Sample.w1 [(key Sample.d1, Sample.d1)] /\
  exists w' m' h,
    Store.perform_all
      [Store.Add Sample.d2; Store.Update Sample.d1'; Store.Delete Sample.d2;
       Store.Reset; Store.Add Sample.d3] Sample.w1 = Some (tt, w') /\
    Store.registry w' m' /\
    Store.heap w' = Store.heap Sample.w1 ++ h.
Proof.
  split; [exact StoreFacts.registry_w1|].
  destruct (actions_keep_registry
              [Store.Add Sample.d2; Store.Update Sample.d1';
               Store.Delete Sample.d2; Store.Reset; Store.Add Sample.d3]
              Sample.w1 _ StoreFacts.registry_w1)
    as (w' & m' & h & H1 & H2 & H3 & _).
  exists w', m', h. split; [exact H1|]. split; [exact H2|exact H3].
Defined.

(** X7. The [set] action installs what it is given: it allocates and
    copies nothing, the state refers to the very map passed in (or to the
    map it referred to, when the partial state has no [downloads]), and it
    commits once in either case, also when nothing changed. *)
Theorem set_installs_reference (w : Store.World) (p : Store.PartialState) :
  exists w',
    Store.set p w = Some (Store.Undefined, w') /\
    Store.heap w' = Store.heap w /\
    Store.trace w' = Store.trace w ++ [Store.Commit (Store.state w')] /\
    (forall l, Store.p_downloads p = Some l ->
       Store.downloads (Store.state w') = l) /\
    (Store.p_downloads p = None -> Store.state w' = Store.state w).
Proof.
  eexists. split; [reflexivity|]. simpl.
  split; [reflexivity|]. split; [reflexivity|].
  unfold Store.merge. simpl. split.
  - intros l ->. reflexivity.
  - intros ->. now destruct (Store.state w).
Qed.

(** X8. [delete] takes out one pair and nothing else: when the key is
    present, [delete] evaluates to [true] and commits, once, a state whose
    map it has allocated itself, at a location the heap did not have,
    while the map of the previous state stays as it was; the new map is
    the old one without the pair under that key, taken out where it
    stood: one shorter, the key gone, and every other key reads as
    before. *)
Theorem delete_removes_one (w : Store.World) (m : JSMap.t DownloadModel)
    (d : DownloadModel) :
  Store.registry w m -> JSMap.has (key d) m = true ->
  exists w' m',
    Store.delete d w = Some (Store.Boolean true, w') /\
    Store.current w' = Some m' /\
    Store.trace w' = Store.trace w ++ [Store.Commit (Store.state w')] /\
    Store.heap w' = Store.heap w ++ [m'] /\
    Store.downloads (Store.state w') = length (Store.heap w) /\
    Store.heap w !! Store.downloads (Store.state w') = None /\
    Store.heap w' !! Store.downloads (Store.state w) = Some m /\
    m' = List.filter (fun e => negb (str_eqb (fst e) (key d))) m /\
    S (JSMap.size m') = JSMap.size m /\
    JSMap.has (key d) m' = false /\
    (forall k, k <> key d -> JSMap.get k m' = JSMap.get k m) /\
    (forall m1 d0 m2, m = m1 ++ (key d, d0) :: m2 -> m' = m1 ++ m2).
Proof.
  intros Hreg Hhas. pose proof Hreg as [Hcur Hwf].
  eexists. exists (snd (JSMap.delete (key d) m)).
  split; [exact (StoreMore.delete_world w d m Hreg Hhas)|].
  unfold Store.current. cbn.
  split; [apply StoreFacts.lookup_alloc|].
  split; [reflexivity|]. split; [reflexivity|]. split; [reflexivity|].
  split; [apply lookup_ge_None; lia|].
  split; [now apply StoreFacts.lookup_old|].
  split; [apply JSMapMore.delete_filter, Hwf|].
  split; [now apply JSMapMore.length_delete_present|].
  split; [now apply JSMapFacts.has_delete|].
  split; [intros k Hk; now apply JSMapMore.get_delete_other|].
  intros m1 d0 m2 ->. now rewrite JSMapMore.delete_at.
Qed.

Lemma delete_removes_one_witness :
  Store.registry Sample.w2
    [(key Sample.d1, Sample.d1); (key Sample.d2, Sample.d2)] /\
  JSMap.has (key Sample.d1')
    [(key Sample.d1, Sample.d1); (key Sample.d2, Sample.d2)] = true /\
  exists w' m',
    Store.delete Sample.d1' Sample.w2 = Some (Store.Boolean true, w') /\
    Store.current w' = Some m' /\
    m' = [(key Sample.d2, Sample.d2)] /\
    JSMap.get (key Sample.d2) m' = Some Sample.d2 /\
    Store.heap w' =
      [ [(key Sample.d1, Sample.d1); (key Sample.d2, Sample.d2)]; m' ] /\
    Store.state w' = {| Store.downloads := 1%nat |} /\
    Store.trace w' = [Store.Commit {| Store.downloads := 1%nat |}].
Proof.
  split; [exact StoreMore.registry_w2|]. split; [reflexivity|].
  destruct (delete_removes_one Sample.w2 _ Sample.d1' StoreMore.registry_w2
              eq_refl)
    as (w' & m' & Hrun & Hcur & Htr & Hheap & Hloc & _ & _ & _ & _ & _
        & Hother & Hat).
  exists w', m'. split; [exact Hrun|]. split; [exact Hcur|].
  pose proof (Hat [] Sample.d1 [(key Sample.d2, Sample.d2)] eq_refl) as Hm.
  split; [exact Hm|].
  split; [rewrite Hother; [reflexivity|]; intros H; vm_compute in H;
          discriminate|].
  split; [exact Hheap|].
  assert (Store.state w' = {| Store.downloads := 1%nat |}) as Hst
    by (destruct (Store.state w'); simpl in Hloc; now rewrite Hloc).
  split; [exact Hst|]. now rewrite Htr, Hst.
Defined.

(** X9. Only [downloads] is handed to the storage: of an object with
    unique names, [partialize] keeps the [downloads] entry as it is and
    nothing else; of the store object it keeps the reference to the map
    and none of the actions. *)
Theorem partialize_keeps_downloads (o : list (jsstring * Store.property)) :
  JSMap.wf o ->
  Store.partialize o
    = List.filter (fun e => str_eqb (js "downloads") (fst e)) o /\
  JSMap.get (js "downloads") (Store.partialize o)
    = JSMap.get (js "downloads") o /\
  (forall k, k <> js "downloads" -> JSMap.has k (Store.partialize o) = false) /\
  (forall st, Store.partialize (Store.store_object st)
              = [(js "downloads", Store.MapRef (Store.downloads st))]).
Proof.
  intros Hwf.
  assert (forall k, Store.includes Store.persistKeys k
                    = str_eqb (js "downloads") k) as Hinc
    by (intros k; unfold Store.includes, Store.persistKeys; simpl;
        apply orb_false_r).
  assert (Store.partialize o
          = List.filter (fun e => str_eqb (js "downloads") (fst e)) o) as Hp.
  { unfold Store.partialize, JSMap.entries.
    assert (forall l : list (jsstring * Store.property),
              List.filter (fun e => Store.includes Store.persistKeys (fst e)) l
              = List.filter (fun e => str_eqb (js "downloads") (fst e)) l) as ->.
    { intros l. apply List.filter_ext. intros e. apply Hinc. }
    apply (JSMapFacts.of_entries_entries
             (List.filter (fun e => str_eqb (js "downloads") (fst e)) o)).
    now apply JSMapMore.wf_filter. }
  split; [exact Hp|]. rewrite Hp. split; [|split].
  - apply JSMapMore.get_filter_key.
  - intros k Hk. now apply JSMapMore.has_filter_other.
  - intros st. reflexivity.
Qed.

Lemma partialize_keeps_downloads_witness :
  JSMap.wf (Store.store_object (Store.state Sample.w1)) /\
  JSMap.keys (Store.partialize (Store.store_object (Store.state Sample.w1)))
    = [js "downloads"].
Proof.
  assert (JSMap.wf (Store.store_object (Store.state Sample.w1))) as Hwf.
  { unfold JSMap.wf. simpl.
    repeat (apply NoDup_cons; split;
            [intros H; apply list_elem_of_In in H; simpl in H;
             repeat (destruct H as [H|H]; [vm_compute in H; discriminate|]);
             exact H|]).
    apply NoDup_nil_2. }
  split; [exact Hwf|].
  destruct (partialize_keeps_downloads _ Hwf) as (Hp & _). now rewrite Hp.
Defined.

(** ** More on the adapter *)

Module StorageMore.
Import JSON Storage.

Lemma get_fold_set_In {V} (es : list (jsstring * V)) k d : forall m,
  JSMap.get k (fold_left (fun m e => JSMap.set (fst e) (snd e) m) es m) = Some d ->
  JSMap.get k m = Some d \/ In (k, d) es.
Proof.
  induction es as [|[k0 v0] es IH]; intros m H; simpl in *; [now left|].
  apply IH in H as [H|H]; [|tauto].
  destruct (str_eqb k0 k) eqn:E.
  - apply str_eqb_eq in E. subst k0. rewrite JSMapFacts.get_set_same in H.
    injection H as ->. tauto.
  - apply str_eqb_neq in E. rewrite JSMapFacts.get_set_other in H by congruence.
    tauto.
Qed.

(** Whatever the map read holds came from a valid entry under that key. *)
Lemma load_origin es k d :
  JSMap.get k (fst (load_entries es)) = Some d ->
  exists obj, In (k, obj) es /\ invalid obj = false /\ d = rehydrate obj.
Proof.
  rewrite StorageFacts.load_entries_split. simpl. unfold JSMap.of_entries.
  intros H. apply get_fold_set_In in H as [H|H]; [discriminate|].
  apply in_map_iff in H as ([k' obj] & Heq & Hin). simpl in Heq.
  injection Heq as -> <-. apply List.filter_In in Hin as [Hin Hv]. simpl in Hv.
  exists obj. split; [exact Hin|]. split; [|reflexivity].
  now destruct (invalid obj).
Qed.

Lemma rehydrate_status obj :
  status (rehydrate obj) <> Downloading /\
  (SerializedDownload.status obj = None ->
   SerializedDownload.isComplete obj <> Some true ->
   status (rehydrate obj) = Queued).
Proof.
  unfold rehydrate. destruct (SerializedDownload.status obj) as [[]|]; simpl.
  1-4: split; [discriminate|discriminate].
  destruct (SerializedDownload.isComplete obj) as [[]|]; simpl;
    (split; [discriminate|]); intros _ H; congruence.
Qed.

Lemma filter_split_length {A} (f : A -> bool) (l : list A) :
  (length (List.filter f l) + length (List.filter (fun x => negb (f x)) l)
   = length l)%nat.
Proof.
  induction l as [|x l IH]; simpl; [reflexivity|].
  destruct (f x); simpl; lia.
Qed.

Lemma written_inj d1 d2 : written d1 = written d2 -> d1 = d2.
Proof.
  destruct d1, d2. unfold written. simpl. intros H.
  injection H as -> -> -> -> -> -> -> -> ->. reflexivity.
Qed.

Lemma map_written_inj (m1 m2 : JSMap.t DownloadModel) :
  map (fun e => (fst e, written (snd e))) m1
  = map (fun e => (fst e, written (snd e))) m2 -> m1 = m2.
Proof.
  revert m2. induction m1 as [|[k1 d1] m1 IH]; intros [|[k2 d2] m2];
    simpl; try discriminate; [reflexivity|].
  intros H.
  pose proof (f_equal (fun l => fst (hd (k1, written d1) l)) H) as Hk.
  pose proof (f_equal (fun l => snd (hd (k1, written d1) l)) H) as Hd.
  pose proof (f_equal (@tl _) H) as Hm. simpl in Hk, Hd, Hm.
  apply written_inj in Hd. apply IH in Hm. now subst.
Qed.

Lemma reloaded_idem d : reloaded (reloaded d) = reloaded d.
Proof. destruct d as [i su ak fn du [] cp ex nw]; reflexivity. Qed.

Lemma reloaded_keeps d :
  isNew (reloaded d) = isNew d /\ status (reloaded d) <> Downloading.
Proof. destruct d as [i su ak fn du [] cp ex nw]; split; (reflexivity || discriminate). Qed.

Lemma rehydrate_fields obj :
  item (rehydrate obj) =
    match SerializedDownload.item obj with
    | Some i => i
    | None => {| Id := non_null (SerializedDownload.itemId obj);
                 ServerId := non_null (SerializedDownload.serverId obj);
                 Name := SerializedDownload.title obj |}
    end /\
  serverUrl (rehydrate obj) = SerializedDownload.serverUrl obj /\
  apiKey (rehydrate obj) = SerializedDownload.apiKey obj /\
  filename (rehydrate obj) = SerializedDownload.filename obj /\
  downloadUrl (rehydrate obj) = SerializedDownload.downloadUrl obj /\
  extension (rehydrate obj) = SerializedDownload.extension obj /\
  isNew (rehydrate obj) = SerializedDownload.isNew obj.
Proof.
  unfold rehydrate.
  destruct (SerializedDownload.status obj) as [[]|];
    destruct (SerializedDownload.isComplete obj) as [[]|]; simpl;
    now repeat split.
Qed.

(** The loop past a run of entries that decode. *)
Lemma forEach_prefix es1 es2 : forall m log,
  Forall decodes es1 ->
  forEach (es1 ++ es2) m log =
  forEach es2
    (fold_left (fun m e => JSMap.set (fst e) (snd e) m) (loaded es1) m)
    (log ++ flat_map lacking es1).
Proof.
  induction es1 as [|e es IH]; intros m log Hall.
  - simpl. now rewrite app_nil_r.
  - apply Forall_cons_iff in Hall as [(key & obj & Hd & Hn & Hk) Hall].
    cbn [app forEach loaded flat_map]. unfold lacking at 1. rewrite Hd.
    rewrite (StorageFacts.callback_decodes e key obj Hd Hn).
    destruct (lacks_identity obj) eqn:El.
    + rewrite IH by exact Hall. now rewrite <- app_assoc.
    + destruct (Hk eq_refl) as [k ->]. rewrite IH by exact Hall. reflexivity.
Qed.

(** [deserialize] on a stored text, by what the loop ends in. *)
Lemma deserialize_raw_stored s entries version :
  stored s = Some (entries, version) ->
  deserialize_raw (Some s) =
  match forEach entries JSMap.empty [] with
  | Some (inl e) => Some (Thrown e)
  | Some (inr (downloads, log)) => Some (Loaded downloads version log)
  | None => None
  end.
Proof.
  unfold stored, deserialize_raw. intros Hs.
  destruct (negb (truthy_string s)); [discriminate|].
  destruct (parse s) as [value|]; [|discriminate].
  unfold deserialize_value.
  destruct (get (Some value) (js "state")) as [e|value_state]; [discriminate|].
  destruct (get value_state (js "downloads")) as [e|[[| | | |vs|]|]];
    try discriminate.
  injection Hs as -> <-. reflexivity.
Qed.

Lemma callback_throws entry :
  destructure entry = inl TypeError \/ destructure entry = inr None \/
  (exists key, destructure entry = inr (Some (key, JNull))) ->
  callback entry = Some (Throw TypeError).
Proof.
  unfold callback. intros [-> | [-> | [key ->]]]; reflexivity.
Qed.
End StorageMore.

(** X10. No record comes back in flight: whatever the file holds, every
    record of the collection [deserialize] returns was built from a valid
    entry stored under that key, its status is never [Downloading], and it
    is [Queued] when the entry has neither a status nor [isComplete] set
    to [true]. *)
Theorem never_restores_downloading (s : jsstring)
    (es : list (jsstring * SerializedDownload.t)) (v : option (Z * Z)) :
  Storage.contents s = Some (es, v) ->
  exists value log,
    Storage.deserialize (Some s) = Some (Storage.Returns value log) /\
    forall k d,
      JSMap.get k (Storage.downloads (Storage.state value)) = Some d ->
      status d <> Downloading /\
      exists obj,
        In (k, obj) es /\ Storage.invalid obj = false /\
        d = Storage.rehydrate obj /\
        (SerializedDownload.status obj = None ->
         SerializedDownload.isComplete obj <> Some true ->
         status d = Queued).
Proof.
  intros Hs.
  destruct (StorageFacts.deserialize_loads s es v Hs) as (value & log & Hd & Hm & _).
  exists value, log. split; [exact Hd|]. intros k d Hget. rewrite Hm in Hget.
  apply StorageMore.load_origin in Hget as (obj & Hin & Hv & ->).
  destruct (StorageMore.rehydrate_status obj) as [Hnd Hq].
  split; [exact Hnd|]. exists obj. now repeat split.
Qed.

Lemma never_restores_downloading_witness :
  Storage.contents Sample.legacy_file
    = Some (Sample.legacy_entries, Some (0, 0)%Z) /\
  exists value log,
    Storage.deserialize (Some Sample.legacy_file)
      = Some (Storage.Returns value log) /\
    forall k d,
      JSMap.get k (Storage.downloads (Storage.state value)) = Some d ->
      status d <> Downloading.
Proof.
  split; [exact StorageFacts.legacy_file_contents|].
  destruct (never_restores_downloading _ _ _ StorageFacts.legacy_file_contents)
    as (value & log & Hd & Hrec).
  exists value, log. split; [exact Hd|].
  intros k d Hget. exact (proj1 (Hrec k d Hget)).
Defined.

(** X11. Every entry is accounted for: the collection read has unique
    keys whatever the file repeats; the records loaded and the
    diagnostics logged together are never more than the entries of the
    file; and when the file holds no key twice they are exactly as many,
    the keys of the collection being those of the valid entries in the
    order of the file. *)
Theorem entries_accounted_for (s : jsstring)
    (es : list (jsstring * SerializedDownload.t)) (v : option (Z * Z)) :
  Storage.contents s = Some (es, v) ->
  exists value log,
    Storage.deserialize (Some s) = Some (Storage.Returns value log) /\
    JSMap.wf (Storage.downloads (Storage.state value)) /\
    (JSMap.size (Storage.downloads (Storage.state value)) + length log
     <= length es)%nat /\
    (NoDup (map fst es) ->
     (JSMap.size (Storage.downloads (Storage.state value)) + length log
      = length es)%nat /\
     JSMap.keys (Storage.downloads (Storage.state value))
     = map fst (List.filter (fun e => negb (Storage.invalid (snd e))) es)).
Proof.
  intros Hs.
  destruct (StorageFacts.deserialize_loads s es v Hs) as (value & log & Hd & Hm & Hl).
  exists value, log. split; [exact Hd|].
  rewrite Hm, Hl, StorageFacts.load_entries_split. simpl.
  pose proof (StorageMore.filter_split_length
                (fun e => Storage.invalid (snd e)) es) as Hlen.
  cbv beta in Hlen.
  set (valid := List.filter (fun e => negb (Storage.invalid (snd e))) es) in *.
  set (recs := map (fun e => (fst e, Storage.rehydrate (snd e))) valid).
  assert (length recs = length valid) as Hrecs by apply length_map.
  split; [apply JSMapFacts.wf_of_entries|]. split.
  - pose proof (JSMapMore.length_fold_set recs JSMap.empty) as Hle.
    unfold JSMap.size, JSMap.of_entries.
    etransitivity; [apply Nat.add_le_mono_r, Hle|].
    change (length (@JSMap.empty DownloadModel)) with 0%nat.
    unfold Storage.Diagnostic. clearbody recs valid. lia.
  - intros Hnd.
    assert (JSMap.wf recs) as Hwf.
    { unfold JSMap.wf, JSMap.keys, recs. rewrite map_map. simpl.
      apply (JSMapMore.wf_filter (V := SerializedDownload.t)). exact Hnd. }
    pose proof (JSMapFacts.of_entries_entries recs Hwf) as E.
    unfold JSMap.entries in E. rewrite E.
    split; [unfold JSMap.size, Storage.Diagnostic; rewrite Hrecs;
            clearbody valid; lia|].
    unfold JSMap.keys, recs. now rewrite map_map.
Qed.

Lemma entries_accounted_for_witness :
  Storage.contents Sample.legacy_file
    = Some (Sample.legacy_entries, Some (0, 0)%Z) /\
  exists value log,
    Storage.deserialize (Some Sample.legacy_file)
      = Some (Storage.Returns value log) /\
    (JSMap.size (Storage.downloads (Storage.state value)) + length log
     = 3)%nat.
Proof.
  split; [exact StorageFacts.legacy_file_contents|].
  destruct (entries_accounted_for _ _ _ StorageFacts.legacy_file_contents)
    as (value & log & Hd & _ & _ & Heq).
  exists value, log. split; [exact Hd|].
  apply Heq. simpl.
  repeat (apply NoDup_cons; split;
          [intros H; apply list_elem_of_In in H; simpl in H;
           repeat (destruct H as [H|H]; [vm_compute in H; discriminate|]);
           exact H|]).
  apply NoDup_nil_2.
Defined.

(** X12. A file that parses but has no [state]: when the text is JSON for
    anything but an object with a [state] that is not [null] (the text of
    an empty object, of [null], of an array, of a number), reading
    [value.state.downloads] throws and [deserialize] ends in a
    [TypeError]. *)
Theorem stateless_file_throws (s : jsstring) (value : JSON.value) :
  s <> [] -> JSON.parse s = Some value ->
  match value with
  | JSON.JObj ms =>
      match Storage.prop (js "state") ms with
      | None | Some JSON.JNull => True
      | Some _ => False
      end
  | _ => True
  end ->
  Storage.deserialize (Some s) = Some (Storage.Throws Storage.TypeError).
Proof.
  intros Hs Hp Hv. unfold Storage.deserialize, Storage.deserialize_raw.
  destruct s as [|c s]; [congruence|]. simpl negb. cbv iota. rewrite Hp.
  unfold Storage.deserialize_value.
  destruct value as [| | | | |ms]; try reflexivity.
  simpl. destruct (Storage.prop (js "state") ms) as [[]|]; simpl;
    try reflexivity; contradiction.
Qed.

Lemma stateless_file_throws_witness :
  js "{}" <> [] /\ JSON.parse (js "{}") = Some (JSON.JObj []) /\
  Storage.deserialize (Some (js "{}")) = Some (Storage.Throws Storage.TypeError) /\
  Storage.deserialize (Some (js "null")) = Some (Storage.Throws Storage.TypeError).
Proof.
  split; [discriminate|]. split; [reflexivity|]. split.
  - apply (stateless_file_throws (js "{}") (JSON.JObj []));
      [discriminate|reflexivity|exact I].
  - apply (stateless_file_throws (js "null") JSON.JNull);
      [discriminate|reflexivity|exact I].
Defined.

(** X13. A file whose [downloads] is no array: when [state] is there and
    [state.downloads] is missing or is anything but an array (an object,
    as a [Map] is written when it is not flattened), [deserialize] does
    not fail and logs nothing: it returns an empty collection, with the
    version of the file. *)
Theorem unflattened_downloads_read_empty (s : jsstring)
    (ms : list (jsstring * JSON.value)) (st : JSON.value)
    (v : option (Z * Z)) :
  s <> [] -> JSON.parse s = Some (JSON.JObj ms) ->
  Storage.prop (js "state") ms = Some st -> st <> JSON.JNull ->
  (forall vs, Storage.get (Some st) (js "downloads")
              <> inr (Some (JSON.JArr vs))) ->
  Storage.as_version ms = Some v ->
  Storage.deserialize (Some s) =
    Some (Storage.Returns
            {| Storage.state := {| Storage.downloads := JSMap.empty |};
               Storage.version := v |} []).
Proof.
  intros Hs Hp Hst Hnull Harr Hv.
  unfold Storage.deserialize, Storage.deserialize_raw.
  destruct s as [|c s]; [congruence|]. simpl negb. cbv iota. rewrite Hp.
  unfold Storage.deserialize_value. cbn [Storage.get Storage.member].
  rewrite Hst.
  assert (Storage.typed_version (Storage.prop (js "version") ms) = Some v)
    as Hv' by exact Hv.
  destruct st as [| | | | |sm]; try congruence;
    try (cbn [Storage.get Storage.typed Storage.typed_map]; now rewrite Hv').
  cbn [Storage.get] in *.
  destruct (Storage.prop (js "downloads") sm) as [[| | | |vs|]|];
    try (cbn [Storage.typed Storage.typed_map]; now rewrite Hv').
  exfalso. now apply (Harr vs).
Qed.

Lemma unflattened_downloads_read_empty_witness :
  Sample.unflattened_file <> [] /\
  Storage.deserialize (Some Sample.unflattened_file) =
    Some (Storage.Returns
            {| Storage.state := {| Storage.downloads := JSMap.empty |};
               Storage.version := Some (0, 0)%Z |} []).
Proof.
  split; [discriminate|].
  apply (unflattened_downloads_read_empty Sample.unflattened_file
           [ (js "state", JSON.JObj [ (js "downloads", JSON.JObj []) ]);
             (js "version", JSON.JNum 0 0) ]
           (JSON.JObj [ (js "downloads", JSON.JObj []) ]) (Some (0, 0)%Z)).
  - discriminate.
  - vm_compute. reflexivity.
  - reflexivity.
  - discriminate.
  - intros vs H. vm_compute in H. discriminate.
  - reflexivity.
Defined.

(** X14. [setItem] loses nothing: two store states that differ are
    written as texts that differ. *)
Theorem setItem_injective (v1 v2 : Storage.StorageValue) :
  v1 <> v2 -> Storage.setItem v1 <> Storage.setItem v2.
Proof.
  intros Hne H. apply Hne.
  pose proof (StorageFacts.contents_setItem v1) as H1.
  rewrite H, StorageFacts.contents_setItem in H1.
  injection H1 as Hm Hv. apply StorageMore.map_written_inj in Hm.
  destruct v1 as [[m1] x1], v2 as [[m2] x2]. simpl in *. now subst.
Qed.

Lemma setItem_injective_witness :
  Sample.at_rest <> Sample.in_flight /\
  Storage.setItem Sample.at_rest <> Storage.setItem Sample.in_flight.
Proof.
  assert (Sample.at_rest <> Sample.in_flight) as Hne by discriminate.
  split; [exact Hne|]. exact (setItem_injective _ _ Hne).
Defined.

(** X15. Reloading settles: what comes back from one write and read is
    written and read back exactly, with nothing logged: after the first
    reload no record is in flight and further restarts change nothing. *)
Theorem reload_settles (value : Storage.StorageValue) :
  JSMap.wf (Storage.downloads (Storage.state value)) ->
  exists value',
    Storage.deserialize (Some (Storage.setItem value))
      = Some (Storage.Returns value' []) /\
    Storage.deserialize (Some (Storage.setItem value'))
      = Some (Storage.Returns value' []).
Proof.
  intros Hwf. eexists. split; [now apply StorageFacts.deserialize_setItem|].
  rewrite StorageFacts.deserialize_setItem; simpl.
  - rewrite map_map. simpl.
    rewrite (map_ext _ (fun e => (fst e, Storage.reloaded (snd e))));
      [reflexivity|].
    intros [k d]. simpl. now rewrite StorageMore.reloaded_idem.
  - unfold JSMap.wf, JSMap.keys in *. now rewrite map_map.
Qed.

Lemma reload_settles_witness :
  JSMap.wf (Storage.downloads (Storage.state Sample.in_flight)) /\
  exists value',
    Storage.deserialize (Some (Storage.setItem Sample.in_flight))
      = Some (Storage.Returns value' []) /\
    Storage.deserialize (Some (Storage.setItem value'))
      = Some (Storage.Returns value' []).
Proof.
  split; [exact StorageFacts.in_flight_wf|].
  exact (reload_settles Sample.in_flight StorageFacts.in_flight_wf).
Defined.

(** X16. What a write and read keeps, also with transfers in flight: the
    keys and their order, the version, and for every key the record's
    fields other than the status, so the count of new downloads is the
    one before. *)
Theorem reload_keeps_keys_and_count (value : Storage.StorageValue) :
  JSMap.wf (Storage.downloads (Storage.state value)) ->
  exists value',
    Storage.deserialize (Some (Storage.setItem value))
      = Some (Storage.Returns value' []) /\
    Storage.version value' = Storage.version value /\
    JSMap.keys (Storage.downloads (Storage.state value'))
      = JSMap.keys (Storage.downloads (Storage.state value)) /\
    length (List.filter (fun d => isNew d)
              (JSMap.values (Storage.downloads (Storage.state value'))))
      = length (List.filter (fun d => isNew d)
                  (JSMap.values (Storage.downloads (Storage.state value)))) /\
    forall k d,
      JSMap.get k (Storage.downloads (Storage.state value)) = Some d ->
      exists d',
        JSMap.get k (Storage.downloads (Storage.state value')) = Some d' /\
        set_status (status d) d' = d.
Proof.
  intros Hwf. eexists. split; [now apply StorageFacts.deserialize_setItem|].
  simpl. split; [reflexivity|].
  generalize (Storage.downloads (Storage.state value)) as m. intros m.
  split; [|split].
  - unfold JSMap.keys. now rewrite map_map.
  - unfold JSMap.values. rewrite map_map. simpl.
    induction m as [|[k d] m IH]; [reflexivity|]. simpl.
    destruct (StorageMore.reloaded_keeps d) as [-> _].
    destruct (isNew d); simpl; now rewrite IH.
  - intros k d. induction m as [|[k0 d0] m IH]; simpl; [discriminate|].
    destruct (str_eqb k0 k).
    + intros H. injection H as ->. exists (Storage.reloaded d).
      split; [reflexivity|].
      destruct d as [i su ak fn du [] cp ex nw]; reflexivity.
    + exact IH.
Qed.

Lemma reload_keeps_keys_and_count_witness :
  JSMap.wf (Storage.downloads (Storage.state Sample.in_flight)) /\
  exists value',
    Storage.deserialize (Some (Storage.setItem Sample.in_flight))
      = Some (Storage.Returns value' []) /\
    JSMap.keys (Storage.downloads (Storage.state value'))
      = JSMap.keys (Storage.downloads (Storage.state Sample.in_flight)).
Proof.
  split; [exact StorageFacts.in_flight_wf|].
  destruct (reload_keeps_keys_and_count Sample.in_flight
              StorageFacts.in_flight_wf) as (value' & H1 & _ & H2 & _).
  exists value'. split; [exact H1|exact H2].
Defined.

(** X17. The item of a loaded record: for a valid entry (the last one
    under its key) that carries an [item], the record has that item,
    whatever [itemId] and [serverId] say; for one that carries none,
    [itemId] and [serverId] are there and not empty and the item is made
    of them, with [title] as its name; the other fields are the entry's,
    as they are. *)
Theorem item_reconstructed (s : jsstring)
    (es : list (jsstring * SerializedDownload.t)) (v : option (Z * Z)) :
  Storage.contents s = Some (es, v) ->
  exists value log,
    Storage.deserialize (Some s) = Some (Storage.Returns value log) /\
    forall es1 k obj es2,
      es = es1 ++ (k, obj) :: es2 ->
      Storage.invalid obj = false ->
      ~ In k (map fst es2) ->
      exists d,
        JSMap.get k (Storage.downloads (Storage.state value)) = Some d /\
        (forall i, SerializedDownload.item obj = Some i -> item d = i) /\
        (SerializedDownload.item obj = None ->
         exists id sid,
           SerializedDownload.itemId obj = Some id /\ id <> [] /\
           SerializedDownload.serverId obj = Some sid /\ sid <> [] /\
           item d = {| Id := id; ServerId := sid;
                       Name := SerializedDownload.title obj |}) /\
        serverUrl d = SerializedDownload.serverUrl obj /\
        apiKey d = SerializedDownload.apiKey obj /\
        filename d = SerializedDownload.filename obj /\
        downloadUrl d = SerializedDownload.downloadUrl obj /\
        extension d = SerializedDownload.extension obj /\
        isNew d = SerializedDownload.isNew obj.
Proof.
  intros Hs.
  destruct (StorageFacts.deserialize_loads s es v Hs) as (value & log & Hd & Hm & _).
  exists value, log. split; [exact Hd|].
  intros es1 k obj es2 -> Hv Hlast. exists (Storage.rehydrate obj).
  split; [rewrite Hm; now apply StorageFacts.load_last|].
  destruct (StorageMore.rehydrate_fields obj)
    as (Hi & Hsu & Hak & Hfn & Hdu & Hex & Hnw).
  split; [|split].
  - intros i Hsome. now rewrite Hi, Hsome.
  - intros Hnone. rewrite Hi, Hnone. unfold Storage.invalid in Hv.
    rewrite Hnone in Hv. simpl in Hv.
    destruct (SerializedDownload.itemId obj) as [[|c id]|]; try discriminate.
    destruct (SerializedDownload.serverId obj) as [[|c' sid]|]; try discriminate.
    exists (c :: id), (c' :: sid). now repeat split.
  - now repeat split.
Qed.

Lemma item_reconstructed_witness :
  Storage.contents Sample.legacy_file
    = Some (Sample.legacy_entries, Some (0, 0)%Z) /\
  exists value log,
    Storage.deserialize (Some Sample.legacy_file)
      = Some (Storage.Returns value log) /\
    exists d, JSMap.get (js "srv_item2") (Storage.downloads (Storage.state value))
              = Some d /\ item d = Sample.song.
Proof.
  split; [exact StorageFacts.legacy_file_contents|].
  destruct (item_reconstructed _ _ _ StorageFacts.legacy_file_contents)
    as (value & log & Hd & Hrec).
  exists value, log. split; [exact Hd|].
  destruct (Hrec (firstn 2 Sample.legacy_entries) (js "srv_item2") _ []
              eq_refl eq_refl) as (d & Hget & _ & Hnone & _).
  - simpl. tauto.
  - exists d. split; [exact Hget|].
    destruct (Hnone eq_refl) as (id & sid & Hid & _ & Hsid & _ & Hitem).
    simpl in Hid, Hsid. injection Hid as <-. injection Hsid as <-.
    exact Hitem.
Defined.

(** X18. One entry that cannot be read ends the whole load: when the
    entries before it are read, an entry that is no array and no string
    (it cannot be destructured), or has fewer than two elements (its
    record is [undefined]), or has the record [null], makes [obj.item]
    or the destructuring throw; the [TypeError] leaves [deserialize],
    whatever entries come after, and nothing is returned. *)
Theorem unreadable_entry_throws (s : jsstring) (es1 : list JSON.value)
    (entry : JSON.value) (es2 : list JSON.value)
    (version : option JSON.value) :
  Storage.stored s = Some (es1 ++ entry :: es2, version) ->
  Forall Storage.decodes es1 ->
  Storage.destructure entry = inl Storage.TypeError \/
  Storage.destructure entry = inr None \/
  (exists key, Storage.destructure entry = inr (Some (key, JSON.JNull))) ->
  Storage.deserialize_raw (Some s) = Some (Storage.Thrown Storage.TypeError) /\
  Storage.deserialize (Some s) = Some (Storage.Throws Storage.TypeError).
Proof.
  intros Hs Hall Hentry.
  assert (Storage.deserialize_raw (Some s)
          = Some (Storage.Thrown Storage.TypeError)) as Hraw.
  { rewrite (StorageMore.deserialize_raw_stored s _ version Hs).
    rewrite StorageMore.forEach_prefix by exact Hall.
    cbn [Storage.forEach]. now rewrite StorageMore.callback_throws. }
  split; [exact Hraw|]. unfold Storage.deserialize. now rewrite Hraw.
Qed.

Lemma unreadable_entry_throws_witness :
  Storage.stored Sample.null_record_file
    = Some ([Storage.entry_json (key Sample.d1, Sample.d1)]
            ++ JSON.JArr [JSON.JStr (js "broken"); JSON.JNull]
            :: [Storage.entry_json (key Sample.d2, Sample.d2)],
            Some (JSON.JNum 0 0)) /\
  Forall Storage.decodes [Storage.entry_json (key Sample.d1, Sample.d1)] /\
  Storage.deserialize (Some Sample.null_record_file)
    = Some (Storage.Throws Storage.TypeError).
Proof.
  assert (Storage.stored Sample.null_record_file
          = Some ([Storage.entry_json (key Sample.d1, Sample.d1)]
                  ++ JSON.JArr [JSON.JStr (js "broken"); JSON.JNull]
                  :: [Storage.entry_json (key Sample.d2, Sample.d2)],
                  Some (JSON.JNum 0 0))) as Hs by (vm_compute; reflexivity).
  assert (Forall Storage.decodes
            [Storage.entry_json (key Sample.d1, Sample.d1)]) as Hall.
  { apply List.Forall_cons; [|apply List.Forall_nil].
    do 2 eexists. split; [reflexivity|]. split; [discriminate|]. eauto. }
  split; [exact Hs|]. split; [exact Hall|].
  apply (unreadable_entry_throws _ _ _ _ _ Hs Hall).
  right. right. now eexists.
Defined.
